(** * Verification of the @codemirror/collab synchronisation core

    Shallow embedding of [collab.ts] (the version with [rebaseUpdates],
    where updates carry a [clientID]) and of the authority model of the
    package's rebasing test, followed by the properties of the
    specification that were checked against them. *)

From Stdlib Require Import List String Ascii Bool Arith NArith Lia.
From Equations Require Import Equations.
Import ListNotations.
Open Scope string_scope.
Open Scope list_scope.
Open Scope nat_scope.

Set Implicit Arguments.

(** ** The part of @codemirror/state that collab.ts imports

    Change sets, change descriptions, effects and documents are owned by
    the host text engine.  The collab code only calls the operations
    below, so they are taken as an interface. *)

Class StateLib : Type := {
  (** the document, [Text] *)
  Text : Type;
  (** [ChangeDesc]: a change set without the inserted text *)
  ChangeDesc : Type;
  ChangeSet : Type;
  StateEffect : Type;
  (** [ChangeSet extends ChangeDesc]: a change set used as a description *)
  desc : ChangeSet -> ChangeDesc;
  (** [ChangeDesc.length]: the length of the document the change applies to *)
  ChangeDesc_length : ChangeDesc -> nat;
  (** [ChangeDesc.empty]: false when there are actual changes *)
  ChangeDesc_empty : ChangeDesc -> bool;
  (** [a.composeDesc(b)] *)
  composeDesc : ChangeDesc -> ChangeDesc -> ChangeDesc;
  (** [a.mapDesc(b, before)] *)
  mapDesc : ChangeDesc -> ChangeDesc -> bool -> ChangeDesc;
  (** [a.compose(b)] *)
  compose : ChangeSet -> ChangeSet -> ChangeSet;
  (** [a.map(b, before)] *)
  ChangeSet_map : ChangeSet -> ChangeDesc -> bool -> ChangeSet;
  (** [ChangeSet.empty(length)] *)
  ChangeSet_empty : nat -> ChangeSet;
  (** [changes.apply(doc)] *)
  apply : ChangeSet -> Text -> Text;
  (** [doc.length] *)
  Text_length : Text -> nat;
  (** [effect.map(mapping)]: the mapped effect, or [None] for [undefined] *)
  StateEffect_map : StateEffect -> ChangeDesc -> option StateEffect
}.

(** ** collab.ts *)

Section Collab.
Context {L : StateLib}.

(** [interface Update]; [effects] is optional. *)
Record Update : Type := mkUpdate {
  changes : ChangeSet;
  effects : option (list StateEffect);
  clientID : string
}.

(** [Transaction], [Annotation], [class CollabState] and
    [class LocalUpdate] refer to each other: a local update keeps the
    transaction it came from in [origin], and a transaction may carry a
    [CollabState] in its [collabReceive] annotation. *)
Inductive Transaction : Type :=
| mkTransaction (tr_changes : ChangeSet) (tr_effects : list StateEffect)
                (tr_annotations : list Annotation)
with Annotation : Type :=
| addToHistory (b : bool)
| remote (b : bool)
| collabReceive (value : CollabState)
with CollabState : Type :=
| mkCollabState (version : nat) (unconfirmed : list LocalUpdate)
with LocalUpdate : Type :=
| mkLocalUpdate (origin : Transaction) (l_changes : ChangeSet)
                (l_effects : list StateEffect) (l_clientID : string).

Definition tr_changes (tr : Transaction) : ChangeSet :=
  let 'mkTransaction c _ _ := tr in c.
Definition tr_effects (tr : Transaction) : list StateEffect :=
  let 'mkTransaction _ e _ := tr in e.
Definition tr_annotations (tr : Transaction) : list Annotation :=
  let 'mkTransaction _ _ a := tr in a.

Definition version (c : CollabState) : nat :=
  let 'mkCollabState v _ := c in v.
Definition unconfirmed (c : CollabState) : list LocalUpdate :=
  let 'mkCollabState _ u := c in u.

Definition origin (u : LocalUpdate) : Transaction :=
  let 'mkLocalUpdate o _ _ _ := u in o.
Definition l_changes (u : LocalUpdate) : ChangeSet :=
  let 'mkLocalUpdate _ c _ _ := u in c.
Definition l_effects (u : LocalUpdate) : list StateEffect :=
  let 'mkLocalUpdate _ _ e _ := u in e.
Definition l_clientID (u : LocalUpdate) : string :=
  let 'mkLocalUpdate _ _ _ i := u in i.

(** [class LocalUpdate implements Update]: a local update read as an
    [Update], as [sendableUpdates] hands it out. *)
Definition asUpdate (u : LocalUpdate) : Update :=
  mkUpdate (l_changes u) (Some (l_effects u)) (l_clientID u).

(** The combined [CollabConfig] facet value. *)
Record CollabConfig : Type := mkCollabConfig {
  startVersion : nat;
  cfg_clientID : string;
  sharedEffects : Transaction -> list StateEffect
}.

(** The part of an [EditorState] that collab.ts reads: the document, the
    value of [collabField] and the value of the [collabConfig] facet. *)
Record EditorState : Type := mkEditorState {
  doc : Text;
  field_collab : CollabState;
  facet_collabConfig : CollabConfig
}.

(** The argument of [state.update(...)]. *)
Record TransactionSpec : Type := mkSpec {
  spec_changes : option ChangeSet;
  spec_effects : list StateEffect;
  spec_annotations : list Annotation;
  spec_filter : option bool
}.

(** [tr.annotation(collabReceive)] *)
Fixpoint annotation_collabReceive (l : list Annotation) : option CollabState :=
  match l with
  | [] => None
  | collabReceive c :: _ => Some c
  | _ :: r => annotation_collabReceive r
  end.

(** [arr.length] used as a condition. *)
Definition nonempty {A : Type} (l : list A) : bool :=
  match l with [] => false | _ :: _ => true end.

(** [StateEffect.mapEffects]; its body is the [mapEffects] helper that
    collab.ts carried before the host library exported it. *)
Definition mapEffects (effs : list StateEffect) (mapping : ChangeDesc)
  : list StateEffect :=
  if nonempty effs then
    fold_left (fun result e =>
                 match StateEffect_map e mapping with
                 | Some mapped => result ++ [mapped]
                 | None => result
                 end) effs []
  else effs.

(** [collabField.create] *)
Definition collabField_create (cfg : CollabConfig) : CollabState :=
  mkCollabState (startVersion cfg) [].

(** [collabField.update]; [cfg] is [tr.startState.facet(collabConfig)]. *)
Definition collabField_update (cfg : CollabConfig) (collab : CollabState)
  (tr : Transaction) : CollabState :=
  match annotation_collabReceive (tr_annotations tr) with
  | Some isSync => isSync
  | None =>
      let effs := sharedEffects cfg tr in
      if nonempty effs || negb (ChangeDesc_empty (desc (tr_changes tr))) then
        mkCollabState (version collab)
          (unconfirmed collab
             ++ [mkLocalUpdate tr (tr_changes tr) effs (cfg_clientID cfg)])
      else collab
  end.

(** *** receiveUpdates *)

(** The variables of the loop over [updates]. *)
Record ReceiveLoop : Type := mkReceiveLoop {
  rl_changes : option ChangeSet;
  rl_effects : list StateEffect;
  rl_own : nat
}.

(** [ours]: [own < unconfirmed.length ? unconfirmed[own] : null] *)
Definition ours_at (unconf : list LocalUpdate) (own : nat) : option LocalUpdate :=
  if own <? List.length unconf then nth_error unconf own else None.

(** The test [ours && ours.clientID == update.clientID]. *)
Definition is_own (unconf : list LocalUpdate) (own : nat) (update : Update)
  : option LocalUpdate :=
  match ours_at unconf own with
  | Some ours => if (l_clientID ours =? clientID update)%string
                 then Some ours else None
  | None => None
  end.

(** One iteration of [for (let update of updates)]. *)
Definition receive_step (unconf : list LocalUpdate) (s : ReceiveLoop)
  (update : Update) : ReceiveLoop :=
  match is_own unconf (rl_own s) update with
  | Some ours =>
      mkReceiveLoop
        (match rl_changes s with
         | Some c => Some (ChangeSet_map c (desc (l_changes ours)) true)
         | None => None
         end)
        (mapEffects (rl_effects s) (desc (changes update)))
        (S (rl_own s))
  | None =>
      let effs := mapEffects (rl_effects s) (desc (changes update)) in
      mkReceiveLoop
        (match rl_changes s with
         | Some c => Some (compose c (changes update))
         | None => Some (changes update)
         end)
        (match effects update with
         | Some e => effs ++ e
         | None => effs
         end)
        (rl_own s)
  end.

Definition receive_loop (unconf : list LocalUpdate) (updates : list Update)
  : ReceiveLoop :=
  fold_left (receive_step unconf) updates (mkReceiveLoop None [] 0).

(** The callback of [unconfirmed.map]: it rebases one local update and
    moves the captured variable [changes] over it. *)
Definition rebase_local (cid : string) (chs : ChangeSet) (update : LocalUpdate)
  : ChangeSet * LocalUpdate :=
  let updateChanges := ChangeSet_map (l_changes update) (desc chs) false in
  let chs' := ChangeSet_map chs (desc (l_changes update)) true in
  (chs', mkLocalUpdate (origin update) updateChanges
           (mapEffects (l_effects update) (desc chs')) cid).

(** [unconfirmed.map(...)] with the captured [changes] threaded through. *)
Fixpoint rebase_locals (cid : string) (chs : ChangeSet) (unconf : list LocalUpdate)
  : ChangeSet * list LocalUpdate :=
  match unconf with
  | [] => (chs, [])
  | update :: rest =>
      let '(chs1, update') := rebase_local cid chs update in
      let '(chs2, rest') := rebase_locals cid chs1 rest in
      (chs2, update' :: rest')
  end.

(** [unconfirmed.reduce((ch, u) => ch.compose(u.changes),
    ChangeSet.empty(unconfirmed[0].changes.length))] *)
Definition composed_unconfirmed (first : LocalUpdate) (unconf : list LocalUpdate)
  : ChangeSet :=
  fold_left (fun ch u => compose ch (l_changes u)) unconf
    (ChangeSet_empty (ChangeDesc_length (desc (l_changes first)))).

(** The values of [version], [unconfirmed], [changes] and [effects] when
    [receiveUpdates] reaches its [return]s. *)
Record Received : Type := mkReceived {
  rc_version : nat;
  rc_unconfirmed : list LocalUpdate;
  rc_changes : option ChangeSet;
  rc_effects : list StateEffect
}.

Definition received (state : EditorState) (updates : list Update) : Received :=
  let unconf := unconfirmed (field_collab state) in
  let cid := cfg_clientID (facet_collabConfig state) in
  let vers := version (field_collab state) + List.length updates in
  let loop := receive_loop unconf updates in
  let unconf := if rl_own loop =? 0 then unconf
                else skipn (rl_own loop) unconf in
  match unconf with
  | [] => mkReceived vers unconf (rl_changes loop) (rl_effects loop)
  | _ :: _ =>
      let '(chs, unconf) :=
        match rl_changes loop with
        | Some c => let '(c', us) := rebase_locals cid c unconf in (Some c', us)
        | None => (None, unconf)
        end in
      let effs :=
        if nonempty (rl_effects loop) then
          match unconf with
          | first :: _ =>
              mapEffects (rl_effects loop)
                (desc (composed_unconfirmed first unconf))
          | [] => rl_effects loop
          end
        else rl_effects loop in
      mkReceived vers unconf chs effs
  end.

Definition receiveUpdates (state : EditorState) (updates : list Update)
  : TransactionSpec :=
  let r := received state updates in
  match rc_changes r with
  | None =>
      mkSpec None []
        [collabReceive (mkCollabState (rc_version r) (rc_unconfirmed r))]
        None
  | Some c =>
      mkSpec (Some c) (rc_effects r)
        [addToHistory false; remote true;
         collabReceive (mkCollabState (rc_version r) (rc_unconfirmed r))]
        (Some false)
  end.

(** *** Accessors *)

Definition sendableUpdates (state : EditorState) : list LocalUpdate :=
  unconfirmed (field_collab state).

Definition getSyncedVersion (state : EditorState) : nat :=
  version (field_collab state).

Definition getClientID (state : EditorState) : string :=
  cfg_clientID (facet_collabConfig state).

(** *** rebaseUpdates *)

(** An element of [over]: [{changes: ChangeDesc, clientID: string}]. *)
Record Accepted : Type := mkAccepted {
  a_changes : ChangeDesc;
  a_clientID : string
}.

(** An [Update] passed where [over] is expected. *)
Definition asAccepted (u : Update) : Accepted :=
  mkAccepted (desc (changes u)) (clientID u).

Record RebaseLoop : Type := mkRebaseLoop {
  rb_changes : option ChangeDesc;
  rb_skip : nat
}.

(** [other]: [skip < updates.length ? updates[skip] : null] *)
Definition other_at (updates : list Update) (skip : nat) : option Update :=
  if skip <? List.length updates then nth_error updates skip else None.

(** The test [other && other.clientID == update.clientID]. *)
Definition is_resubmitted (updates : list Update) (skip : nat) (update : Accepted)
  : option Update :=
  match other_at updates skip with
  | Some other => if (clientID other =? a_clientID update)%string
                  then Some other else None
  | None => None
  end.

(** One iteration of [for (let update of over)]. *)
Definition rebase_step (updates : list Update) (s : RebaseLoop) (update : Accepted)
  : RebaseLoop :=
  match is_resubmitted updates (rb_skip s) update with
  | Some other =>
      mkRebaseLoop
        (match rb_changes s with
         | Some c => Some (mapDesc c (desc (changes other)) true)
         | None => None
         end)
        (S (rb_skip s))
  | None =>
      mkRebaseLoop
        (match rb_changes s with
         | Some c => Some (composeDesc c (a_changes update))
         | None => Some (a_changes update)
         end)
        (rb_skip s)
  end.

Definition rebase_loop (updates : list Update) (over : list Accepted) : RebaseLoop :=
  fold_left (rebase_step updates) over (mkRebaseLoop None 0).

(** The callback of the final [updates.map]. *)
Definition rebase_update (chs : ChangeDesc) (update : Update) : ChangeDesc * Update :=
  let updateChanges := ChangeSet_map (changes update) chs false in
  let chs' := mapDesc chs (desc (changes update)) true in
  (chs', mkUpdate updateChanges
           (match effects update with
            | Some e => Some (mapEffects e chs')
            | None => None
            end)
           (clientID update)).

Fixpoint rebase_updates (chs : ChangeDesc) (updates : list Update)
  : ChangeDesc * list Update :=
  match updates with
  | [] => (chs, [])
  | update :: rest =>
      let '(chs1, update') := rebase_update chs update in
      let '(chs2, rest') := rebase_updates chs1 rest in
      (chs2, update' :: rest')
  end.

Definition rebaseUpdates (updates : list Update) (over : list Accepted)
  : list Update :=
  if negb (nonempty over) || negb (nonempty updates) then updates
  else
    let loop := rebase_loop updates over in
    let updates := if rb_skip loop =? 0 then updates
                   else skipn (rb_skip loop) updates in
    match rb_changes loop with
    | None => updates
    | Some c => snd (rebase_updates c updates)
    end.

End Collab.

(** ** The host's transaction pipeline

    [receiveUpdates] returns [state.update(spec)] and the callers read
    its [.state].  Both belong to @codemirror/state. *)

Section Host.
Context {L : StateLib}.

(** Modelled from the spec: [state.update(spec)] of the host, which the
    spec describes as producing one document mutation carrying the
    given change script, effects and annotations, or a metadata-only
    transition when the spec has no changes (the transaction then has
    the empty change set of the document's length). *)
Definition EditorState_update (state : EditorState) (spec : TransactionSpec)
  : Transaction :=
  mkTransaction
    (match spec_changes spec with
     | Some c => c
     | None => ChangeSet_empty (Text_length (doc state))
     end)
    (spec_effects spec) (spec_annotations spec).

(** Modelled from the spec: [tr.state] of the host, the start state with
    the transaction's changes applied to the document and the collab
    field replaced by what [collabField.update] returns. *)
Definition Transaction_state (state : EditorState) (tr : Transaction)
  : EditorState :=
  mkEditorState
    (apply (tr_changes tr) (doc state))
    (collabField_update (facet_collabConfig state) (field_collab state) tr)
    (facet_collabConfig state).

End Host.

(** ** The authority model of the rebasing test ([test] in the test file) *)

Section Authority.
Context {L : StateLib}.

(** [type Event]; a ["tr"] event carries the transaction its callback
    builds from the peer's state, whose [.state] becomes the new state. *)
Inductive Event : Type :=
| ev_send (id : string)
| ev_receive (id : string)
| ev_tr (id : string) (f : EditorState -> Transaction).

Definition event_id (e : Event) : string :=
  match e with ev_send id | ev_receive id | ev_tr id _ => id end.

(** The variables of [test]: the log [updates], [serverDoc], and the
    object [peers], whose keys are kept in insertion order. *)
Record Authority : Type := mkAuthority {
  updates : list Update;
  serverDoc : Text;
  peers : list (string * EditorState)
}.

(** [peers[id]] *)
Fixpoint peer (ps : list (string * EditorState)) (id : string)
  : option EditorState :=
  match ps with
  | [] => None
  | (k, s) :: r => if (k =? id)%string then Some s else peer r id
  end.

(** [peers[id] = s] *)
Fixpoint set_peer (ps : list (string * EditorState)) (id : string)
  (s : EditorState) : list (string * EditorState) :=
  match ps with
  | [] => [(id, s)]
  | (k, s0) :: r =>
      if (k =? id)%string then (k, s) :: r else (k, s0) :: set_peer r id s
  end.

(** [EditorState.create({doc: startDoc, extensions: [history(),
    collab({clientID: id, startVersion: 0})]})] *)
Definition create_peer (startDoc : Text) (id : string) : EditorState :=
  let cfg := mkCollabConfig 0 id (fun _ => []) in
  mkEditorState startDoc (collabField_create cfg) cfg.

(** The inner [send(id)]; it does nothing for an unknown peer. *)
Definition send (a : Authority) (id : string) : Authority :=
  match peer (peers a) id with
  | None => a
  | Some state =>
      let vers := getSyncedVersion state in
      let sendable := List.map asUpdate (sendableUpdates state) in
      let sendable :=
        if negb (vers =? List.length (updates a)) then
          rebaseUpdates sendable (List.map asAccepted (skipn vers (updates a)))
        else sendable in
      fold_left (fun a update =>
                   mkAuthority (updates a ++ [update])
                     (apply (changes update) (serverDoc a)) (peers a))
        sendable a
  end.

(** The inner [receive(id)]. *)
Definition receive (a : Authority) (id : string) : Authority :=
  match peer (peers a) id with
  | None => a
  | Some state =>
      let vers := getSyncedVersion state in
      if vers <? List.length (updates a) then
        let tr := EditorState_update state
                    (receiveUpdates state (skipn vers (updates a))) in
        mkAuthority (updates a) (serverDoc a)
          (set_peer (peers a) id (Transaction_state state tr))
      else a
  end.

(** The body of [for (let event of events)]. *)
Definition run_event (startDoc : Text) (a : Authority) (e : Event) : Authority :=
  let id := event_id e in
  let a := match peer (peers a) id with
           | Some _ => a
           | None => mkAuthority (updates a) (serverDoc a)
                       (set_peer (peers a) id (create_peer startDoc id))
           end in
  match e with
  | ev_send _ => send a id
  | ev_receive _ => receive a id
  | ev_tr _ f =>
      match peer (peers a) id with
      | Some state =>
          mkAuthority (updates a) (serverDoc a)
            (set_peer (peers a) id (Transaction_state state (f state)))
      | None => a
      end
  end.

(** The keys [for (let id in peers)] visits, in its order.  [peers] is
    made with [Object.create(null)], so the loop sees its own keys
    only: first the keys that are array indices, in ascending numeric
    order, then the other keys in the order in which they were added.
    An array index is the decimal numeral, without a leading zero, of a
    number below [2^32 - 1]. *)
Definition digit (c : ascii) : option N :=
  let n := N_of_ascii c in
  if ((48 <=? n) && (n <=? 57))%N then Some (n - 48)%N else None.

Fixpoint numeral (s : string) (acc : N) : option N :=
  match s with
  | EmptyString => Some acc
  | String c r =>
      match digit c with
      | Some d => numeral r (10 * acc + d)%N
      | None => None
      end
  end.

Definition array_index (key : string) : option N :=
  match key with
  | EmptyString => None
  | String "0" (String _ _) => None
  | _ =>
      match numeral key 0%N with
      | Some n => if (n <? 4294967295)%N then Some n else None
      | None => None
      end
  end.

Fixpoint insert_index (n : N) (key : string) (l : list (N * string))
  : list (N * string) :=
  match l with
  | [] => [(n, key)]
  | (m, k) :: r =>
      if (n <? m)%N then (n, key) :: l else (m, k) :: insert_index n key r
  end.

Definition index_keys (keys : list string) : list (N * string) :=
  fold_right (fun key sorted =>
                match array_index key with
                | Some n => insert_index n key sorted
                | None => sorted
                end)
    [] keys.

Definition for_in (ps : list (string * EditorState)) : list string :=
  let keys := List.map fst ps in
  List.map snd (index_keys keys) ++
  filter (fun key => match array_index key with
                     | None => true
                     | Some _ => false
                     end)
    keys.

(** [test] up to its assertions: run the events, let every peer send,
    then let every peer receive. *)
Definition run_test (startDoc : Text) (events : list Event) : Authority :=
  let a := fold_left (run_event startDoc) events (mkAuthority [] startDoc []) in
  let a := fold_left send (for_in (peers a)) a in
  fold_left receive (for_in (peers a)) a.

(** What makes a ["tr"] event a local edit of its peer: the transaction
    is not a received one and its changes fit the peer's document. *)
Definition local_edit (state : EditorState) (t : Transaction) : Prop :=
  annotation_collabReceive (tr_annotations t) = None /\
  ChangeDesc_length (desc (tr_changes t)) = Text_length (doc state).

(** Every ["tr"] event of the run is a local edit at the time it runs. *)
Fixpoint local_edits (startDoc : Text) (a : Authority) (events : list Event)
  : Prop :=
  match events with
  | [] => True
  | e :: rest =>
      match e with
      | ev_tr id f =>
          let state := match peer (peers a) id with
                       | Some s => s
                       | None => create_peer startDoc id
                       end in
          local_edit state (f state)
      | _ => True
      end /\ local_edits startDoc (run_event startDoc a e) rest
  end.

End Authority.

(** ** A text instance of the host interface

    Documents are strings.  A change set is a list of unit operations
    read from the start of the document: insert one character, keep one
    character, delete one character.  A change description is the same
    list without the inserted characters. *)

Module TextModel.

Inductive op (A : Type) : Type :=
| Ins (x : A)
| Keep
| Del.
Arguments Ins {A} x.
Arguments Keep {A}.
Arguments Del {A}.

Definition erase {A : Type} (o : op A) : op unit :=
  match o with
  | Ins _ => Ins tt
  | Keep => Keep
  | Del => Del
  end.

(** The number of document characters a change reads. *)
Fixpoint span {A : Type} (c : list (op A)) : nat :=
  match c with
  | [] => 0
  | Ins _ :: r => span r
  | _ :: r => S (span r)
  end.

(** The number of characters of the document a change produces. *)
Fixpoint grown {A : Type} (c : list (op A)) : nat :=
  match c with
  | [] => 0
  | Del :: r => grown r
  | _ :: r => S (grown r)
  end.

Definition is_keep {A : Type} (o : op A) : bool :=
  match o with Keep => true | _ => false end.

(** Modelled from the spec: [map(a, b, side)], which "rebases this script
    to apply after [b], with a tie-break [side] for co-located edits".
    Insertions of [b] become kept characters, characters [b] deletes
    drop out, and where both insert at the same place [a]'s text goes
    first when [before] is set and last otherwise. *)
Equations? mapOps {A B : Type} (a : list (op A)) (b : list (op B)) (before : bool)
  : list (op A) by wf (List.length a + List.length b) lt :=
  mapOps (Ins x :: a') (Ins y :: b') true := Ins x :: mapOps a' (Ins y :: b') true;
  mapOps a (Ins y :: b') before := Keep :: mapOps a b' before;
  mapOps (Ins x :: a') b before := Ins x :: mapOps a' b before;
  mapOps (Keep :: a') (Keep :: b') before := Keep :: mapOps a' b' before;
  mapOps (Keep :: a') (Del :: b') before := mapOps a' b' before;
  mapOps (Del :: a') (Keep :: b') before := Del :: mapOps a' b' before;
  mapOps (Del :: a') (Del :: b') before := mapOps a' b' before;
  mapOps _ _ _ := [].
Proof. all: simpl; lia. Qed.

(** Modelled from the spec: [compose(a, b)], the "sequential
    combination" of [a] and then [b]. *)
Equations? composeOps {A : Type} (a b : list (op A)) : list (op A)
  by wf (List.length a + List.length b) lt :=
  composeOps (Del :: a') b := Del :: composeOps a' b;
  composeOps a (Ins y :: b') := Ins y :: composeOps a b';
  composeOps (Ins x :: a') (Keep :: b') := Ins x :: composeOps a' b';
  composeOps (Ins x :: a') (Del :: b') := composeOps a' b';
  composeOps (Keep :: a') (Keep :: b') := Keep :: composeOps a' b';
  composeOps (Keep :: a') (Del :: b') := Del :: composeOps a' b';
  composeOps _ _ := [].
Proof. all: simpl; lia. Qed.

(** Modelled from the spec: applying a change script to a document. *)
Fixpoint applyOps (c : list (op ascii)) (d : string) : string :=
  match c with
  | [] => d
  | Ins x :: r => String x (applyOps r d)
  | Keep :: r =>
      match d with
      | String h t => String h (applyOps r t)
      | EmptyString => EmptyString
      end
  | Del :: r =>
      match d with
      | String _ t => applyOps r t
      | EmptyString => EmptyString
      end
  end.

(** A position of the old document moved through a change; [after] says
    on which side of an insertion at that position it ends up. *)
Fixpoint mapPos (c : list (op unit)) (pos : nat) (after : bool) : nat :=
  match c with
  | [] => pos
  | Ins _ :: r =>
      match pos with
      | 0 => if after then S (mapPos r pos after) else 0
      | _ => S (mapPos r pos after)
      end
  | Keep :: r =>
      match pos with
      | 0 => 0
      | S p => S (mapPos r p after)
      end
  | Del :: r =>
      match pos with
      | 0 => 0
      | S p => mapPos r p after
      end
  end.

(** A shared effect like the [Mark] of the package's tests: a range
    that disappears when mapping leaves it empty. *)
Record Mark : Type := mkMark { mark_from : nat; mark_to : nat }.

(** Modelled from the spec: [map(effect, script) -> effect | none]. *)
Definition Mark_map (m : Mark) (c : list (op unit)) : option Mark :=
  let from := mapPos c (mark_from m) true in
  let to := mapPos c (mark_to m) false in
  if to <=? from then None else Some (mkMark from to).

#[export] Instance text_lib : StateLib := {|
  Text := string;
  ChangeDesc := list (op unit);
  ChangeSet := list (op ascii);
  StateEffect := Mark;
  desc := List.map erase;
  ChangeDesc_length := span;
  ChangeDesc_empty := forallb is_keep;
  composeDesc := composeOps;
  mapDesc := mapOps;
  compose := composeOps;
  ChangeSet_map := mapOps;
  ChangeSet_empty := fun n => repeat Keep n;
  apply := applyOps;
  Text_length := String.length;
  StateEffect_map := Mark_map
|}.

(** The change of [{from, to, insert}] on a document of length [len]. *)
Definition replace_range (len from to : nat) (insert : string) : list (op ascii) :=
  repeat Keep from
    ++ List.map Ins (list_ascii_of_string insert)
    ++ repeat Del (to - from)
    ++ repeat Keep (len - Nat.max from to).

(** [type(id, text, at, to)] of the test file; [at] defaults to the end
    of the document and [to] to [at]. *)
Definition type (id : string) (text : string) (at_ to : option nat) : Event :=
  ev_tr id (fun state =>
    let len := String.length (doc state) in
    let from := match at_ with Some n => n | None => len end in
    let to := match to with Some n => n | None => from end in
    mkTransaction (replace_range len from to text) [] []).

End TextModel.

(** ** Vocabulary of the properties *)

Unset Implicit Arguments.

Section Vocabulary.
Context {L : StateLib}.

(** A change set moved over a sequence of local changes, the earlier
    ones first: [changes.map(v.changes, true)] for each [v] in turn. *)
Definition moved_over (chs : ChangeSet) (locals : list ChangeSet) : ChangeSet :=
  fold_left (fun c v => ChangeSet_map c (desc v) true) locals chs.

(** The same for a change description: [changes.mapDesc(v.changes, true)]. *)
Definition movedDesc_over (chs : ChangeDesc) (locals : list ChangeSet)
  : ChangeDesc :=
  fold_left (fun c v => mapDesc c (desc v) true) locals chs.

(** A local update of the output queue that stands for the local update
    [inp] of the input queue: the same one, or [inp] rebased. *)
Definition local_stands_for (cid : string) (out inp : LocalUpdate) : Prop :=
  origin out = origin inp /\
  (out = inp \/ exists chs, out = snd (rebase_local cid chs inp)).

(** An update of the returned array that stands for the update [inp] of
    the submitted array. *)
Definition update_stands_for (out inp : Update) : Prop :=
  clientID out = clientID inp /\
  (out = inp \/ exists chs, out = snd (rebase_update chs inp)).

End Vocabulary.

(** ** What convergence asks of the host's change sets *)

Section Laws.
Context {L : StateLib}.

(** A change set fits a document when it was made for that length;
    the host raises an error when asked to apply one that does not. *)
Definition fits (c : ChangeSet) (d : Text) : Prop :=
  ChangeDesc_length (desc c) = Text_length d.

(** The contract of the change sets, for change sets that fit. *)
Class StateLaws : Prop := {
  (** the description of a mapped or composed change set is the mapped
      or composed description *)
  desc_map : forall a b side,
    desc (ChangeSet_map a b side) = mapDesc (desc a) b side;
  desc_compose : forall a b,
    desc (compose a b) = composeDesc (desc a) (desc b);
  (** [compose] is sequential combination *)
  compose_apply : forall a b d,
    fits a d -> fits b (apply a d) ->
    fits (compose a b) d /\ apply (compose a b) d = apply b (apply a d);
  (** two change sets made for the same document can be applied in
      either order once each is mapped over the other with opposite
      sides *)
  map_apply : forall a b d,
    fits a d -> fits b d ->
    fits (ChangeSet_map a (desc b) false) (apply b d) /\
    fits (ChangeSet_map b (desc a) true) (apply a d) /\
    apply (ChangeSet_map a (desc b) false) (apply b d) =
      apply (ChangeSet_map b (desc a) true) (apply a d);
  (** a change set without changes leaves the document as it is *)
  empty_apply : forall c d,
    fits c d -> ChangeDesc_empty (desc c) = true -> apply c d = d;
  emptySet_apply : forall d,
    apply (ChangeSet_empty (Text_length d)) d = d
}.

(** The document after a sequence of change sets. *)
Definition apply_all (cs : list ChangeSet) (d : Text) : Text :=
  fold_left (fun d c => apply c d) cs d.

(** Every change set of the sequence fits the document it meets. *)
Fixpoint all_fit (cs : list ChangeSet) (d : Text) : Prop :=
  match cs with
  | [] => True
  | c :: r => fits c d /\ all_fit r (apply c d)
  end.

(** The changes the authority holds for the local update [ours] once
    the foreign changes [chs] went in before it. *)
Definition rebased_by (chs : option ChangeSet) (ours : LocalUpdate) : ChangeSet :=
  match chs with
  | None => l_changes ours
  | Some c => ChangeSet_map (l_changes ours) (desc c) false
  end.

(** The part of the log a peer has not received yet agrees with its
    unconfirmed queue: read with the loop of [receiveUpdates] from the
    state [s], every update of the peer meets an unconfirmed update
    under the cursor and holds that update's changes, rebased over the
    foreign changes collected so far. *)
Fixpoint tail_agrees (id : string) (unconf : list LocalUpdate) (s : ReceiveLoop)
  (tail : list Update) : Prop :=
  match tail with
  | [] => True
  | u :: rest =>
      (clientID u = id ->
       exists ours, nth_error unconf (rl_own s) = Some ours /\
                    changes u = rebased_by (rl_changes s) ours) /\
      tail_agrees id unconf (receive_step unconf s u) rest
  end.

(** What holds of a peer between the events of a run. *)
Record peer_inv (startDoc : Text) (log : list Update) (id : string)
  (state : EditorState) : Prop := {
  inv_config : facet_collabConfig state = mkCollabConfig 0 id (fun _ => []);
  inv_version : version (field_collab state) <= List.length log;
  inv_ids : Forall (fun u => l_clientID u = id) (unconfirmed (field_collab state));
  inv_fit :
    all_fit (List.map l_changes (unconfirmed (field_collab state)))
      (apply_all (List.map changes (firstn (version (field_collab state)) log))
         startDoc);
  inv_doc :
    doc state =
    apply_all (List.map l_changes (unconfirmed (field_collab state)))
      (apply_all (List.map changes (firstn (version (field_collab state)) log))
         startDoc);
  inv_tail :
    tail_agrees id (unconfirmed (field_collab state)) (mkReceiveLoop None [] 0)
      (skipn (version (field_collab state)) log)
}.

(** What holds of the authority and its peers between the events. *)
Record authority_inv (startDoc : Text) (a : Authority) : Prop := {
  inv_server : serverDoc a = apply_all (List.map changes (updates a)) startDoc;
  inv_log : all_fit (List.map changes (updates a)) startDoc;
  inv_known : Forall (fun u => peer (peers a) (clientID u) <> None) (updates a);
  inv_peers : forall id state,
    peer (peers a) id = Some state -> peer_inv startDoc (updates a) id state
}.

(** A peer has nothing left to send: the log holds all of its
    unconfirmed updates. *)
Definition all_sent (log : list Update) (state : EditorState) : Prop :=
  rl_own (receive_loop (unconfirmed (field_collab state))
            (skipn (version (field_collab state)) log)) =
  List.length (unconfirmed (field_collab state)).

(** A peer has received the whole log and has no update of its own
    under way. *)
Definition in_sync (a : Authority) (state : EditorState) : Prop :=
  version (field_collab state) = List.length (updates a) /\
  unconfirmed (field_collab state) = [].

(** The document a peer had before its local update number [k]. *)
Definition before_local (unconf : list LocalUpdate) (base : Text) (k : nat) : Text :=
  apply_all (List.map l_changes (firstn k unconf)) base.

(** The loop state [s] describes the authority's document [server]:
    it is the peer's document before the local update under the
    cursor, with the collected foreign changes applied. *)
Definition loop_describes (unconf : list LocalUpdate) (base : Text)
  (s : ReceiveLoop) (server : Text) : Prop :=
  rl_own s <= List.length unconf /\
  match rl_changes s with
  | None => server = before_local unconf base (rl_own s)
  | Some c => fits c (before_local unconf base (rl_own s)) /\
              server = apply c (before_local unconf base (rl_own s))
  end.

(** What a peer sends for the queue [rest] it has left when the foreign
    changes [c] have been collected. *)
Definition sent_for (c : option ChangeSet) (rest : list LocalUpdate)
  : list Update :=
  match c with
  | None => List.map asUpdate rest
  | Some c => snd (rebase_updates (desc c) (List.map asUpdate rest))
  end.

(** What the inner [send] appends to the log. *)
Definition sent_by (log : list Update) (state : EditorState) : list Update :=
  let unconf := unconfirmed (field_collab state) in
  let loop := receive_loop unconf (skipn (version (field_collab state)) log) in
  sent_for (rl_changes loop) (skipn (rl_own loop) unconf).

(** The editor state after the transaction of [receiveUpdates]. *)
Definition after_receive (state : EditorState) (tail : list Update) : EditorState :=
  Transaction_state state (EditorState_update state (receiveUpdates state tail)).

End Laws.

(** ** Concrete runs in the text instance *)

Module Examples.
Import TextModel.

(** The documents at the end of a run: the authority's and each peer's. *)
Definition end_docs (a : Authority) : string * list (string * string) :=
  (serverDoc a, List.map (fun p => (fst p, doc (snd p))) (peers a)).

(** ["works for simple cases"] of the rebasing test. *)
Definition simple_case : list Event :=
  [type "a" "a" (Some 0) None; type "b" "e" (Some 3) None; ev_send "a"].

(** ["works for multiple rebased changes"] *)
Definition multiple_rebased : list Event :=
  [type "a" "d" (Some 3) None; type "a" "e" (Some 4) None;
   type "b" "0" (Some 0) None; ev_send "b"; ev_send "a"].

(** ["works for multiple peer changes"] *)
Definition multiple_peer_changes : list Event :=
  [type "a" "d" (Some 3) None; type "a" "e" (Some 4) None;
   type "b" "0" (Some 0) None; type "b" "1" (Some 1) None;
   ev_send "b"; ev_send "a"].

(** ["works with local unconfirmed changes"] *)
Definition local_unconfirmed : list Event :=
  [type "a" "y" None None; type "b" "0" (Some 0) None; ev_send "b";
   ev_send "a"; type "a" "z" None None; ev_receive "a"].

(** ["works with multiple local unconfirmed changes"] *)
Definition multiple_local_unconfirmed : list Event :=
  [type "a" "y" None None; type "b" "0" (Some 1) None;
   type "b" "1" (Some 2) None; ev_send "b"; ev_send "a";
   type "a" "z" None None; type "a" "!" (Some 0) None; ev_receive "a"].

(** ["works with local changes sandwiched between peer changes"] *)
Definition sandwiched : list Event :=
  [type "a" "X" None None; type "a" "Y" None None;
   type "b" "U" (Some 0) None; type "b" "V" (Some 1) None;
   ev_send "b"; ev_send "a"; ev_receive "b";
   type "b" "W" (Some 2) None; type "b" "!" (Some 6) None; ev_send "b";
   type "a" "Z" None None; ev_receive "a"].

(** ["works when multiple sets of local changes are in-flight"] *)
Definition in_flight : list Event :=
  [type "a" "X" (Some 1) None; type "a" "Y" (Some 2) None;
   type "b" "A" (Some 0) None; type "b" "B" (Some 1) None;
   ev_send "a"; ev_send "b"; ev_receive "b";
   type "a" "Z" (Some 4) None; type "a" "." (Some 5) None; ev_send "a";
   ev_receive "b"; type "b" "?" None None; ev_send "b"].

(** ["can handle two changesets from the same client on top of each
    other"] *)
Definition on_top_of_each_other : list Event :=
  [type "b" "x" (Some 3) None; ev_send "b";
   type "a" "yyy" (Some 1) (Some 3); ev_send "a"; type "a" "?" (Some 2) None].

(** Client [a] has typed ["y"] at the start of ["ab"]. *)
Definition typed_y : Transaction :=
  mkTransaction [Ins "y"%char; Keep; Keep] [] [].

Definition ours_y : LocalUpdate :=
  mkLocalUpdate typed_y [Ins "y"%char; Keep; Keep] [] "a".

Definition state_y : EditorState :=
  mkEditorState "yab" (mkCollabState 0 [ours_y])
    (mkCollabConfig 0 "a" (fun _ => [])).

(** Client [b] has put ["x"] between ["a"] and ["b"], and the authority
    accepted that first. *)
Definition foreign_x : Update :=
  mkUpdate [Keep; Ins "x"%char; Keep] (Some []) "b".

(** The update of [a] as the authority holds it after [foreign_x]. *)
Definition echo_y : Update :=
  mkUpdate [Ins "y"%char; Keep; Keep; Keep] (Some []) "a".

(** Client [a] has typed ["y"] before the last character of ["abcd"]. *)
Definition typed_late : Transaction :=
  mkTransaction [Keep; Keep; Keep; Ins "y"%char; Keep] [] [].

Definition ours_late : LocalUpdate :=
  mkLocalUpdate typed_late [Keep; Keep; Keep; Ins "y"%char; Keep] [] "a".

(** Client [b] has removed ["ab"] from ["abcd"] and put ["xx"] at the
    end, and the authority accepted that first. *)
Definition foreign_shift : Update :=
  mkUpdate [Del; Del; Keep; Keep; Ins "x"%char; Ins "x"%char] (Some []) "b".

(** The update of [a] as the authority holds it after [foreign_shift]. *)
Definition echo_late : Update :=
  mkUpdate [Keep; Ins "y"%char; Keep; Keep; Keep] (Some []) "a".

(** Client [a] has typed ["y"] at the start of ["ab"] and marked the
    ["a"], which is now at 1 to 2. *)
Definition marked_y : LocalUpdate :=
  mkLocalUpdate typed_y [Ins "y"%char; Keep; Keep] [mkMark 1 2] "a".

Definition state_marked : EditorState :=
  mkEditorState "yab" (mkCollabState 0 [marked_y])
    (mkCollabConfig 0 "a" (fun _ => [])).



(** Client [b] has deleted the ["n"] and then typed ["z"] at the end. *)
Definition foreign_cut : Update :=
  mkUpdate [Keep; Del] (Some []) "b".

Definition foreign_z : Update :=
  mkUpdate [Keep; Ins "z"%char] (Some []) "b".


Definition ours_z : LocalUpdate :=
  mkLocalUpdate (mkTransaction [Keep; Ins "z"%char] [] [])
    [Keep; Ins "z"%char] [] "b".


(** Client [b] has put ["x"] between ["a"] and ["b"] and marked it, and
    the authority accepted that first. *)
Definition foreign_marked : Update :=
  mkUpdate [Keep; Ins "x"%char; Keep] (Some [mkMark 1 2]) "b".

End Examples.

(** ** Vocabulary of the further properties *)

Section Batches.
Context {L : StateLib}.

(** How many entries of a batch carry the client id [id]. *)
Definition count_id (id : string) (ids : list string) : nat :=
  count_occ string_dec ids id.

(** What the loop of [mapEffects] pushes for one effect. *)
Definition mapped_effect (mapping : ChangeDesc) (e : StateEffect)
  : list StateEffect :=
  match StateEffect_map e mapping with
  | Some mapped => [mapped]
  | None => []
  end.

(** The effects an update adds to the collected ones:
    [if (update.effects) effects = effects.concat(update.effects)]. *)
Definition effects_of (u : Update) : list StateEffect :=
  match effects u with
  | Some e => e
  | None => []
  end.

(** Effects mapped over the changes of the updates that follow them. *)
Definition mapped_through (effs : list StateEffect) (later : list Update)
  : list StateEffect :=
  fold_left (fun e u => mapEffects e (desc (changes u))) later effs.

(** The effects of a batch, each update's mapped through the updates
    after it. *)
Fixpoint effects_through (batch : list Update) : list StateEffect :=
  match batch with
  | [] => []
  | u :: later => mapped_through (effects_of u) later ++ effects_through later
  end.

(** The change sets of a batch composed in order, as the foreign branch
    of the loop of [receiveUpdates] collects them. *)
Definition composed (first : Update) (later : list Update) : ChangeSet :=
  fold_left (fun c u => compose c (changes u)) later (changes first).

End Batches.

(** ** Vocabulary for the authority of the rebasing test *)

Section LogVocabulary.
Context {L : StateLib}.

(** What a step does to the log and the server document: it appends
    [out] and applies the change sets of [out]. *)
Definition appends (a a' : Authority) (out : list Update) : Prop :=
  updates a' = updates a ++ out /\
  serverDoc a' = apply_all (List.map changes out) (serverDoc a).

(** The server document is the log applied to the start document. *)
Definition follows_log (startDoc : Text) (a : Authority) : Prop :=
  serverDoc a = apply_all (List.map changes (updates a)) startDoc.

End LogVocabulary.

(** ** The authority of the convergence test ([class DummyServer]) *)

Module Dummy.
Section Server.
Context {L : StateLib}.

(** The fields of [DummyServer]: the editor states of the clients, the
    log, and the clients whose broadcasts are held back. *)
Record DummyServer : Type := mkDummyServer {
  states : list EditorState;
  updates : list Update;
  delayed : list nat
}.

(** The constructor: one editor state per client, all on [doc].  Each
    [collab(collabConf)] call draws its own generated id, so the
    combined configurations of the clients are given one by one. *)
Definition create (doc : Text) (configs : list CollabConfig) : DummyServer :=
  mkDummyServer
    (List.map (fun cfg => mkEditorState doc (collabField_create cfg) cfg)
       configs)
    [] [].

(** [this.states[client] = state], for a [client] that was read from
    the array just before. *)
Fixpoint set_state (l : list EditorState) (client : nat) (state : EditorState)
  : list EditorState :=
  match l, client with
  | [], _ => []
  | _ :: r, 0 => state :: r
  | s :: r, S n => s :: set_state r n state
  end.

(** [sync(client)]; reading the version of a client that does not
    exist raises an error, here [None]. *)
Definition sync (s : DummyServer) (client : nat) : option DummyServer :=
  match nth_error (states s) client with
  | None => None
  | Some state =>
      let vers := getSyncedVersion state in
      if negb (vers =? List.length (updates s)) then
        let tr := EditorState_update state
                    (receiveUpdates state (skipn vers (updates s))) in
        Some (mkDummyServer
                (set_state (states s) client (Transaction_state state tr))
                (updates s) (delayed s))
      else Some s
  end.

(** [send(client)] *)
Definition send (s : DummyServer) (client : nat) : option DummyServer :=
  match nth_error (states s) client with
  | None => None
  | Some state =>
      let sendable := sendableUpdates state in
      if nonempty sendable then
        Some (mkDummyServer (states s)
                (updates s ++ List.map asUpdate sendable) (delayed s))
      else Some s
  end.

(** The body of the loop of [broadcast], [if (i != client) this.sync(i)],
    for the indices [js] in turn. *)
Definition sync_each (client : nat) (js : list nat) (s : DummyServer)
  : option DummyServer :=
  fold_left (fun acc i =>
               match acc with
               | Some s => if negb (i =? client) then sync s i else Some s
               | None => None
               end) js (Some s).

(** [for (let i = 0; i < this.states.length; i++) if (i != client)
    this.sync(i)] *)
Definition sync_others (s : DummyServer) (client : nat) : option DummyServer :=
  sync_each client (seq 0 (List.length (states s))) s.

(** [broadcast(client)] *)
Definition broadcast (s : DummyServer) (client : nat) : option DummyServer :=
  if existsb (Nat.eqb client) (delayed s) then Some s
  else
    match sync s client with
    | None => None
    | Some s =>
        match send s client with
        | None => None
        | Some s => sync_others s client
        end
    end.

(** [update(client, f)], for a client of the server (for another index
    [f] is handed [undefined], here an error). *)
Definition update (s : DummyServer) (client : nat)
  (f : EditorState -> Transaction) : option DummyServer :=
  match nth_error (states s) client with
  | None => None
  | Some state =>
      broadcast
        (mkDummyServer
           (set_state (states s) client (Transaction_state state (f state)))
           (updates s) (delayed s))
        client
  end.

(** [delay(client, f)]; the callback [f] works on the server. *)
Definition delay (s : DummyServer) (client : nat)
  (f : DummyServer -> option DummyServer) : option DummyServer :=
  match f (mkDummyServer (states s) (updates s) (delayed s ++ [client])) with
  | None => None
  | Some s =>
      broadcast
        (mkDummyServer (states s) (updates s) (removelast (delayed s)))
        client
  end.

(** What a test does with the server: calls of [update] and of [delay],
    whose callback makes further calls. *)
#[warnings="-register-all"] Inductive Call : Type :=
| call_update (client : nat) (f : EditorState -> Transaction)
| call_delay (client : nat) (body : list Call).

Fixpoint run (c : Call) (s : DummyServer) : option DummyServer :=
  match c with
  | call_update client f => update s client f
  | call_delay client body =>
      delay s client
        (fun s => fold_left (fun acc c =>
                               match acc with
                               | Some s => run c s
                               | None => None
                               end) body (Some s))
  end.

Definition run_all (calls : list Call) (s : DummyServer) : option DummyServer :=
  fold_left (fun acc c =>
               match acc with
               | Some s => run c s
               | None => None
               end) calls (Some s).

(** Every [update] call names a client of the server and makes a local
    edit of that client's state at the time it runs; every [delay]
    call names a client of the server. *)
Fixpoint edits_fit (c : Call) (s : DummyServer) : Prop :=
  match c with
  | call_update client f =>
      match nth_error (states s) client with
      | Some state => local_edit state (f state)
      | None => False
      end
  | call_delay client body =>
      client < List.length (states s) /\
      (fix all_fit_in (body : list Call) (s : DummyServer) : Prop :=
         match body with
         | [] => True
         | c :: rest =>
             edits_fit c s /\
             match run c s with
             | Some s => all_fit_in rest s
             | None => True
             end
         end) body
        (mkDummyServer (states s) (updates s) (delayed s ++ [client]))
  end.

Fixpoint all_edits_fit (calls : list Call) (s : DummyServer) : Prop :=
  match calls with
  | [] => True
  | c :: rest =>
      edits_fit c s /\
      match run c s with
      | Some s => all_edits_fit rest s
      | None => True
      end
  end.

(** The configuration of a client of the test that converges: log
    version 0, its own id, no shared effects. *)
Definition client_config (id : string) : CollabConfig :=
  mkCollabConfig 0 id (fun _ => []).

(** What holds of the server between calls: the log applies to the
    start document and every client keeps the invariant of a peer. *)
Definition clients_inv (startDoc : Text) (ids : list string) (s : DummyServer)
  : Prop :=
  all_fit (List.map changes (updates s)) startDoc /\
  List.length (states s) = List.length ids /\
  forall i id state,
    nth_error ids i = Some id -> nth_error (states s) i = Some state ->
    peer_inv startDoc (updates s) id state.

(** Every client outside [held] has all its updates in the log. *)
Definition sent_except (held : nat -> Prop) (s : DummyServer) : Prop :=
  forall i state, nth_error (states s) i = Some state -> ~ held i ->
    all_sent (updates s) state.

(** A client has the whole log: what it has not received is what it
    sent itself. *)
Definition caught_up (log : list Update) (state : EditorState) : Prop :=
  skipn (version (field_collab state)) log =
  List.map asUpdate (unconfirmed (field_collab state)).

(** The state that [sync] leaves for a client. *)
Definition synced_state (log : list Update) (state : EditorState) : EditorState :=
  if negb (getSyncedVersion state =? List.length log)
  then after_receive state (skipn (getSyncedVersion state) log)
  else state.

(** What [conv] checks, for the document the log gives. *)
Definition converged (startDoc : Text) (s : DummyServer) : Prop :=
  Forall (fun state =>
            doc state = apply_all (List.map changes (updates s)) startDoc)
    (states s).

(** A call went well: it raised no error, kept what holds of the
    server, left [delayed] as it found it, and, made while no client
    was held back, left every client with the document of the log. *)
Definition went_well (startDoc : Text) (ids : list string) (s : DummyServer)
  (r : option DummyServer) : Prop :=
  exists s',
    r = Some s' /\
    clients_inv startDoc ids s' /\
    delayed s' = delayed s /\
    sent_except (fun j => In j (delayed s')) s' /\
    (delayed s = [] -> converged startDoc s').

(** The same for a sequence of calls, which may be empty. *)
Definition all_went_well (startDoc : Text) (ids : list string) (s : DummyServer)
  (r : option DummyServer) : Prop :=
  exists s',
    r = Some s' /\
    clients_inv startDoc ids s' /\
    delayed s' = delayed s /\
    sent_except (fun j => In j (delayed s')) s' /\
    (delayed s = [] -> converged startDoc s -> converged startDoc s').

End Server.
End Dummy.

(** ** The first version of collab.ts

    Before updates carried a [clientID], [receiveUpdates] was told how
    many of the received updates were the client's own. *)

Module Legacy.
Section Old.
Context {L : StateLib}.

(** [interface Update] *)
Record Update : Type := mkUpdate {
  changes : ChangeSet;
  effects : option (list StateEffect)
}.

(** [Transaction], its annotations, [class CollabState] and
    [class LocalUpdate]. *)
Inductive Transaction : Type :=
| mkTransaction (tr_changes : ChangeSet) (tr_effects : list StateEffect)
                (tr_annotations : list Annotation)
with Annotation : Type :=
| addToHistory (b : bool)
| collabReceive (value : CollabState)
| filterChanges (b : bool)
with CollabState : Type :=
| mkCollabState (version : nat) (unconfirmed : list LocalUpdate)
with LocalUpdate : Type :=
| mkLocalUpdate (origin : Transaction) (l_changes : ChangeSet)
                (l_effects : list StateEffect).

Definition version (c : CollabState) : nat :=
  let 'mkCollabState v _ := c in v.
Definition unconfirmed (c : CollabState) : list LocalUpdate :=
  let 'mkCollabState _ u := c in u.

Definition origin (u : LocalUpdate) : Transaction :=
  let 'mkLocalUpdate o _ _ := u in o.
Definition l_changes (u : LocalUpdate) : ChangeSet :=
  let 'mkLocalUpdate _ c _ := u in c.
Definition l_effects (u : LocalUpdate) : list StateEffect :=
  let 'mkLocalUpdate _ _ e := u in e.

(** An [EditorState]: its document and the value of [collabField]. *)
Record EditorState : Type := mkEditorState {
  doc : Text;
  field_collab : CollabState
}.

(** The argument of [state.tr(...)]. *)
Record TransactionSpec : Type := mkSpec {
  spec_changes : option ChangeSet;
  spec_effects : list StateEffect;
  spec_annotations : list Annotation
}.

(** [tr.annotation(collabReceive)] *)
Fixpoint annotation_collabReceive (l : list Annotation) : option CollabState :=
  match l with
  | [] => None
  | collabReceive c :: _ => Some c
  | _ :: r => annotation_collabReceive r
  end.

(** One iteration of [for (let i = 1; i < updates.length; i++)]. *)
Definition receive_step (s : ChangeSet * list StateEffect) (update : Update)
  : ChangeSet * list StateEffect :=
  let effs := mapEffects (snd s) (desc (changes update)) in
  let effs := match effects update with
              | Some e => effs ++ e
              | None => effs
              end in
  (compose (fst s) (changes update), effs).

(** One iteration of [for (let update of unconfirmed)]. *)
Definition rebase_local (chs : ChangeSet) (update : LocalUpdate)
  : ChangeSet * LocalUpdate :=
  let updateChanges := ChangeSet_map (l_changes update) (desc chs) false in
  let chs' := ChangeSet_map chs (desc (l_changes update)) true in
  (chs', mkLocalUpdate (origin update) updateChanges
           (mapEffects (l_effects update) (desc chs'))).

Fixpoint rebase_locals (chs : ChangeSet) (unconf : list LocalUpdate)
  : ChangeSet * list LocalUpdate :=
  match unconf with
  | [] => (chs, [])
  | update :: rest =>
      let '(chs1, update') := rebase_local chs update in
      let '(chs2, rest') := rebase_locals chs1 rest in
      (chs2, update' :: rest')
  end.

(** [receiveUpdates(state, updates, ownUpdateCount)] *)
Definition receiveUpdates (state : EditorState) (updates : list Update)
  (ownUpdateCount : nat) : TransactionSpec :=
  let collabState := field_collab state in
  let vers := version collabState + List.length updates in
  let unconf := skipn ownUpdateCount (unconfirmed collabState) in
  let updates := if ownUpdateCount =? 0 then updates
                 else skipn ownUpdateCount updates in
  match updates with
  | [] => mkSpec None [] [collabReceive (mkCollabState vers unconf)]
  | first :: later =>
      let loop :=
        fold_left receive_step later
          (changes first,
           match effects first with Some e => e | None => [] end) in
      let '(chs, unconf, effs) :=
        match unconf with
        | [] => (fst loop, unconf, snd loop)
        | _ :: _ =>
            let '(chs, newUnconfirmed) := rebase_locals (fst loop) unconf in
            let effs :=
              if nonempty (snd loop) then
                match newUnconfirmed with
                | u0 :: _ =>
                    mapEffects (snd loop)
                      (desc (fold_left (fun ch u => compose ch (l_changes u))
                               newUnconfirmed
                               (ChangeSet_empty
                                  (ChangeDesc_length (desc (l_changes u0))))))
                | [] => snd loop
                end
              else snd loop in
            (chs, newUnconfirmed, effs)
        end in
      mkSpec (Some chs) effs
        [addToHistory false; collabReceive (mkCollabState vers unconf);
         filterChanges false]
  end.

End Old.
End Legacy.

(** ** Comparing the two versions *)

Section Versions.
Context {L : StateLib}.

(** An update of the current version as the first version saw it. *)
Definition without_id (u : Update) : Legacy.Update :=
  Legacy.mkUpdate (changes u) (effects u).

(** A local update of the first version and one of the current version
    with the same changes and effects. *)
Definition same_local (old : Legacy.LocalUpdate) (new : LocalUpdate) : Prop :=
  Legacy.l_changes old = l_changes new /\
  Legacy.l_effects old = l_effects new.

(** Collab states of the two versions that hold the same. *)
Definition same_collab (old : Legacy.CollabState) (new : CollabState) : Prop :=
  Legacy.version old = version new /\
  Forall2 same_local (Legacy.unconfirmed old) (unconfirmed new).

End Versions.

(** ** More concrete inputs in the text instance *)

Module MoreExamples.
Import TextModel Examples.

(** A client on ["ab"] with nothing to send. *)
Definition state_idle : EditorState :=
  mkEditorState "ab" (mkCollabState 0 []) (mkCollabConfig 0 "a" (fun _ => [])).

(** Client [b] has put ["z"] at the end of ["axb"], with a mark on the
    ["x"]. *)
Definition foreign_end : Update :=
  mkUpdate [Keep; Keep; Keep; Ins "z"%char] (Some [mkMark 1 2]) "b".

(** Client [a] has typed ["y"] at the start of ["ab"] and then ["z"] at
    the end of ["yab"]. *)
Definition ours_z : LocalUpdate :=
  mkLocalUpdate (mkTransaction [Keep; Keep; Keep; Ins "z"%char] [] [])
    [Keep; Keep; Keep; Ins "z"%char] [] "a".

Definition state_yz : EditorState :=
  mkEditorState "yabz" (mkCollabState 0 [ours_y; ours_z])
    (mkCollabConfig 0 "a" (fun _ => [])).

(** The first update of [a] as the authority took it, and an update of
    [b] made on top of it. *)
Definition accepted_y : Update :=
  mkUpdate [Ins "y"%char; Keep; Keep] (Some []) "a".

Definition foreign_on_y : Update :=
  mkUpdate [Keep; Ins "x"%char; Keep; Keep] (Some []) "b".

(** The same client in the first version of collab.ts. *)
Definition old_yz : Legacy.EditorState :=
  Legacy.mkEditorState "yabz"
    (Legacy.mkCollabState 0
       [Legacy.mkLocalUpdate
          (Legacy.mkTransaction [Ins "y"%char; Keep; Keep] [] [])
          [Ins "y"%char; Keep; Keep] [];
        Legacy.mkLocalUpdate
          (Legacy.mkTransaction [Keep; Keep; Keep; Ins "z"%char] [] [])
          [Keep; Keep; Keep; Ins "z"%char] []]).

(** [type(client, text, pos)] of the convergence test, with the
    position written out: where the test leaves it out, it is the
    place of the client's cursor.  The selection that [type] sets as
    well is not part of the modelled state. *)
Definition type_at (client : nat) (text : string) (pos : nat) : Dummy.Call :=
  Dummy.call_update client (fun state =>
    mkTransaction
      (replace_range (String.length (doc state)) pos pos text) [] []).

(** [new DummyServer] with two and with three clients. *)
Definition two_clients : Dummy.DummyServer :=
  Dummy.create "" (List.map Dummy.client_config ["a"; "b"]).

Definition three_clients : Dummy.DummyServer :=
  Dummy.create "" (List.map Dummy.client_config ["a"; "b"; "c"]).

(** ["converges for simple changes"] *)
Definition simple_changes : list Dummy.Call :=
  [type_at 0 "hi" 0; type_at 1 "ok" 2; type_at 0 "!" 4; type_at 1 "..." 0].

(** ["converges for multiple local changes"] *)
Definition multiple_local_changes : list Dummy.Call :=
  [type_at 0 "hi" 0;
   Dummy.call_delay 0
     [type_at 0 "A" 2; type_at 1 "X" 2; type_at 0 "B" 4; type_at 1 "Y" 3]].

(** ["converges with three peers"] *)
Definition three_peers : list Dummy.Call :=
  [type_at 0 "A" 0; type_at 1 "U" 0; type_at 2 "X" 0;
   type_at 0 "B" 3; type_at 1 "V" 2; type_at 2 "Y" 1].

(** ["converges with three peers with multiple steps"] *)
Definition three_peers_steps : list Dummy.Call :=
  [type_at 0 "A" 0;
   Dummy.call_delay 1
     [type_at 1 "U" 0; type_at 2 "X" 0; type_at 0 "B" 2;
      type_at 1 "V" 2; type_at 2 "Y" 1]].

(** The documents of the clients after a run. *)
Definition client_docs (r : option Dummy.DummyServer) : option (list string) :=
  option_map (fun s => List.map doc (Dummy.states s)) r.

End MoreExamples.

(** * Properties *)

(** ** The two loops and the empty batches *)

Section CollabFacts.
Context {L : StateLib}.

Lemma CollabState_eta (c : CollabState) :
  mkCollabState (version c) (unconfirmed c) = c.
Proof. destruct c; reflexivity. Qed.

(** The condition of the own-echo branch, spelled out. *)
Lemma is_own_iff unconf own update ours :
  is_own unconf own update = Some ours <->
  own < List.length unconf /\ nth_error unconf own = Some ours /\
  l_clientID ours = clientID update.
Proof.
  unfold is_own, ours_at.
  destruct (own <? List.length unconf) eqn:Hlt.
  - apply Nat.ltb_lt in Hlt.
    destruct (nth_error unconf own) as [o|] eqn:Hn.
    + destruct (String.eqb_spec (l_clientID o) (clientID update)) as [He|He].
      * split; [intros [= <-]; auto | intros (_ & [= <-] & _); reflexivity].
      * split; [discriminate | intros (_ & [= <-] & H); contradiction].
    + split; [discriminate | intros (_ & H & _); discriminate].
  - apply Nat.ltb_ge in Hlt. split; [discriminate | intros (H & _); lia].
Qed.

Lemma is_resubmitted_iff updates skip update other :
  is_resubmitted updates skip update = Some other <->
  skip < List.length updates /\ nth_error updates skip = Some other /\
  clientID other = a_clientID update.
Proof.
  unfold is_resubmitted, other_at.
  destruct (skip <? List.length updates) eqn:Hlt.
  - apply Nat.ltb_lt in Hlt.
    destruct (nth_error updates skip) as [o|] eqn:Hn.
    + destruct (String.eqb_spec (clientID o) (a_clientID update)) as [He|He].
      * split; [intros [= <-]; auto | intros (_ & [= <-] & _); reflexivity].
      * split; [discriminate | intros (_ & [= <-] & H); contradiction].
    + split; [discriminate | intros (_ & H & _); discriminate].
  - apply Nat.ltb_ge in Hlt. split; [discriminate | intros (H & _); lia].
Qed.

(** The loop of [receiveUpdates], one update at a time. *)
Lemma receive_loop_snoc unconf updates update :
  receive_loop unconf (updates ++ [update]) =
  receive_step unconf (receive_loop unconf updates) update.
Proof. unfold receive_loop. rewrite fold_left_app. reflexivity. Qed.

Lemma rebase_loop_snoc updates over update :
  rebase_loop updates (over ++ [update]) =
  rebase_step updates (rebase_loop updates over) update.
Proof. unfold rebase_loop. rewrite fold_left_app. reflexivity. Qed.

(** While no foreign update has been seen, no effect has been collected
    and every update so far was counted as an own one. *)
Lemma receive_loop_no_changes unconf updates :
  rl_changes (receive_loop unconf updates) = None ->
  rl_effects (receive_loop unconf updates) = [] /\
  rl_own (receive_loop unconf updates) = List.length updates.
Proof.
  induction updates as [|update updates IH] using rev_ind.
  - intros _. split; reflexivity.
  - rewrite receive_loop_snoc, length_app. simpl.
    unfold receive_step.
    destruct (is_own unconf (rl_own (receive_loop unconf updates)) update).
    + simpl. destruct (rl_changes (receive_loop unconf updates)); [discriminate|].
      intros _. destruct (IH eq_refl) as [-> ->]. split; [reflexivity | lia].
    + simpl. destruct (rl_changes (receive_loop unconf updates)); discriminate.
Qed.

(** [if (own) unconfirmed = unconfirmed.slice(own)] always leaves
    [unconfirmed.slice(own)]. *)
Lemma slice_own {A : Type} (own : nat) (l : list A) :
  (if own =? 0 then l else skipn own l) = skipn own l.
Proof. destruct own; reflexivity. Qed.

(** The four values [receiveUpdates] ends with, by cases on the queue
    that is left and on the loop's [changes]. *)
Lemma received_eq state updates :
  let unconf := unconfirmed (field_collab state) in
  let loop := receive_loop unconf updates in
  let rest := skipn (rl_own loop) unconf in
  let vers := version (field_collab state) + List.length updates in
  let cid := cfg_clientID (facet_collabConfig state) in
  received state updates =
  match rest with
  | [] => mkReceived vers [] (rl_changes loop) (rl_effects loop)
  | _ :: _ =>
      let queue := match rl_changes loop with
                   | Some c => snd (rebase_locals cid c rest)
                   | None => rest
                   end in
      mkReceived vers queue
        (match rl_changes loop with
         | Some c => Some (fst (rebase_locals cid c rest))
         | None => None
         end)
        (if nonempty (rl_effects loop) then
           match queue with
           | first :: _ =>
               mapEffects (rl_effects loop)
                 (desc (composed_unconfirmed first queue))
           | [] => rl_effects loop
           end
         else rl_effects loop)
  end.
Proof.
  intros unconf loop rest vers cid. unfold received.
  fold unconf. fold loop. rewrite slice_own. fold rest. fold vers. fold cid.
  destruct rest as [|u r] eqn:Hrest; [reflexivity|].
  destruct (rl_changes loop) as [c|] eqn:Hc.
  - destruct (rebase_locals cid c (u :: r)) as [c' us]. reflexivity.
  - reflexivity.
Qed.

Lemma received_version state updates :
  rc_version (received state updates) =
  version (field_collab state) + List.length updates.
Proof.
  rewrite received_eq. cbv zeta.
  destruct (skipn _ _); [reflexivity|].
  destruct (rl_changes _); reflexivity.
Qed.

Lemma received_changes_none state updates :
  rc_changes (received state updates) = None <->
  rl_changes (receive_loop (unconfirmed (field_collab state)) updates) = None.
Proof.
  rewrite received_eq. cbv zeta.
  destruct (skipn _ _); [reflexivity|].
  destruct (rl_changes _); simpl; split; congruence.
Qed.

(** The collab field after the transaction of [receiveUpdates] has been
    applied is the state the transaction carries. *)
Lemma received_field state updates :
  field_collab (Transaction_state state
                  (EditorState_update state (receiveUpdates state updates))) =
  mkCollabState (rc_version (received state updates))
                (rc_unconfirmed (received state updates)).
Proof.
  unfold Transaction_state, EditorState_update, receiveUpdates, collabField_update.
  destruct (rc_changes (received state updates)); reflexivity.
Qed.

(** C5. Empty batches are no-ops: [receiveUpdates(state, [])] is the
    transaction that only carries the collab state it started from, so
    the synced version and the unconfirmed queue stay as they were, and
    [rebaseUpdates] returns its [updates] argument when [updates] or
    [over] is empty. *)
Theorem empty_batches_are_noops state updates over :
  receiveUpdates state [] =
    mkSpec None [] [collabReceive (field_collab state)] None /\
  field_collab (Transaction_state state
                  (EditorState_update state (receiveUpdates state []))) =
    field_collab state /\
  rebaseUpdates [] over = [] /\
  rebaseUpdates updates [] = updates.
Proof.
  assert (H : receiveUpdates state [] =
              mkSpec None [] [collabReceive (field_collab state)] None).
  { unfold receiveUpdates. rewrite received_eq. cbv zeta.
    change (receive_loop (unconfirmed (field_collab state)) [])
      with (mkReceiveLoop None [] 0).
    cbn [rl_own rl_changes rl_effects skipn List.length].
    rewrite Nat.add_0_r.
    destruct (unconfirmed (field_collab state)) eqn:Hu; cbn;
      rewrite <- Hu, CollabState_eta; reflexivity. }
  split; [exact H|]. split; [rewrite H; reflexivity|]. split.
  - unfold rebaseUpdates. destruct (nonempty over); reflexivity.
  - reflexivity.
Qed.

(** C6. The collab state produced by [receiveUpdates] has the input
    version plus the number of received updates, whichever of them were
    own or foreign, and [getSyncedVersion] of the resulting editor state
    returns that stored version. *)
Theorem receive_advances_version state updates :
  annotation_collabReceive (spec_annotations (receiveUpdates state updates)) =
    Some (mkCollabState (getSyncedVersion state + List.length updates)
            (rc_unconfirmed (received state updates))) /\
  getSyncedVersion
    (Transaction_state state
       (EditorState_update state (receiveUpdates state updates))) =
    getSyncedVersion state + List.length updates.
Proof.
  split.
  - unfold receiveUpdates, getSyncedVersion.
    rewrite <- (received_version state updates).
    destruct (rc_changes (received state updates)); reflexivity.
  - unfold getSyncedVersion at 1. rewrite received_field. cbn [version].
    apply received_version.
Qed.

(** [collabField.update] on a transaction without the [collabReceive]
    annotation. *)
Lemma collabField_update_local cfg collab tr :
  annotation_collabReceive (tr_annotations tr) = None ->
  collabField_update cfg collab tr =
    if nonempty (sharedEffects cfg tr)
       || negb (ChangeDesc_empty (desc (tr_changes tr)))
    then mkCollabState (version collab)
           (unconfirmed collab ++
              [mkLocalUpdate tr (tr_changes tr) (sharedEffects cfg tr)
                 (cfg_clientID cfg)])
    else collab.
Proof. intros H. unfold collabField_update. rewrite H. reflexivity. Qed.

(** C8. For a transaction that is not a received one, the collab field
    stays the same value when the transaction has no shared effects and
    an empty change set; otherwise one local update holding the
    transaction, its changes and its shared effects is put at the end of
    the unconfirmed queue, and the version stays. *)
Theorem local_edit_capture cfg collab tr :
  annotation_collabReceive (tr_annotations tr) = None ->
  (sharedEffects cfg tr = [] ->
   ChangeDesc_empty (desc (tr_changes tr)) = true ->
   collabField_update cfg collab tr = collab) /\
  (sharedEffects cfg tr <> [] \/
   ChangeDesc_empty (desc (tr_changes tr)) = false ->
   version (collabField_update cfg collab tr) = version collab /\
   unconfirmed (collabField_update cfg collab tr) =
     unconfirmed collab ++
       [mkLocalUpdate tr (tr_changes tr) (sharedEffects cfg tr)
          (cfg_clientID cfg)]).
Proof.
  intros H. rewrite (collabField_update_local cfg collab tr H). split.
  - intros -> ->. reflexivity.
  - intros [He|Hc].
    + destruct (sharedEffects cfg tr); [congruence|]. split; reflexivity.
    + rewrite Hc, orb_true_r. split; reflexivity.
Qed.

(** C10. If the loop of [receiveUpdates] ends without foreign changes,
    every update was counted as an own one and the collected effects are
    empty, also after the last remapping, so the branch that returns
    only the collab state drops no effect. *)
Theorem no_changes_no_effects state updates :
  let loop := receive_loop (unconfirmed (field_collab state)) updates in
  rl_changes loop = None ->
  rl_effects loop = [] /\ rl_own loop = List.length updates /\
  rc_changes (received state updates) = None /\
  rc_effects (received state updates) = [].
Proof.
  cbv zeta. intros Hnone.
  destruct (receive_loop_no_changes _ _ Hnone) as [He Ho].
  split; [exact He|]. split; [exact Ho|].
  split; [apply received_changes_none; exact Hnone|].
  rewrite received_eq. cbv zeta. rewrite Hnone, He.
  destruct (skipn _ _); reflexivity.
Qed.

(** ** The two branches of the loops *)

(** An own update moves [changes] over the local version of the update
    and maps the effects; what it does not depend on is the change set
    the authority sent back. *)
Lemma receive_step_own unconf s update ours :
  is_own unconf (rl_own s) update = Some ours ->
  receive_step unconf s update =
    mkReceiveLoop
      (option_map (fun c => ChangeSet_map c (desc (l_changes ours)) true)
         (rl_changes s))
      (mapEffects (rl_effects s) (desc (changes update)))
      (S (rl_own s)).
Proof.
  intros H. unfold receive_step. rewrite H.
  destruct (rl_changes s); reflexivity.
Qed.

Lemma receive_step_foreign unconf s update :
  is_own unconf (rl_own s) update = None ->
  receive_step unconf s update =
    mkReceiveLoop
      (Some (match rl_changes s with
             | Some c => compose c (changes update)
             | None => changes update
             end))
      (match effects update with
       | Some e => mapEffects (rl_effects s) (desc (changes update)) ++ e
       | None => mapEffects (rl_effects s) (desc (changes update))
       end)
      (rl_own s).
Proof.
  intros H. unfold receive_step. rewrite H.
  destruct (rl_changes s); reflexivity.
Qed.

(** C2 (amended). For an update classified as an own echo, the step maps
    the collected effects over the update's changes and advances the
    cursor.  The update's changes are not composed into the foreign
    changes: these stay absent when absent, and are otherwise mapped
    over the changes of the matching unconfirmed update, whatever
    change set the echo carries. *)
Theorem own_echo_step unconf s update ours :
  is_own unconf (rl_own s) update = Some ours ->
  rl_effects (receive_step unconf s update) =
    mapEffects (rl_effects s) (desc (changes update)) /\
  rl_own (receive_step unconf s update) = S (rl_own s) /\
  rl_changes (receive_step unconf s update) =
    option_map (fun c => ChangeSet_map c (desc (l_changes ours)) true)
      (rl_changes s) /\
  forall chs effs,
    rl_changes (receive_step unconf s (mkUpdate chs effs (clientID update))) =
    rl_changes (receive_step unconf s update).
Proof.
  intros H. rewrite (receive_step_own _ _ _ _ H). cbn.
  repeat (split; [reflexivity|]).
  intros chs effs.
  assert (H' : is_own unconf (rl_own s) (mkUpdate chs effs (clientID update))
               = Some ours).
  { apply is_own_iff. apply is_own_iff in H. exact H. }
  rewrite (receive_step_own _ _ _ _ H'). reflexivity.
Qed.

(** C3 (amended). For an entry of [over] matched by the update under the
    skip cursor, the collected changes (if any) are mapped over the
    changes of that submitted update, the cursor advances and the
    entry's changes are not folded in; any other entry's changes are
    composed into the collected changes. *)
Theorem rebase_step_cases updates s update :
  (forall other,
     is_resubmitted updates (rb_skip s) update = Some other <->
     rb_skip s < List.length updates /\
     nth_error updates (rb_skip s) = Some other /\
     clientID other = a_clientID update) /\
  match is_resubmitted updates (rb_skip s) update with
  | Some other =>
      rebase_step updates s update =
        mkRebaseLoop
          (option_map (fun c => mapDesc c (desc (changes other)) true)
             (rb_changes s))
          (S (rb_skip s))
  | None =>
      rebase_step updates s update =
        mkRebaseLoop
          (Some (match rb_changes s with
                 | Some c => composeDesc c (a_changes update)
                 | None => a_changes update
                 end))
          (rb_skip s)
  end.
Proof.
  split; [intros other; apply is_resubmitted_iff|].
  unfold rebase_step.
  destruct (is_resubmitted updates (rb_skip s) update);
    destruct (rb_changes s); reflexivity.
Qed.

(** ** Rebasing the queue that is left *)

(** [unconfirmed.map] in [receiveUpdates], element by element: the
    update at index [i] is rebased over [changes] moved over the [i]
    updates before it, its effects are mapped over [changes] moved over
    itself as well, and [changes] ends moved over the whole queue. *)
Lemma rebase_locals_spec cid chs queue :
  fst (rebase_locals cid chs queue) =
    moved_over chs (List.map l_changes queue) /\
  forall i v, nth_error queue i = Some v ->
    nth_error (snd (rebase_locals cid chs queue)) i =
    Some (mkLocalUpdate (origin v)
            (ChangeSet_map (l_changes v)
               (desc (moved_over chs (List.map l_changes (firstn i queue))))
               false)
            (mapEffects (l_effects v)
               (desc (moved_over chs
                        (List.map l_changes (firstn (S i) queue)))))
            cid).
Proof.
  revert chs. induction queue as [|u r IH]; intros chs.
  - split; [reflexivity | intros [|i] v; discriminate].
  - destruct (IH (ChangeSet_map chs (desc (l_changes u)) true)) as [IH1 IH2].
    cbn [rebase_locals]. unfold rebase_local. cbv beta iota zeta.
    destruct (rebase_locals cid (ChangeSet_map chs (desc (l_changes u)) true) r)
      as [c2 r'] eqn:E.
    cbn [fst snd] in *. split.
    + exact IH1.
    + intros [|i] v Hv.
      * injection Hv as <-. reflexivity.
      * cbn [nth_error firstn List.map] in *. rewrite (IH2 i v Hv). reflexivity.
Qed.

Lemma mapEffects_none mapping : mapEffects [] mapping = [].
Proof. reflexivity. Qed.

(** C7 (amended).  Let F and E be the changes and the effects that the
    loop of [receiveUpdates] has collected from the batch, and let the
    rest be the unconfirmed updates that the batch did not confirm.
    When there is no F, [receiveUpdates] gives a transaction spec with
    no changes, no effects and the new collab state (the new version
    and the rest) as its only annotation.  Otherwise it gives one spec
    whose changes are F moved over the changes of the rest, one after
    the other and with F put first, whose effects are E mapped over
    the composition of the changes of the rebased rest (E itself when
    the rest is empty), annotated [addToHistory: false],
    [remote: true] and with the new collab state (the new version and
    the rebased rest), and with [filter: false]. *)
Theorem receive_transaction_shape state updates :
  let unconf := unconfirmed (field_collab state) in
  let cid := cfg_clientID (facet_collabConfig state) in
  let loop := receive_loop unconf updates in
  let rest := skipn (rl_own loop) unconf in
  let vers := version (field_collab state) + List.length updates in
  match rl_changes loop with
  | None =>
      receiveUpdates state updates =
        mkSpec None [] [collabReceive (mkCollabState vers rest)] None
  | Some F =>
      let queue := snd (rebase_locals cid F rest) in
      receiveUpdates state updates =
        mkSpec (Some (moved_over F (List.map l_changes rest)))
          (match queue with
           | [] => rl_effects loop
           | first :: _ =>
               mapEffects (rl_effects loop)
                 (desc (composed_unconfirmed first queue))
           end)
          [addToHistory false; remote true;
           collabReceive (mkCollabState vers queue)]
          (Some false)
  end.
Proof.
  cbv zeta. unfold receiveUpdates. rewrite received_eq. cbv zeta.
  destruct (skipn _ _) as [|u q].
  - destruct (rl_changes _) as [F|]; reflexivity.
  - destruct (rl_changes _) as [F|]; [|reflexivity].
    cbn [rc_changes rc_effects rc_version rc_unconfirmed].
    rewrite (proj1 (rebase_locals_spec _ F (u :: q))).
    destruct (snd (rebase_locals _ F (u :: q))) as [|first queue] eqn:Hq.
    + destruct (rl_effects _); reflexivity.
    + destruct (rl_effects _) as [|e es]; [|reflexivity].
      cbn [nonempty]. rewrite mapEffects_none. reflexivity.
Qed.

Lemma rebase_updates_spec chs queue :
  fst (rebase_updates chs queue) =
    movedDesc_over chs (List.map changes queue) /\
  forall i v, nth_error queue i = Some v ->
    nth_error (snd (rebase_updates chs queue)) i =
    Some (mkUpdate
            (ChangeSet_map (changes v)
               (movedDesc_over chs (List.map changes (firstn i queue))) false)
            (option_map
               (fun e => mapEffects e
                  (movedDesc_over chs (List.map changes (firstn (S i) queue))))
               (effects v))
            (clientID v)).
Proof.
  revert chs. induction queue as [|u r IH]; intros chs.
  - split; [reflexivity | intros [|i] v; discriminate].
  - destruct (IH (mapDesc chs (desc (changes u)) true)) as [IH1 IH2].
    cbn [rebase_updates]. unfold rebase_update. cbv beta iota zeta.
    destruct (rebase_updates (mapDesc chs (desc (changes u)) true) r)
      as [c2 r'] eqn:E.
    cbn [fst snd] in *. split.
    + exact IH1.
    + intros [|i] v Hv.
      * injection Hv as <-. destruct (effects u); reflexivity.
      * cbn [nth_error firstn List.map] in *. rewrite (IH2 i v Hv). reflexivity.
Qed.

(** What [rebaseUpdates] returns when neither argument is empty. *)
Lemma rebaseUpdates_eq updates over :
  nonempty updates = true -> nonempty over = true ->
  rebaseUpdates updates over =
    let loop := rebase_loop updates over in
    match rb_changes loop with
    | None => skipn (rb_skip loop) updates
    | Some c => snd (rebase_updates c (skipn (rb_skip loop) updates))
    end.
Proof.
  intros Hu Ho. unfold rebaseUpdates. rewrite Hu, Ho.
  cbn [negb orb]. rewrite slice_own. reflexivity.
Qed.

(** C4 (amended). When foreign changes have been collected, both
    [receiveUpdates] (for a non-empty remaining queue) and
    [rebaseUpdates] rebase the remaining updates in order: the changes
    of each are mapped over the current script with the default side
    (foreign before local), then the script is mapped over the update's
    original changes with [before] set, and the update's effects are
    mapped over that moved script, the one the next update will be
    rebased over. *)
Theorem remaining_updates_rebased state received_updates updates over c d :
  let unconf := unconfirmed (field_collab state) in
  let cid := cfg_clientID (facet_collabConfig state) in
  let loop := receive_loop unconf received_updates in
  let rest := skipn (rl_own loop) unconf in
  let skipped := skipn (rb_skip (rebase_loop updates over)) updates in
  nonempty rest = true -> rl_changes loop = Some c ->
  nonempty updates = true -> nonempty over = true ->
  rb_changes (rebase_loop updates over) = Some d ->
  (rc_changes (received state received_updates) =
     Some (moved_over c (List.map l_changes rest)) /\
   forall i v, nth_error rest i = Some v ->
     nth_error (rc_unconfirmed (received state received_updates)) i =
     Some (mkLocalUpdate (origin v)
             (ChangeSet_map (l_changes v)
                (desc (moved_over c (List.map l_changes (firstn i rest))))
                false)
             (mapEffects (l_effects v)
                (desc (moved_over c (List.map l_changes (firstn (S i) rest)))))
             cid)) /\
  (forall i v, nth_error skipped i = Some v ->
     nth_error (rebaseUpdates updates over) i =
     Some (mkUpdate
             (ChangeSet_map (changes v)
                (movedDesc_over d (List.map changes (firstn i skipped))) false)
             (option_map
                (fun e => mapEffects e
                   (movedDesc_over d (List.map changes (firstn (S i) skipped))))
                (effects v))
             (clientID v))).
Proof.
  cbv zeta. intros Hrest Hc Hu Ho Hd. split.
  - rewrite received_eq. cbv zeta. rewrite Hc.
    destruct (skipn _ (unconfirmed (field_collab state))) as [|u r] eqn:E;
      [discriminate|].
    cbn [rc_changes rc_unconfirmed].
    destruct (rebase_locals_spec (cfg_clientID (facet_collabConfig state)) c (u :: r))
      as [H1 H2].
    split; [rewrite H1; reflexivity | exact H2].
  - rewrite (rebaseUpdates_eq _ _ Hu Ho). cbv zeta. rewrite Hd.
    apply rebase_updates_spec.
Qed.

(** ** Order of the surviving updates *)

Lemma rebase_locals_stand_for cid chs queue :
  Forall2 (local_stands_for cid) (snd (rebase_locals cid chs queue)) queue.
Proof.
  revert chs. induction queue as [|u r IH]; intros chs; [constructor|].
  cbn [rebase_locals].
  destruct (rebase_local cid chs u) as [c1 u'] eqn:E1.
  specialize (IH c1). destruct (rebase_locals cid c1 r) as [c2 r'].
  cbn [snd] in *. constructor; [|exact IH].
  assert (Hu : u' = snd (rebase_local cid chs u)) by (rewrite E1; reflexivity).
  split; [rewrite Hu; reflexivity | right; exists chs; exact Hu].
Qed.

Lemma rebase_updates_stand_for chs queue :
  Forall2 update_stands_for (snd (rebase_updates chs queue)) queue.
Proof.
  revert chs. induction queue as [|u r IH]; intros chs; [constructor|].
  cbn [rebase_updates].
  destruct (rebase_update chs u) as [c1 u'] eqn:E1.
  specialize (IH c1). destruct (rebase_updates c1 r) as [c2 r'].
  cbn [snd] in *. constructor; [|exact IH].
  assert (Hu : u' = snd (rebase_update chs u)) by (rewrite E1; reflexivity).
  split; [rewrite Hu; reflexivity | right; exists chs; exact Hu].
Qed.

Lemma Forall2_same {A : Type} (R : A -> A -> Prop) (l : list A) :
  (forall x, R x x) -> Forall2 R l l.
Proof. intros H. induction l; constructor; auto. Qed.

(** C9. The unconfirmed queue of the editor state that results from
    [receiveUpdates] and the array that [rebaseUpdates] returns stand,
    element by element and in the same order, for a suffix of the
    input: only a prefix of the input is dropped, and what is kept is
    either untouched or rebased in place. *)
Theorem survivors_keep_order state received_updates updates over :
  (exists own,
     Forall2 (local_stands_for (cfg_clientID (facet_collabConfig state)))
       (sendableUpdates
          (Transaction_state state
             (EditorState_update state
                (receiveUpdates state received_updates))))
       (skipn own (sendableUpdates state))) /\
  (exists skip,
     Forall2 update_stands_for (rebaseUpdates updates over)
       (skipn skip updates)).
Proof.
  split.
  - exists (rl_own (receive_loop (unconfirmed (field_collab state))
                      received_updates)).
    unfold sendableUpdates. rewrite received_field. cbn [unconfirmed].
    rewrite received_eq. cbv zeta.
    destruct (skipn _ _) as [|u r] eqn:E; [constructor|].
    destruct (rl_changes _) as [c|]; cbn [rc_unconfirmed].
    + apply rebase_locals_stand_for.
    + apply Forall2_same. intros x. split; [reflexivity | left; reflexivity].
  - unfold rebaseUpdates.
    destruct (negb (nonempty over) || negb (nonempty updates)).
    + exists 0. apply Forall2_same. intros x.
      split; [reflexivity | left; reflexivity].
    + exists (rb_skip (rebase_loop updates over)). rewrite slice_own.
      destruct (rb_changes _) as [c|].
      * apply rebase_updates_stand_for.
      * apply Forall2_same. intros x. split; [reflexivity | left; reflexivity].
Qed.

End CollabFacts.

(** ** Convergence of the authority model *)

Section Convergence.
Context {L : StateLib} {laws : StateLaws}.

(** *** Sequences of change sets *)

Lemma apply_all_app cs1 cs2 d :
  apply_all (cs1 ++ cs2) d = apply_all cs2 (apply_all cs1 d).
Proof. unfold apply_all. apply fold_left_app. Qed.

Lemma all_fit_app cs1 cs2 d :
  all_fit (cs1 ++ cs2) d <-> all_fit cs1 d /\ all_fit cs2 (apply_all cs1 d).
Proof.
  revert d. induction cs1 as [|c r IH]; intros d; simpl.
  - tauto.
  - rewrite IH. tauto.
Qed.

Lemma firstn_S_nth {A : Type} (l : list A) n x :
  nth_error l n = Some x -> firstn (S n) l = firstn n l ++ [x].
Proof.
  revert n. induction l as [|y l IH]; intros [|n] H; try discriminate.
  - injection H as ->. reflexivity.
  - rewrite !firstn_cons. cbn [nth_error] in H. rewrite (IH n H). reflexivity.
Qed.

Lemma skipn_nth {A : Type} (l : list A) n x :
  nth_error l n = Some x -> skipn n l = x :: skipn (S n) l.
Proof.
  revert n. induction l as [|y l IH]; intros [|n] H; try discriminate.
  - injection H as ->. reflexivity.
  - cbn [skipn]. apply (IH n H).
Qed.

Lemma before_local_S unconf base k ours :
  nth_error unconf k = Some ours ->
  before_local unconf base (S k) =
  apply (l_changes ours) (before_local unconf base k).
Proof.
  intros H. unfold before_local. rewrite (firstn_S_nth _ _ _ H), map_app.
  apply apply_all_app.
Qed.

Lemma local_fits unconf base k ours :
  all_fit (List.map l_changes unconf) base ->
  nth_error unconf k = Some ours ->
  fits (l_changes ours) (before_local unconf base k).
Proof.
  intros Hfit H. unfold before_local.
  rewrite <- (firstn_skipn k unconf), (skipn_nth _ _ _ H) in Hfit.
  rewrite map_app in Hfit. apply all_fit_app in Hfit.
  destruct Hfit as [_ [Hf _]]. exact Hf.
Qed.

Lemma rest_fits unconf base k :
  all_fit (List.map l_changes unconf) base ->
  all_fit (List.map l_changes (skipn k unconf)) (before_local unconf base k).
Proof.
  intros Hfit. unfold before_local.
  rewrite <- (firstn_skipn k unconf), map_app in Hfit.
  apply all_fit_app in Hfit. apply Hfit.
Qed.

Lemma rest_applied unconf base k :
  apply_all (List.map l_changes unconf) base =
  apply_all (List.map l_changes (skipn k unconf)) (before_local unconf base k).
Proof.
  unfold before_local.
  rewrite <- (firstn_skipn k unconf) at 1. rewrite map_app.
  apply apply_all_app.
Qed.

(** *** The loop of receiveUpdates against the log *)

Lemma receive_step_describes id unconf base s server u :
  Forall (fun o => l_clientID o = id) unconf ->
  all_fit (List.map l_changes unconf) base ->
  loop_describes unconf base s server ->
  fits (changes u) server ->
  (clientID u = id ->
   exists ours, nth_error unconf (rl_own s) = Some ours /\
                changes u = rebased_by (rl_changes s) ours) ->
  loop_describes unconf base (receive_step unconf s u) (apply (changes u) server).
Proof.
  intros Hids Hfit [Hown Hsem] Hu Htail.
  destruct (is_own unconf (rl_own s) u) as [ours|] eqn:Hcase.
  - rewrite (receive_step_own _ _ _ _ Hcase). unfold loop_describes. cbn [rl_own rl_changes rl_effects].
    apply is_own_iff in Hcase. destruct Hcase as (Hlt & Hnth & Hid).
    assert (Hmine : clientID u = id).
    { rewrite <- Hid. rewrite Forall_forall in Hids. apply Hids.
      eapply nth_error_In; eauto. }
    destruct (Htail Hmine) as (ours' & Hnth' & Hch).
    rewrite Hnth in Hnth'. injection Hnth' as <-.
    split; [lia|].
    rewrite (before_local_S _ _ _ _ Hnth).
    pose proof (local_fits _ _ _ _ Hfit Hnth) as Hfo.
    destruct (rl_changes s) as [c|]; cbn [option_map rebased_by] in *.
    + destruct Hsem as [Hfc ->]. rewrite Hch.
      destruct (map_apply (l_changes ours) c _ Hfo Hfc) as (_ & H2 & H3).
      split; [exact H2 | exact H3].
    + subst server. rewrite Hch. reflexivity.
  - rewrite (receive_step_foreign _ _ _ Hcase). unfold loop_describes. cbn [rl_own rl_changes rl_effects].
    split; [exact Hown|].
    destruct (rl_changes s) as [c|].
    + destruct Hsem as [Hfc ->].
      destruct (compose_apply c (changes u) _ Hfc Hu) as [H1 H2].
      split; [exact H1 | symmetry; exact H2].
    + subst server. split; [exact Hu | reflexivity].
Qed.

Lemma receive_loop_describes id unconf base tail s server :
  Forall (fun o => l_clientID o = id) unconf ->
  all_fit (List.map l_changes unconf) base ->
  loop_describes unconf base s server ->
  all_fit (List.map changes tail) server ->
  tail_agrees id unconf s tail ->
  loop_describes unconf base (fold_left (receive_step unconf) tail s)
    (apply_all (List.map changes tail) server).
Proof.
  intros Hids Hfit. revert s server.
  induction tail as [|u tail IH]; intros s server Hs Hlog Htail; [exact Hs|].
  cbn in Hlog, Htail |- *. destruct Hlog as [Hu Hlog]. destruct Htail as [Hhd Htl].
  apply IH; [|exact Hlog|exact Htl].
  eapply receive_step_describes; eauto.
Qed.

(** *** Rebasing the remaining queue *)

(** Rebasing a queue over foreign changes and then applying it on top of
    those changes gives the document that the moved foreign changes
    give on top of the original queue. *)
Lemma rebase_locals_applies cid queue : forall c d,
  fits c d -> all_fit (List.map l_changes queue) d ->
  all_fit (List.map l_changes (snd (rebase_locals cid c queue))) (apply c d) /\
  fits (fst (rebase_locals cid c queue))
    (apply_all (List.map l_changes queue) d) /\
  apply_all (List.map l_changes (snd (rebase_locals cid c queue))) (apply c d) =
    apply (fst (rebase_locals cid c queue))
      (apply_all (List.map l_changes queue) d).
Proof.
  induction queue as [|u r IH]; intros c d Hc Hq.
  - cbn. auto.
  - cbn [List.map all_fit] in Hq. destruct Hq as [Hu Hr].
    destruct (map_apply (l_changes u) c d Hu Hc) as (H1 & H2 & H3).
    specialize (IH (ChangeSet_map c (desc (l_changes u)) true)
                  (apply (l_changes u) d) H2 Hr).
    cbn [rebase_locals]. unfold rebase_local. cbv beta iota zeta.
    destruct (rebase_locals cid (ChangeSet_map c (desc (l_changes u)) true) r)
      as [c2 r'].
    cbn [fst snd List.map all_fit l_changes] in *.
    unfold apply_all in *. cbn [fold_left]. rewrite H3.
    destruct IH as (I1 & I2 & I3). auto.
Qed.

Lemma rebase_locals_ids cid c queue :
  Forall (fun u => l_clientID u = cid) (snd (rebase_locals cid c queue)).
Proof.
  revert c. induction queue as [|u r IH]; intros c; [constructor|].
  cbn [rebase_locals]. unfold rebase_local. cbv beta iota zeta.
  specialize (IH (ChangeSet_map c (desc (l_changes u)) true)).
  destruct (rebase_locals cid (ChangeSet_map c (desc (l_changes u)) true) r).
  cbn [snd] in *. constructor; [reflexivity | exact IH].
Qed.

(** *** rebaseUpdates on a peer's queue and the log *)

Lemma is_resubmitted_own unconf own u :
  is_resubmitted (List.map asUpdate unconf) own (asAccepted u) =
  option_map asUpdate (is_own unconf own u).
Proof.
  unfold is_resubmitted, is_own, other_at, ours_at.
  rewrite length_map, nth_error_map.
  destruct (own <? List.length unconf); [|reflexivity].
  destruct (nth_error unconf own) as [o|]; [|reflexivity].
  cbn. destruct (l_clientID o =? clientID u)%string; reflexivity.
Qed.

(** The loop of [rebaseUpdates] over the log goes through the
    descriptions of the states of the loop of [receiveUpdates]. *)
Lemma rebase_step_agrees unconf s u :
  rebase_step (List.map asUpdate unconf)
    (mkRebaseLoop (option_map desc (rl_changes s)) (rl_own s)) (asAccepted u) =
  mkRebaseLoop (option_map desc (rl_changes (receive_step unconf s u)))
    (rl_own (receive_step unconf s u)).
Proof.
  unfold rebase_step, receive_step. cbn [rb_skip rb_changes].
  rewrite is_resubmitted_own.
  destruct (is_own unconf (rl_own s) u) as [ours|]; cbn;
    destruct (rl_changes s) as [c|]; cbn;
    rewrite ?desc_map, ?desc_compose; reflexivity.
Qed.

Lemma rebase_loop_agrees unconf tail :
  rebase_loop (List.map asUpdate unconf) (List.map asAccepted tail) =
  mkRebaseLoop (option_map desc (rl_changes (receive_loop unconf tail)))
    (rl_own (receive_loop unconf tail)).
Proof.
  induction tail as [|u tail IH] using rev_ind; [reflexivity|].
  rewrite map_app. cbn [List.map].
  rewrite rebase_loop_snoc, receive_loop_snoc, IH.
  apply rebase_step_agrees.
Qed.

Lemma rebaseUpdates_sent unconf tail :
  rebaseUpdates (List.map asUpdate unconf) (List.map asAccepted tail) =
  sent_for (rl_changes (receive_loop unconf tail))
    (skipn (rl_own (receive_loop unconf tail)) unconf).
Proof.
  destruct tail as [|u0 tail0] eqn:Ht.
  - cbn. reflexivity.
  - destruct unconf as [|o0 unconf0] eqn:Hu.
    + cbn [List.map]. unfold rebaseUpdates. cbn [nonempty negb orb].
      rewrite skipn_nil. unfold sent_for.
      destruct (rl_changes _); reflexivity.
    + rewrite <- Ht, <- Hu. rewrite rebaseUpdates_eq.
      * cbv zeta. rewrite rebase_loop_agrees. cbn [rb_changes rb_skip].
        rewrite skipn_map. unfold sent_for.
        destruct (rl_changes _); reflexivity.
      * subst. reflexivity.
      * subst. reflexivity.
Qed.

(** The changes and the ids of what is sent are those of the queue
    rebased as [receiveUpdates] would rebase it. *)
Lemma rebase_updates_locals cid rest : forall c,
  List.map changes (snd (rebase_updates (desc c) (List.map asUpdate rest))) =
    List.map l_changes (snd (rebase_locals cid c rest)) /\
  List.map clientID (snd (rebase_updates (desc c) (List.map asUpdate rest))) =
    List.map l_clientID rest.
Proof.
  induction rest as [|u r IH]; intros c; [split; reflexivity|].
  cbn [List.map rebase_updates rebase_locals].
  unfold rebase_update, rebase_local. cbv beta iota zeta.
  cbn [asUpdate changes clientID].
  rewrite <- desc_map.
  specialize (IH (ChangeSet_map c (desc (l_changes u)) true)).
  destruct (rebase_updates _ (List.map asUpdate r)) as [d2 r2].
  destruct (rebase_locals cid _ r) as [c2 r'].
  cbn [snd List.map changes clientID l_changes] in *.
  destruct IH as [-> ->]. split; reflexivity.
Qed.

(** *** The unreceived tail of the log *)

Lemma tail_agrees_app id unconf tail1 tail2 : forall s,
  tail_agrees id unconf s (tail1 ++ tail2) <->
  tail_agrees id unconf s tail1 /\
  tail_agrees id unconf (fold_left (receive_step unconf) tail1 s) tail2.
Proof.
  induction tail1 as [|u r IH]; intros s; cbn.
  - tauto.
  - rewrite IH. tauto.
Qed.

(** Updates of other clients never disagree with a peer's queue. *)
Lemma tail_agrees_foreign id unconf tail : forall s,
  Forall (fun u => clientID u <> id) tail -> tail_agrees id unconf s tail.
Proof.
  induction tail as [|u r IH]; intros s H; cbn; [exact I|].
  inversion H; subst. split; [intros; contradiction | apply IH; assumption].
Qed.

Lemma is_own_foreign id unconf own u :
  Forall (fun o => l_clientID o = id) unconf ->
  clientID u <> id -> is_own unconf own u = None.
Proof.
  intros Hids Hu. destruct (is_own unconf own u) as [ours|] eqn:H; [|reflexivity].
  apply is_own_iff in H. destruct H as (_ & Hnth & Hid).
  rewrite Forall_forall in Hids. apply nth_error_In in Hnth.
  apply Hids in Hnth. congruence.
Qed.

(** A new local update at the end of the queue changes nothing for the
    tail of the log. *)
Lemma receive_step_grow id unconf new s u :
  Forall (fun o => l_clientID o = id) unconf -> l_clientID new = id ->
  (clientID u = id -> exists ours, nth_error unconf (rl_own s) = Some ours /\
                                   changes u = rebased_by (rl_changes s) ours) ->
  receive_step (unconf ++ [new]) s u = receive_step unconf s u.
Proof.
  intros Hids Hnew Hhd.
  assert (H : is_own (unconf ++ [new]) (rl_own s) u = is_own unconf (rl_own s) u).
  { destruct (String.eqb_spec (clientID u) id) as [Hu|Hu].
    - destruct (Hhd Hu) as (ours & Hnth & _).
      assert (Hlt : rl_own s < List.length unconf)
        by (apply nth_error_Some; congruence).
      unfold is_own, ours_at. rewrite length_app. cbn [List.length].
      rewrite nth_error_app1 by exact Hlt.
      destruct (Nat.ltb_spec (rl_own s) (List.length unconf + 1)); [|lia].
      destruct (Nat.ltb_spec (rl_own s) (List.length unconf)); [|lia].
      reflexivity.
    - rewrite (is_own_foreign id unconf) by assumption.
      apply (is_own_foreign id); [|exact Hu].
      apply Forall_app. split; [exact Hids | constructor; [exact Hnew|constructor]]. }
  unfold receive_step. rewrite H. reflexivity.
Qed.

Lemma tail_agrees_grow id unconf new tail : forall s,
  Forall (fun o => l_clientID o = id) unconf -> l_clientID new = id ->
  tail_agrees id unconf s tail -> tail_agrees id (unconf ++ [new]) s tail.
Proof.
  induction tail as [|u r IH]; intros s Hids Hnew H; cbn in *; [exact I|].
  destruct H as [Hhd Htl]. split.
  - intros Hu. destruct (Hhd Hu) as (ours & Hnth & Hch).
    exists ours. split; [|exact Hch].
    rewrite nth_error_app1; [exact Hnth|].
    apply nth_error_Some. congruence.
  - rewrite (receive_step_grow id) by assumption. apply IH; assumption.
Qed.

(** What a peer sends agrees with its queue, and once it is in the log
    the loop counts the whole queue as confirmed. *)
Lemma sent_for_agrees id unconf rest : forall s,
  Forall (fun o => l_clientID o = id) unconf ->
  skipn (rl_own s) unconf = rest ->
  tail_agrees id unconf s (sent_for (rl_changes s) rest) /\
  rl_own (fold_left (receive_step unconf) (sent_for (rl_changes s) rest) s) =
    rl_own s + List.length rest.
Proof.
  induction rest as [|v r IH]; intros s Hids Hrest.
  - unfold sent_for. destruct (rl_changes s); cbn; split; auto.
  - assert (Hnth : nth_error unconf (rl_own s) = Some v).
    { rewrite <- (firstn_skipn (rl_own s) unconf) at 1. rewrite Hrest.
      rewrite nth_error_app2; rewrite firstn_length_le.
      - rewrite Nat.sub_diag. reflexivity.
      - apply Nat.lt_le_incl, nth_error_Some.
        intros Hn. apply nth_error_None in Hn.
        rewrite skipn_all2 in Hrest by exact Hn. discriminate.
      - lia.
      - apply Nat.lt_le_incl, nth_error_Some.
        intros Hn. apply nth_error_None in Hn.
        rewrite skipn_all2 in Hrest by exact Hn. discriminate. }
    assert (Hrest' : skipn (S (rl_own s)) unconf = r).
    { pose proof (skipn_nth _ _ _ Hnth) as E. rewrite Hrest in E.
      injection E as E. symmetry. exact E. }
    assert (Hv : l_clientID v = id).
    { rewrite Forall_forall in Hids. apply Hids. eapply nth_error_In; eauto. }
    set (hd := mkUpdate (rebased_by (rl_changes s) v)
                 (match rl_changes s with
                  | None => Some (l_effects v)
                  | Some c => Some (mapEffects (l_effects v)
                                      (mapDesc (desc c) (desc (l_changes v)) true))
                  end)
                 (l_clientID v)).
    set (s' := receive_step unconf s hd).
    assert (Hown : is_own unconf (rl_own s) hd = Some v).
    { apply is_own_iff. split; [apply nth_error_Some; congruence|].
      split; [exact Hnth | reflexivity]. }
    assert (Hs' : rl_own s' = S (rl_own s) /\
                  rl_changes s' =
                  option_map (fun c => ChangeSet_map c (desc (l_changes v)) true)
                    (rl_changes s)).
    { unfold s'. rewrite (receive_step_own _ _ _ _ Hown). split; reflexivity. }
    destruct Hs' as [Hs'o Hs'c].
    assert (Hsent : sent_for (rl_changes s) (v :: r) =
                    hd :: sent_for (rl_changes s') r).
    { rewrite Hs'c. unfold sent_for, hd.
      destruct (rl_changes s) as [c|]; cbn [option_map List.map rebased_by].
      - cbn [rebase_updates]. unfold rebase_update. cbv beta iota zeta.
        cbn [asUpdate changes effects clientID].
        rewrite desc_map.
        destruct (rebase_updates _ (List.map asUpdate r)). reflexivity.
      - destruct v; reflexivity. }
    rewrite Hsent. cbn [tail_agrees fold_left]. fold s'.
    destruct (IH s' Hids) as [I1 I2]; [rewrite Hs'o; exact Hrest'|].
    split; [split|].
    + intros _. exists v. split; [exact Hnth | reflexivity].
    + exact I1.
    + rewrite I2, Hs'o. cbn [List.length]. lia.
Qed.

(** *** The object [peers] *)

Lemma peer_set_same ps id s : peer (set_peer ps id s) id = Some s.
Proof.
  induction ps as [|[k s0] r IH]; cbn.
  - rewrite String.eqb_refl. reflexivity.
  - destruct (String.eqb_spec k id) as [->|Hk]; cbn.
    + rewrite String.eqb_refl. reflexivity.
    + destruct (String.eqb_spec k id); [contradiction | exact IH].
Qed.

Lemma peer_set_other ps id id' s :
  id' <> id -> peer (set_peer ps id s) id' = peer ps id'.
Proof.
  intros Hne. induction ps as [|[k s0] r IH]; cbn.
  - destruct (String.eqb_spec id id'); [congruence | reflexivity].
  - destruct (String.eqb_spec k id) as [->|Hk]; cbn.
    + destruct (String.eqb_spec id id'); [congruence | reflexivity].
    + destruct (String.eqb_spec k id'); [reflexivity | exact IH].
Qed.

Lemma keys_set_peer ps id s :
  peer ps id <> None -> List.map fst (set_peer ps id s) = List.map fst ps.
Proof.
  induction ps as [|[k s0] r IH]; cbn; [congruence|].
  destruct (String.eqb_spec k id) as [->|Hk]; cbn; [reflexivity|].
  intros H. rewrite (IH H). reflexivity.
Qed.

Lemma peer_key ps id : In id (List.map fst ps) <-> peer ps id <> None.
Proof.
  induction ps as [|[k s0] r IH]; cbn; [tauto|].
  destruct (String.eqb_spec k id) as [->|Hk].
  - split; [discriminate | auto].
  - rewrite <- IH. split; [intros [H|H]; [contradiction | exact H] | auto].
Qed.

(** [for (let id in peers)] visits every key of [peers], whatever the
    order. *)
Lemma insert_index_in n key l p :
  In p (insert_index n key l) <-> p = (n, key) \/ In p l.
Proof.
  induction l as [|[m k] r IH]; cbn [insert_index].
  - cbn. intuition congruence.
  - destruct (n <? m)%N; cbn [In].
    + intuition congruence.
    + rewrite IH. intuition congruence.
Qed.

Lemma index_keys_in keys n key :
  In (n, key) (index_keys keys) <-> In key keys /\ array_index key = Some n.
Proof.
  induction keys as [|k r IH]; cbn [index_keys fold_right In].
  - tauto.
  - fold (index_keys r).
    destruct (array_index k) as [m|] eqn:Hk.
    + rewrite insert_index_in, IH. split.
      * intros [H|[H1 H2]]; [inversion H; subst; auto | auto].
      * intros [[->|H1] H2]; [left; congruence | right; auto].
    + rewrite IH. split.
      * intros [H1 H2]; auto.
      * intros [[->|H1] H2]; [congruence | auto].
Qed.

Lemma for_in_key ps id : In id (for_in ps) <-> In id (List.map fst ps).
Proof.
  unfold for_in. cbv zeta. rewrite in_app_iff, filter_In, in_map_iff. split.
  - intros [([n k] & Hk & Hin)|[Hin _]]; [|exact Hin].
    cbn in Hk. subst k. apply index_keys_in in Hin. tauto.
  - intros Hin. destruct (array_index id) as [n|] eqn:Hid.
    + left. exists (n, id). split; [reflexivity|].
      apply index_keys_in. auto.
    + right. auto.
Qed.

(** *** A peer while the log grows *)

Lemma peer_inv_extend startDoc log out id state :
  peer_inv startDoc log id state ->
  tail_agrees id (unconfirmed (field_collab state))
    (receive_loop (unconfirmed (field_collab state))
       (skipn (version (field_collab state)) log)) out ->
  peer_inv startDoc (log ++ out) id state.
Proof.
  intros [Hcfg Hv Hids Hfit Hdoc Htail] Hout.
  assert (Hfirst : firstn (version (field_collab state)) (log ++ out) =
                   firstn (version (field_collab state)) log).
  { rewrite firstn_app.
    replace (version (field_collab state) - List.length log) with 0 by lia.
    cbn. apply app_nil_r. }
  assert (Hskip : skipn (version (field_collab state)) (log ++ out) =
                  skipn (version (field_collab state)) log ++ out).
  { rewrite skipn_app.
    replace (version (field_collab state) - List.length log) with 0 by lia.
    reflexivity. }
  constructor; rewrite ?Hfirst, ?Hskip; try assumption.
  - rewrite length_app. lia.
  - apply tail_agrees_app. split; [exact Htail | exact Hout].
Qed.

(** The loop run over the unreceived tail describes the authority's
    document. *)
Lemma tail_describes startDoc log id state :
  all_fit (List.map changes log) startDoc ->
  peer_inv startDoc log id state ->
  loop_describes (unconfirmed (field_collab state))
    (apply_all (List.map changes (firstn (version (field_collab state)) log))
       startDoc)
    (receive_loop (unconfirmed (field_collab state))
       (skipn (version (field_collab state)) log))
    (apply_all (List.map changes log) startDoc).
Proof.
  intros Hlog [Hcfg Hv Hids Hfit Hdoc Htail].
  set (v := version (field_collab state)) in *.
  set (unconf := unconfirmed (field_collab state)) in *.
  assert (E : apply_all (List.map changes log) startDoc =
              apply_all (List.map changes (skipn v log))
                (apply_all (List.map changes (firstn v log)) startDoc)).
  { rewrite <- apply_all_app, <- map_app, firstn_skipn. reflexivity. }
  assert (Hl : all_fit (List.map changes (skipn v log))
                 (apply_all (List.map changes (firstn v log)) startDoc)).
  { rewrite <- (firstn_skipn v log), map_app in Hlog.
    apply all_fit_app in Hlog. apply Hlog. }
  rewrite E.
  apply (receive_loop_describes id); try assumption.
  split; [cbn; lia | reflexivity].
Qed.

(** *** Sending *)

Lemma push_updates out : forall a,
  fold_left (fun a update =>
               mkAuthority (updates a ++ [update])
                 (apply (changes update) (serverDoc a)) (peers a)) out a =
  mkAuthority (updates a ++ out)
    (apply_all (List.map changes out) (serverDoc a)) (peers a).
Proof.
  induction out as [|u r IH]; intros a.
  - cbn. rewrite app_nil_r. destruct a; reflexivity.
  - cbn [fold_left]. rewrite IH. cbn [updates serverDoc peers List.map].
    rewrite <- app_assoc. reflexivity.
Qed.

Lemma send_eq a id state :
  peer (peers a) id = Some state ->
  version (field_collab state) <= List.length (updates a) ->
  send a id =
  mkAuthority (updates a ++ sent_by (updates a) state)
    (apply_all (List.map changes (sent_by (updates a) state)) (serverDoc a))
    (peers a).
Proof.
  intros Hp Hv. unfold send. rewrite Hp. rewrite push_updates.
  unfold getSyncedVersion, sendableUpdates, sent_by.
  destruct (Nat.eqb_spec (version (field_collab state)) (List.length (updates a)))
    as [He|He]; cbn [negb].
  - rewrite He, skipn_all. cbn. reflexivity.
  - rewrite rebaseUpdates_sent. reflexivity.
Qed.

Lemma sent_for_ids id c rest :
  Forall (fun o => l_clientID o = id) rest ->
  Forall (fun u => clientID u = id) (sent_for c rest).
Proof.
  intros H. apply Forall_forall. intros u Hu.
  assert (Hin : In (clientID u) (List.map l_clientID rest)).
  { destruct c as [c|]; cbn [sent_for] in Hu.
    - rewrite <- (proj2 (rebase_updates_locals id rest c)).
      apply in_map. exact Hu.
    - rewrite in_map_iff in Hu. destruct Hu as (o & <- & Ho).
      cbn. apply in_map. exact Ho. }
  rewrite in_map_iff in Hin. destruct Hin as (o & Ho & Hino).
  rewrite Forall_forall in H. rewrite <- Ho. apply H. exact Hino.
Qed.

Lemma Forall_skipn {A : Type} (P : A -> Prop) n (l : list A) :
  Forall P l -> Forall P (skipn n l).
Proof.
  intros H. rewrite <- (firstn_skipn n l) in H.
  apply Forall_app in H. apply H.
Qed.

(** What a peer sends fits the authority's document. *)
Lemma sent_by_fits startDoc log id state :
  all_fit (List.map changes log) startDoc ->
  peer_inv startDoc log id state ->
  all_fit (List.map changes (sent_by log state))
    (apply_all (List.map changes log) startDoc).
Proof.
  intros Hlog Hinv.
  destruct (tail_describes _ _ _ _ Hlog Hinv) as [Hown Hsem].
  destruct Hinv as [Hcfg Hv Hids Hfit Hdoc Htail].
  unfold sent_by. cbv zeta.
  set (unconf := unconfirmed (field_collab state)) in *.
  set (loop := receive_loop unconf _) in *.
  pose proof (rest_fits unconf _ (rl_own loop) Hfit) as Hrest.
  destruct (rl_changes loop) as [c|]; cbn [sent_for].
  - destruct Hsem as [Hc ->].
    rewrite (proj1 (rebase_updates_locals id _ c)).
    apply (rebase_locals_applies id _ c _ Hc Hrest).
  - rewrite Hsem, map_map. cbn [asUpdate changes]. exact Hrest.
Qed.

Lemma receive_loop_app unconf tail1 tail2 :
  receive_loop unconf (tail1 ++ tail2) =
  fold_left (receive_step unconf) tail2 (receive_loop unconf tail1).
Proof. unfold receive_loop. apply fold_left_app. Qed.

Lemma foreign_keep_own id unconf tail : forall s,
  Forall (fun o => l_clientID o = id) unconf ->
  Forall (fun u => clientID u <> id) tail ->
  rl_own (fold_left (receive_step unconf) tail s) = rl_own s.
Proof.
  induction tail as [|u r IH]; intros s Hids H; [reflexivity|].
  inversion H; subst. cbn [fold_left]. rewrite IH by assumption.
  rewrite receive_step_foreign; [reflexivity|].
  apply (is_own_foreign id); assumption.
Qed.

Lemma send_keeps_inv startDoc a id :
  authority_inv startDoc a ->
  authority_inv startDoc (send a id) /\
  peers (send a id) = peers a /\
  forall id' state, peer (peers a) id' = Some state ->
    id' = id \/ all_sent (updates a) state ->
    all_sent (updates (send a id)) state.
Proof.
  intros Ha. destruct (peer (peers a) id) as [state|] eqn:Hp.
  2:{ unfold send. rewrite Hp. split; [exact Ha|]. split; [reflexivity|].
      intros id' state Hp' [->|H]; [congruence | exact H]. }
  pose proof Ha as [Hserver Hlog Hknown Hpeers].
  pose proof (Hpeers _ _ Hp) as Hinv.
  rewrite (send_eq _ _ _ Hp (inv_version _ _ _ _ Hinv)).
  cbn [updates serverDoc peers].
  set (out := sent_by (updates a) state).
  assert (Hout : Forall (fun u => clientID u = id) out).
  { apply sent_for_ids. apply Forall_skipn. apply (inv_ids _ _ _ _ Hinv). }
  assert (Hagree : tail_agrees id (unconfirmed (field_collab state))
                     (receive_loop (unconfirmed (field_collab state))
                        (skipn (version (field_collab state)) (updates a))) out /\
                   rl_own (fold_left (receive_step (unconfirmed (field_collab state)))
                             out
                             (receive_loop (unconfirmed (field_collab state))
                                (skipn (version (field_collab state)) (updates a)))) =
                   List.length (unconfirmed (field_collab state))).
  { unfold out, sent_by. cbv zeta.
    destruct (sent_for_agrees id (unconfirmed (field_collab state)) _
                (receive_loop (unconfirmed (field_collab state))
                   (skipn (version (field_collab state)) (updates a)))
                (inv_ids _ _ _ _ Hinv) eq_refl) as [H1 H2].
    split; [exact H1|]. rewrite H2, length_skipn.
    destruct (tail_describes _ _ _ _ Hlog Hinv) as [Hown _]. lia. }
  assert (Hskip : forall st, version (field_collab st) <= List.length (updates a) ->
            skipn (version (field_collab st)) (updates a ++ out) =
            skipn (version (field_collab st)) (updates a) ++ out).
  { intros st Hv. rewrite skipn_app.
    replace (version (field_collab st) - List.length (updates a)) with 0 by lia.
    reflexivity. }
  split; [constructor; cbn [updates serverDoc peers]|split; [reflexivity|]].
  - rewrite Hserver, map_app, apply_all_app. reflexivity.
  - rewrite map_app. apply all_fit_app. split; [exact Hlog|].
    apply (sent_by_fits _ _ id); assumption.
  - apply Forall_app. split; [exact Hknown|].
    eapply Forall_impl; [|exact Hout]. cbn. intros u ->. congruence.
  - intros id' state' Hp'. apply peer_inv_extend; [apply Hpeers; exact Hp'|].
    destruct (String.eqb_spec id' id) as [->|Hne].
    + assert (state' = state) by congruence. subst state'. apply Hagree.
    + apply tail_agrees_foreign.
      eapply Forall_impl; [|exact Hout]. cbn. intros u ->. congruence.
  - intros id' state' Hp' Hcase.
    pose proof (Hpeers _ _ Hp') as Hinv'.
    unfold all_sent. rewrite (Hskip _ (inv_version _ _ _ _ Hinv')).
    rewrite receive_loop_app.
    destruct (String.eqb_spec id' id) as [->|Hne].
    + assert (state' = state) by congruence. subst state'. apply Hagree.
    + destruct Hcase as [->|Hsent]; [contradiction|].
      rewrite (foreign_keep_own id'); [exact Hsent | apply (inv_ids _ _ _ _ Hinv') |].
      eapply Forall_impl; [|exact Hout]. cbn. intros u ->. congruence.
Qed.

(** *** Receiving *)

Lemma after_receive_doc state tail :
  doc (after_receive state tail) =
  match rc_changes (received state tail) with
  | Some c => apply c (doc state)
  | None => doc state
  end.
Proof.
  unfold after_receive, Transaction_state, EditorState_update, receiveUpdates.
  destruct (rc_changes (received state tail)); cbn; [reflexivity|].
  apply emptySet_apply.
Qed.

Lemma receive_state startDoc log id state :
  all_fit (List.map changes log) startDoc ->
  peer_inv startDoc log id state ->
  let state' := after_receive state (skipn (version (field_collab state)) log) in
  peer_inv startDoc log id state' /\
  version (field_collab state') = List.length log /\
  (all_sent log state -> unconfirmed (field_collab state') = []).
Proof.
  intros Hlog Hinv state'.
  destruct (tail_describes _ _ _ _ Hlog Hinv) as [Hown Hsem].
  pose proof Hinv as [Hcfg Hv Hids Hfit Hdoc Htail].
  assert (Hfield : field_collab state' =
            mkCollabState (rc_version (received state
                             (skipn (version (field_collab state)) log)))
              (rc_unconfirmed (received state
                                 (skipn (version (field_collab state)) log))))
    by apply received_field.
  assert (Hdoc' := after_receive_doc state (skipn (version (field_collab state)) log)).
  fold state' in Hdoc'.
  rewrite received_version, length_skipn in Hfield.
  replace (version (field_collab state) + (List.length log - version (field_collab state)))
    with (List.length log) in Hfield by lia.
  rewrite received_eq in Hfield, Hdoc'. cbv zeta in Hfield, Hdoc'.
  set (unconf := unconfirmed (field_collab state)) in *.
  set (loop := receive_loop unconf _) in *.
  set (base := apply_all (List.map changes (firstn _ log)) startDoc) in *.
  pose proof (rest_fits unconf base (rl_own loop) Hfit) as Hrestfit.
  pose proof (rest_applied unconf base (rl_own loop)) as Hrestdoc.
  rewrite <- Hdoc in Hrestdoc.
  assert (Hcid : cfg_clientID (facet_collabConfig state) = id)
    by (rewrite Hcfg; reflexivity).
  assert (Hsync : all_sent log state -> skipn (rl_own loop) unconf = []).
  { unfold all_sent. fold unconf. fold loop. intros ->. apply skipn_all. }
  assert (Hgoal :
    forall queue,
      field_collab state' = mkCollabState (List.length log) queue ->
      Forall (fun u => l_clientID u = id) queue ->
      all_fit (List.map l_changes queue) (apply_all (List.map changes log) startDoc) ->
      doc state' =
        apply_all (List.map l_changes queue) (apply_all (List.map changes log) startDoc) ->
      peer_inv startDoc log id state').
  { intros queue Hf Hq1 Hq2 Hq3.
    constructor; rewrite ?Hf; cbn [version unconfirmed];
      rewrite ?firstn_all, ?skipn_all; try assumption; [lia | exact I]. }
  destruct (skipn (rl_own loop) unconf) as [|u r] eqn:Hrest.
  - cbn [rc_changes] in Hdoc'. cbn [List.map apply_all fold_left] in Hrestdoc.
    split; [|split; [rewrite Hfield; reflexivity | intros _; rewrite Hfield; reflexivity]].
    apply (Hgoal []); [exact Hfield | constructor | exact I |].
    rewrite Hdoc'. cbn [List.map apply_all fold_left].
    destruct (rl_changes loop) as [c|].
    + destruct Hsem as [_ ->]. rewrite Hrestdoc. reflexivity.
    + rewrite Hsem. exact Hrestdoc.
  - split; [|split; [rewrite Hfield; reflexivity |
                     intros Hs; specialize (Hsync Hs); discriminate]].
    destruct (rl_changes loop) as [c|]; cbn [rc_changes rc_unconfirmed] in Hdoc', Hfield.
    + destruct Hsem as [Hc Hserver].
      destruct (rebase_locals_applies id (u :: r) c _ Hc Hrestfit) as (R1 & R2 & R3).
      rewrite Hcid in Hfield, Hdoc'.
      apply (Hgoal _ Hfield).
      * apply rebase_locals_ids.
      * rewrite Hserver. exact R1.
      * rewrite Hdoc', Hserver, R3, Hrestdoc. reflexivity.
    + apply (Hgoal _ Hfield).
      * rewrite <- Hrest. apply Forall_skipn. exact Hids.
      * rewrite Hsem. exact Hrestfit.
      * rewrite Hdoc', Hsem. exact Hrestdoc.
Qed.

Lemma receive_keeps_inv startDoc a id :
  authority_inv startDoc a ->
  authority_inv startDoc (receive a id) /\
  updates (receive a id) = updates a /\
  serverDoc (receive a id) = serverDoc a /\
  List.map fst (peers (receive a id)) = List.map fst (peers a) /\
  (forall id', id' <> id -> peer (peers (receive a id)) id' = peer (peers a) id') /\
  (forall state, peer (peers a) id = Some state ->
     exists state', peer (peers (receive a id)) id = Some state' /\
       (all_sent (updates a) state -> in_sync a state')).
Proof.
  intros Ha. pose proof Ha as [Hserver Hlog Hknown Hpeers].
  destruct (peer (peers a) id) as [state|] eqn:Hp.
  2:{ unfold receive. rewrite Hp. repeat (split; [tauto|]). discriminate. }
  pose proof (Hpeers _ _ Hp) as Hinv.
  destruct (receive_state _ _ _ _ Hlog Hinv) as (Hinv' & Hv' & Hq').
  unfold receive. rewrite Hp. unfold getSyncedVersion.
  destruct (Nat.ltb_spec (version (field_collab state)) (List.length (updates a)))
    as [Hlt|Hge].
  - fold (after_receive state (skipn (version (field_collab state)) (updates a))).
    set (state' := after_receive state _) in *.
    cbn [updates serverDoc peers].
    split; [constructor; cbn [updates serverDoc peers]; try assumption|].
    + eapply Forall_impl; [|exact Hknown]. cbn. intros u Hu.
      destruct (String.eqb_spec (clientID u) id) as [->|Hne].
      * rewrite peer_set_same. discriminate.
      * rewrite peer_set_other by exact Hne. exact Hu.
    + intros id' st Hst.
      destruct (String.eqb_spec id' id) as [->|Hne].
      * rewrite peer_set_same in Hst. injection Hst as <-. exact Hinv'.
      * rewrite peer_set_other in Hst by exact Hne. apply Hpeers. exact Hst.
    + split; [reflexivity|]. split; [reflexivity|].
      split; [apply keys_set_peer; congruence|].
      split; [intros id' Hne; apply peer_set_other; exact Hne|].
      intros st [= <-]. exists state'. split; [apply peer_set_same|].
      intros Hs. split; [exact Hv' | apply Hq'; exact Hs].
  - split; [exact Ha|]. do 4 (split; [reflexivity|]).
    intros st [= <-]. exists state. split; [exact Hp|].
    intros Hs. pose proof (inv_version _ _ _ _ Hinv) as Hle.
    split; [lia|].
    unfold all_sent in Hs. rewrite skipn_all2 in Hs by lia. cbn in Hs.
    destruct (unconfirmed (field_collab state)); [reflexivity | discriminate].
Qed.

(** *** Local edits and new peers *)

Lemma local_edit_keeps_inv startDoc log id state t :
  peer_inv startDoc log id state -> local_edit state t ->
  peer_inv startDoc log id (Transaction_state state t).
Proof.
  intros [Hcfg Hv Hids Hfit Hdoc Htail] [Hann Hlen].
  assert (Hfits : fits (tr_changes t) (doc state)) by exact Hlen.
  unfold Transaction_state.
  rewrite (collabField_update_local _ _ _ Hann), Hcfg. cbn [sharedEffects nonempty orb cfg_clientID].
  destruct (ChangeDesc_empty (desc (tr_changes t))) eqn:Hempty; cbn [negb].
  - constructor; cbn [doc field_collab facet_collabConfig];
      try assumption; try reflexivity.
    rewrite (empty_apply _ _ Hfits Hempty). exact Hdoc.
  - constructor; cbn [doc field_collab facet_collabConfig version unconfirmed];
      try assumption; try reflexivity.
    + apply Forall_app. split; [exact Hids | constructor; [reflexivity|constructor]].
    + rewrite map_app. apply all_fit_app. split; [exact Hfit|].
      cbn. rewrite <- Hdoc. split; [exact Hfits | exact I].
    + rewrite map_app, apply_all_app, <- Hdoc. reflexivity.
    + apply tail_agrees_grow; [exact Hids | reflexivity | exact Htail].
Qed.

Lemma set_peer_keeps_inv startDoc a id state' :
  authority_inv startDoc a ->
  peer_inv startDoc (updates a) id state' ->
  authority_inv startDoc
    (mkAuthority (updates a) (serverDoc a) (set_peer (peers a) id state')).
Proof.
  intros [Hserver Hlog Hknown Hpeers] Hnew.
  constructor; cbn [updates serverDoc peers]; try assumption.
  - eapply Forall_impl; [|exact Hknown]. cbn. intros u Hu.
    destruct (String.eqb_spec (clientID u) id) as [->|Hne].
    + rewrite peer_set_same. discriminate.
    + rewrite peer_set_other by exact Hne. exact Hu.
  - intros id' st Hst.
    destruct (String.eqb_spec id' id) as [->|Hne].
    + rewrite peer_set_same in Hst. injection Hst as <-. exact Hnew.
    + rewrite peer_set_other in Hst by exact Hne. apply Hpeers. exact Hst.
Qed.

Lemma create_peer_inv startDoc a id :
  authority_inv startDoc a -> peer (peers a) id = None ->
  peer_inv startDoc (updates a) id (create_peer startDoc id).
Proof.
  intros [Hserver Hlog Hknown Hpeers] Hnone.
  constructor; cbn; try reflexivity; try exact I; try lia; try constructor.
  apply tail_agrees_foreign.
  eapply Forall_impl; [|exact Hknown]. cbn. intros u Hu E.
  rewrite E in Hu. contradiction.
Qed.

Lemma run_event_keeps_inv startDoc a e :
  authority_inv startDoc a ->
  match e with
  | ev_tr id f =>
      let state := match peer (peers a) id with
                   | Some s => s
                   | None => create_peer startDoc id
                   end in
      local_edit state (f state)
  | _ => True
  end ->
  authority_inv startDoc (run_event startDoc a e).
Proof.
  intros Ha He. unfold run_event.
  set (a' := match peer (peers a) (event_id e) with
             | Some _ => a
             | None => mkAuthority (updates a) (serverDoc a)
                         (set_peer (peers a) (event_id e)
                            (create_peer startDoc (event_id e)))
             end).
  assert (Ha' : authority_inv startDoc a').
  { unfold a'. destruct (peer (peers a) (event_id e)) eqn:Hp; [exact Ha|].
    apply set_peer_keeps_inv; [exact Ha|]. apply create_peer_inv; assumption. }
  destruct e as [id|id|id f]; cbn [event_id] in *.
  - apply send_keeps_inv. exact Ha'.
  - apply receive_keeps_inv. exact Ha'.
  - assert (Hstate : peer (peers a') id =
                     Some match peer (peers a) id with
                          | Some s => s
                          | None => create_peer startDoc id
                          end).
    { unfold a'. destruct (peer (peers a) id) eqn:Hp; [exact Hp|].
      cbn. apply peer_set_same. }
    rewrite Hstate. cbv zeta in He.
    replace (updates a') with (updates a) in *
      by (unfold a'; destruct (peer (peers a) id); reflexivity).
    assert (Hup : updates a' = updates a)
      by (unfold a'; destruct (peer (peers a) id); reflexivity).
    rewrite <- Hup.
    apply set_peer_keeps_inv; [exact Ha'|].
    apply local_edit_keeps_inv; [|exact He].
    apply (inv_peers _ _ Ha'). exact Hstate.
Qed.

Lemma run_events_keep_inv startDoc events : forall a,
  authority_inv startDoc a -> local_edits startDoc a events ->
  authority_inv startDoc (fold_left (run_event startDoc) events a).
Proof.
  induction events as [|e r IH]; intros a Ha He; [exact Ha|].
  cbn [fold_left]. cbn [local_edits] in He. destruct He as [He Hr].
  apply IH; [|exact Hr].
  apply run_event_keeps_inv; [exact Ha|].
  destruct e; [exact I|exact I|exact He].
Qed.

Lemma start_inv startDoc : authority_inv startDoc (mkAuthority [] startDoc []).
Proof.
  constructor; cbn [updates serverDoc peers List.map all_fit peer].
  - reflexivity.
  - exact I.
  - constructor.
  - intros i st H. discriminate.
Qed.

(** *** The end of the test: everybody sends, then everybody receives *)

Lemma send_all_keeps_inv startDoc keys : forall a,
  authority_inv startDoc a ->
  authority_inv startDoc (fold_left send keys a) /\
  peers (fold_left send keys a) = peers a /\
  forall id state, peer (peers a) id = Some state ->
    In id keys \/ all_sent (updates a) state ->
    all_sent (updates (fold_left send keys a)) state.
Proof.
  induction keys as [|k r IH]; intros a Ha.
  - cbn. split; [exact Ha|]. split; [reflexivity|].
    intros id state _ [[]|H]. exact H.
  - cbn [fold_left].
    destruct (send_keeps_inv startDoc a k Ha) as (Ha1 & Hp1 & Hs1).
    destruct (IH (send a k) Ha1) as (Ha' & Hp' & Hs').
    split; [exact Ha'|]. split; [congruence|].
    intros id state Hp Hcase.
    apply (Hs' id state); [rewrite Hp1; exact Hp|].
    destruct Hcase as [[->|Hin]|Hsent].
    + right. apply (Hs1 id state); [exact Hp | left; reflexivity].
    + left. exact Hin.
    + right. apply (Hs1 id state); [exact Hp | right; exact Hsent].
Qed.

Lemma in_sync_all_sent a state : in_sync a state -> all_sent (updates a) state.
Proof.
  intros [Hv Hq]. unfold all_sent. rewrite Hq, Hv, skipn_all. reflexivity.
Qed.

Lemma receive_all_syncs startDoc keys : forall a,
  authority_inv startDoc a ->
  (forall id state, peer (peers a) id = Some state -> all_sent (updates a) state) ->
  authority_inv startDoc (fold_left receive keys a) /\
  updates (fold_left receive keys a) = updates a /\
  serverDoc (fold_left receive keys a) = serverDoc a /\
  List.map fst (peers (fold_left receive keys a)) = List.map fst (peers a) /\
  forall id state', peer (peers (fold_left receive keys a)) id = Some state' ->
    In id keys \/
    (exists state, peer (peers a) id = Some state /\ in_sync a state) ->
    in_sync (fold_left receive keys a) state'.
Proof.
  induction keys as [|k r IH]; intros a Ha Hsent.
  - cbn. split; [exact Ha|]. do 3 (split; [reflexivity|]).
    intros id state' Hp [[]|(state & Hp0 & Hs)]. congruence.
  - cbn [fold_left].
    destruct (receive_keeps_inv startDoc a k Ha)
      as (Ha1 & Hu1 & Hd1 & Hk1 & Ho1 & Hr1).
    assert (Hsync1 : forall state, in_sync a state -> in_sync (receive a k) state).
    { intros state [Hv Hq]. split; [rewrite Hu1; exact Hv | exact Hq]. }
    assert (Hsent1 : forall id state, peer (peers (receive a k)) id = Some state ->
                       all_sent (updates (receive a k)) state).
    { intros id state Hp.
      destruct (String.eqb_spec id k) as [->|Hne].
      - destruct (peer (peers a) k) as [st|] eqn:Hpk.
        + destruct (Hr1 st eq_refl) as (st' & Hst' & Hin).
          assert (state = st') by congruence. subst st'.
          apply in_sync_all_sent, Hsync1, Hin, (Hsent k). exact Hpk.
        + exfalso. assert (Hin : In k (List.map fst (peers (receive a k)))).
          { apply peer_key. congruence. }
          rewrite Hk1 in Hin. apply peer_key in Hin. contradiction.
      - rewrite Hu1. apply (Hsent id). rewrite <- (Ho1 id Hne). exact Hp. }
    destruct (IH (receive a k) Ha1 Hsent1) as (Ha' & Hu' & Hd' & Hk' & Hs').
    split; [exact Ha'|]. split; [congruence|]. split; [congruence|].
    split; [congruence|].
    intros id state' Hp Hcase.
    apply (Hs' id state' Hp).
    destruct (String.eqb_spec id k) as [->|Hne].
    + right.
      destruct (peer (peers a) k) as [st|] eqn:Hpk.
      * destruct (Hr1 st eq_refl) as (st' & Hst' & Hin).
        exists st'. split; [exact Hst'|].
        apply Hsync1, Hin, (Hsent k). exact Hpk.
      * exfalso. assert (Hin : In k (List.map fst (peers (fold_left receive r (receive a k))))).
        { apply peer_key. congruence. }
        rewrite Hk', Hk1 in Hin. apply peer_key in Hin. contradiction.
    + destruct Hcase as [[->|Hin]|(state & Hp0 & Hs)].
      * contradiction.
      * left. exact Hin.
      * right. exists state. split; [rewrite (Ho1 id Hne); exact Hp0|].
        apply Hsync1. exact Hs.
Qed.



End Convergence.

(** ** The text instance satisfies the contract *)

Module TextLaws.
Import TextModel.

Lemma span_erase (c : list (op ascii)) : span (List.map erase c) = span c.
Proof. induction c as [|[x| |] r IH]; cbn; congruence. Qed.

Lemma grown_erase (c : list (op ascii)) : grown (List.map erase c) = grown c.
Proof. induction c as [|[x| |] r IH]; cbn; congruence. Qed.

Lemma applyOps_length c : forall d,
  span c = String.length d -> String.length (applyOps c d) = grown c.
Proof.
  induction c as [|[x| |] r IH]; intros d H; cbn in *.
  - symmetry. exact H.
  - f_equal. apply IH. exact H.
  - destruct d as [|h t]; [discriminate|]. cbn in *. f_equal. apply IH. lia.
  - destruct d as [|h t]; [discriminate|]. cbn in *. apply IH. lia.
Qed.

(** Induction on the two changes that [mapOps] and [composeOps] walk. *)
Ltac by_size IH :=
  match goal with
  | |- context [mapOps ?a ?b _] =>
      eapply (IH (List.length a + List.length b)
                ltac:(cbn [List.length]; lia) a b);
      [reflexivity | ..]
  | |- context [composeOps ?a ?b] =>
      eapply (IH (List.length a + List.length b)
                ltac:(cbn [List.length]; lia) a b);
      [reflexivity | ..]
  end.

Lemma mapOps_desc (a : list (op ascii)) (b : list (op unit)) side :
  List.map erase (mapOps a b side) = mapOps (List.map erase a) b side.
Proof.
  remember (List.length a + List.length b) as n eqn:Hn.
  revert a b side Hn. induction n as [n IH] using lt_wf_ind. intros a b side Hn.
  subst n.
  destruct a as [|[x| |] a']; destruct b as [|[y| |] b']; destruct side;
    cbn [List.map erase]; simp mapOps; cbn [List.map erase];
    try reflexivity; try f_equal; try reflexivity; by_size IH.
Qed.

Lemma composeOps_desc (a b : list (op ascii)) :
  List.map erase (composeOps a b) =
  composeOps (List.map erase a) (List.map erase b).
Proof.
  remember (List.length a + List.length b) as n eqn:Hn.
  revert a b Hn. induction n as [n IH] using lt_wf_ind. intros a b Hn.
  subst n.
  destruct a as [|[x| |] a']; destruct b as [|[y| |] b'];
    cbn [List.map erase]; simp composeOps; cbn [List.map erase];
    try reflexivity; try f_equal; try reflexivity; by_size IH.
Qed.

Lemma mapOps_span {A B : Type} (a : list (op A)) (b : list (op B)) side :
  span a = span b -> span (mapOps a b side) = grown b.
Proof.
  remember (List.length a + List.length b) as n eqn:Hn.
  revert a b side Hn. induction n as [n IH] using lt_wf_ind. intros a b side Hn H.
  subst n.
  destruct a as [|[x| |] a']; destruct b as [|[y| |] b']; destruct side;
    cbn [span grown] in *; simp mapOps; cbn [span grown];
    try reflexivity; try lia;
    try (by_size IH; cbn [span]; lia);
    try (f_equal; by_size IH; cbn [span]; lia).
Qed.

Lemma composeOps_span {A : Type} (a b : list (op A)) :
  grown a = span b -> span (composeOps a b) = span a.
Proof.
  remember (List.length a + List.length b) as n eqn:Hn.
  revert a b Hn. induction n as [n IH] using lt_wf_ind. intros a b Hn H.
  subst n.
  destruct a as [|[x| |] a']; destruct b as [|[y| |] b'];
    cbn [span grown] in *; simp composeOps; cbn [span grown];
    try reflexivity; try lia;
    try (by_size IH; cbn [span grown]; lia);
    try (f_equal; by_size IH; cbn [span grown]; lia).
Qed.

Lemma composeOps_applies (a b : list (op ascii)) : forall d,
  span a = String.length d -> grown a = span b ->
  applyOps (composeOps a b) d = applyOps b (applyOps a d).
Proof.
  remember (List.length a + List.length b) as n eqn:Hn.
  revert a b Hn. induction n as [n IH] using lt_wf_ind. intros a b Hn d H1 H2.
  subst n.
  destruct a as [|[x| |] a']; destruct b as [|[y| |] b']; destruct d as [|h t];
    cbn [span grown String.length] in H1, H2; try (exfalso; lia);
    simp composeOps; cbn [applyOps];
    try reflexivity;
    try (by_size IH; cbn [span grown String.length]; lia);
    try (f_equal; by_size IH; cbn [span grown String.length]; lia).
Qed.

(** The induction step of [mapOps_applies]: the goal is the claim for
    smaller changes [a] and [b] and the document [d] found in it. *)
Ltac by_smaller IH :=
  match goal with
  | |- applyOps (mapOps ?a _ false) (applyOps ?b ?d) =
       applyOps (mapOps ?b _ true) _ =>
      apply (IH (List.length a + List.length b)
               ltac:(cbn [List.length]; lia) a b eq_refl d)
  | |- applyOps (mapOps ?a _ false) _ =
       applyOps (mapOps ?b _ true) (applyOps ?a ?d) =>
      apply (IH (List.length a + List.length b)
               ltac:(cbn [List.length]; lia) a b eq_refl d)
  | |- applyOps (mapOps ?a _ false) _ = applyOps (mapOps ?b _ true) _ =>
      apply (IH (List.length a + List.length b)
               ltac:(cbn [List.length]; lia) a b eq_refl EmptyString)
  end; cbn [span String.length]; lia.

(** Two changes of the same document, each mapped over the other with
    opposite sides, lead to the same document. *)
Lemma mapOps_applies (a b : list (op ascii)) : forall d,
  span a = String.length d -> span b = String.length d ->
  applyOps (mapOps a (List.map erase b) false) (applyOps b d) =
  applyOps (mapOps b (List.map erase a) true) (applyOps a d).
Proof.
  remember (List.length a + List.length b) as n eqn:Hn.
  revert a b Hn. induction n as [n IH] using lt_wf_ind. intros a b Hn d H1 H2.
  subst n.
  destruct a as [|[x| |] a']; destruct b as [|[y| |] b']; destruct d as [|h t];
    cbn [span String.length] in H1, H2; try (exfalso; lia);
    cbn [List.map erase]; simp mapOps; cbn [applyOps];
    try reflexivity;
    first [by_smaller IH | f_equal; by_smaller IH].
Qed.

Lemma keep_applies (c : list (op ascii)) : forall d,
  forallb is_keep (List.map erase c) = true -> applyOps c d = d.
Proof.
  induction c as [|[x| |] r IH]; intros d H; cbn in *; try discriminate.
  - reflexivity.
  - destruct d as [|h t]; [reflexivity|]. rewrite (IH t H). reflexivity.
Qed.

Lemma repeat_keep_applies d : applyOps (repeat Keep (String.length d)) d = d.
Proof. induction d as [|h t IH]; cbn; congruence. Qed.

(** The text instance keeps the contract that convergence rests on. *)
Lemma text_laws : @StateLaws text_lib.
Proof.
  constructor; unfold fits; cbn [text_lib desc ChangeDesc_length Text_length
    mapDesc composeDesc compose ChangeSet_map apply ChangeDesc_empty
    ChangeSet_empty].
  - intros a b side. apply mapOps_desc.
  - intros a b. apply composeOps_desc.
  - intros a b d Ha Hb. rewrite span_erase in *.
    rewrite (applyOps_length a d Ha) in Hb.
    split.
    + rewrite composeOps_span; [exact Ha | symmetry; exact Hb].
    + apply composeOps_applies; [exact Ha | symmetry; exact Hb].
  - intros a b d Ha Hb. rewrite !span_erase in *.
    rewrite (applyOps_length a d Ha), (applyOps_length b d Hb).
    split; [|split].
    + rewrite mapOps_span; [apply grown_erase | rewrite span_erase; congruence].
    + rewrite mapOps_span; [apply grown_erase | rewrite span_erase; congruence].
    + apply mapOps_applies; assumption.
  - intros c d _ H. apply keep_applies. exact H.
  - intros d. apply repeat_keep_applies.
Qed.

End TextLaws.

(** ** The properties at concrete inputs *)

Module Checks.
Import TextModel Examples.

(** The scenarios of the rebasing test end with the documents the test
    expects; the first two are the scenarios of the specification. *)
Example simple_case_converges :
  end_docs (run_test "bcd" simple_case) =
  ("abcde", [("a", "abcde"); ("b", "abcde")]).
Proof. reflexivity. Qed.

Example multiple_rebased_converges :
  end_docs (run_test "abc" multiple_rebased) =
  ("0abcde", [("a", "0abcde"); ("b", "0abcde")]).
Proof. reflexivity. Qed.

Example multiple_peer_changes_converge :
  end_docs (run_test "abc" multiple_peer_changes) =
  ("01abcde", [("a", "01abcde"); ("b", "01abcde")]).
Proof. reflexivity. Qed.

Example local_unconfirmed_converges :
  end_docs (run_test "x" local_unconfirmed) =
  ("0xyz", [("a", "0xyz"); ("b", "0xyz")]).
Proof. reflexivity. Qed.

Example multiple_local_unconfirmed_converge :
  end_docs (run_test "x" multiple_local_unconfirmed) =
  ("!x01yz", [("a", "!x01yz"); ("b", "!x01yz")]).
Proof. reflexivity. Qed.

Example sandwiched_converges :
  end_docs (run_test "-" sandwiched) =
  ("UVW-XY!Z", [("a", "UVW-XY!Z"); ("b", "UVW-XY!Z")]).
Proof. reflexivity. Qed.

Example in_flight_converges :
  end_docs (run_test "123" in_flight) =
  ("AB1XY2Z.3?", [("a", "AB1XY2Z.3?"); ("b", "AB1XY2Z.3?")]).
Proof. reflexivity. Qed.

Example on_top_of_each_other_converges :
  end_docs (run_test "abcde" on_top_of_each_other) =
  ("ay?yyxde", [("b", "ay?yyxde"); ("a", "ay?yyxde")]).
Proof. reflexivity. Qed.

Example echo_y_is_rebased :
  rebaseUpdates [asUpdate ours_y] [asAccepted foreign_x] = [echo_y].
Proof. reflexivity. Qed.

Example echo_late_is_rebased :
  rebaseUpdates [asUpdate ours_late] [asAccepted foreign_shift] = [echo_late].
Proof. reflexivity. Qed.

(** The keys that are array indices come first and in ascending order,
    the others follow in the order in which they were added. *)
Example for_in_order :
  for_in (List.map (fun id => (id, create_peer "" id))
            ["b"; "10"; "2"; "01"; "a"; "0"; "4294967295"]) =
  ["0"; "2"; "10"; "b"; "01"; "a"; "4294967295"].
Proof. reflexivity. Qed.


(** C2 as stated fails: client [a] receives [foreign_x] and then the
    echo of its own update; the echo step turns the collected foreign
    changes, the insertion of ["x"] at 1, into the insertion at 2. *)
Lemma own_echo_changes_foreign_script :
  let s := receive_loop [ours_y] [foreign_x] in
  is_own [ours_y] (rl_own s) echo_y = Some ours_y /\
  rl_changes s = Some [Keep; Ins "x"%char; Keep] /\
  rl_changes (receive_step [ours_y] s echo_y) =
    Some [Keep; Keep; Ins "x"%char; Keep] /\
  rl_changes (receive_step [ours_y] s echo_y) <> rl_changes s.
Proof.
  cbv zeta. split; [reflexivity|]. split; [reflexivity|].
  split; [reflexivity|]. vm_compute. discriminate.
Qed.

(** C2 (amended) at the same step. *)
Lemma own_echo_step_witness :
  let s := receive_loop [ours_y] [foreign_x] in
  is_own [ours_y] (rl_own s) echo_y = Some ours_y /\
  (rl_effects (receive_step [ours_y] s echo_y) =
     mapEffects (rl_effects s) (desc (changes echo_y)) /\
   rl_own (receive_step [ours_y] s echo_y) = S (rl_own s) /\
   rl_changes (receive_step [ours_y] s echo_y) =
     option_map (fun c => ChangeSet_map c (desc (l_changes ours_y)) true)
       (rl_changes s) /\
   forall chs effs,
     rl_changes (receive_step [ours_y] s (mkUpdate chs effs (clientID echo_y))) =
     rl_changes (receive_step [ours_y] s echo_y)).
Proof.
  cbv zeta.
  assert (H : is_own [ours_y] (rl_own (receive_loop [ours_y] [foreign_x])) echo_y
              = Some ours_y) by reflexivity.
  split; [exact H|].
  exact (own_echo_step [ours_y] (receive_loop [ours_y] [foreign_x]) echo_y ours_y H).
Defined.

(** C3 as stated fails: the authority accepted [foreign_shift] and
    then the rebased update of [a]; when [a] submits its update again,
    the collected changes are mapped over the update as [a] submitted
    it (an insertion at 3), not over the entry the authority holds (an
    insertion at 1, inside the range that [foreign_shift] deletes). *)
Lemma resubmission_maps_over_submitted :
  let updates := [asUpdate ours_late] in
  let s := rebase_loop updates [asAccepted foreign_shift] in
  let entry := asAccepted echo_late in
  is_resubmitted updates (rb_skip s) entry = Some (asUpdate ours_late) /\
  rb_changes (rebase_step updates s entry) =
    Some [Del; Del; Keep; Keep; Keep; Ins tt; Ins tt] /\
  option_map (fun c => mapDesc c (a_changes entry) true) (rb_changes s) =
    Some [Del; Keep; Del; Keep; Keep; Ins tt; Ins tt] /\
  rb_changes (rebase_step updates s entry) <>
    option_map (fun c => mapDesc c (a_changes entry) true) (rb_changes s).
Proof.
  cbv zeta. split; [reflexivity|]. split; [reflexivity|].
  split; [reflexivity|]. vm_compute. discriminate.
Qed.

(** C4 as stated fails: [a] holds [marked_y] and receives [foreign_x].
    The mark is mapped over the foreign insertion moved behind the
    local one, which leaves it on the ["a"]; mapped over the script the
    changes were rebased over it would end on the ["x"]. *)
Lemma effects_mapped_over_moved_script :
  List.map l_effects (rc_unconfirmed (received state_marked [foreign_x])) =
    [[mkMark 1 2]] /\
  List.map effects (rebaseUpdates [asUpdate marked_y] [asAccepted foreign_x]) =
    [Some [mkMark 1 2]] /\
  mapEffects (l_effects marked_y) (desc (changes foreign_x)) = [mkMark 2 3] /\
  List.map l_effects (rc_unconfirmed (received state_marked [foreign_x])) <>
    [mapEffects (l_effects marked_y) (desc (changes foreign_x))].
Proof.
  split; [reflexivity|]. split; [reflexivity|]. split; [reflexivity|].
  vm_compute. discriminate.
Qed.

(** C4 (amended) at the same input, for both functions. *)
Lemma remaining_updates_rebased_witness :
  let c := [Keep; Ins "x"%char; Keep] in
  let d := [Keep; Ins tt; Keep] in
  (nonempty (skipn (rl_own (receive_loop [marked_y] [foreign_x])) [marked_y])
     = true /\
   rl_changes (receive_loop [marked_y] [foreign_x]) = Some c /\
   nonempty [asUpdate marked_y] = true /\
   nonempty [asAccepted foreign_x] = true /\
   rb_changes (rebase_loop [asUpdate marked_y] [asAccepted foreign_x])
     = Some d) /\
  nth_error (rc_unconfirmed (received state_marked [foreign_x])) 0 =
    Some (mkLocalUpdate typed_y [Ins "y"%char; Keep; Keep; Keep]
            [mkMark 1 2] "a") /\
  nth_error (rebaseUpdates [asUpdate marked_y] [asAccepted foreign_x]) 0 =
    Some (mkUpdate [Ins "y"%char; Keep; Keep; Keep] (Some [mkMark 1 2]) "a").
Proof.
  cbv zeta.
  pose proof (@remaining_updates_rebased text_lib state_marked [foreign_x]
                [asUpdate marked_y] [asAccepted foreign_x]
                [Keep; Ins "x"%char; Keep] [Keep; Ins tt; Keep]
                eq_refl eq_refl eq_refl eq_refl eq_refl) as [[_ H1] H2].
  split; [repeat split; reflexivity|]. split.
  - exact (H1 0 marked_y eq_refl).
  - exact (H2 0 (asUpdate marked_y) eq_refl).
Defined.

(** C7 as stated fails: when [a], holding an unconfirmed insertion at
    the start of ["ab"], receives [foreign_marked], the loop collects
    the foreign insertion at 1 and the mark from 1 to 2, and the
    transaction carries neither: its changes insert at 2 and its mark
    runs from 2 to 3, both moved behind the local insertion. *)
Lemma transaction_carries_moved_script :
  let loop := receive_loop (unconfirmed (field_collab state_y))
                [foreign_marked] in
  let spec := receiveUpdates state_y [foreign_marked] in
  rl_changes loop = Some [Keep; Ins "x"%char; Keep] /\
  rl_effects loop = [mkMark 1 2] /\
  spec_changes spec = Some [Keep; Keep; Ins "x"%char; Keep] /\
  spec_effects spec = [mkMark 2 3] /\
  spec_changes spec <> rl_changes loop /\
  spec_effects spec <> rl_effects loop.
Proof.
  cbv zeta. do 4 (split; [reflexivity|]). split; discriminate.
Qed.

(** C8 at the local transaction [typed_y]. *)
Lemma local_edit_capture_witness :
  let cfg := mkCollabConfig 0 "a" (fun _ => []) in
  annotation_collabReceive (tr_annotations typed_y) = None /\
  version (collabField_update cfg (mkCollabState 0 []) typed_y) = 0 /\
  unconfirmed (collabField_update cfg (mkCollabState 0 []) typed_y) = [ours_y].
Proof.
  cbv zeta. split; [reflexivity|].
  exact (proj2 (@local_edit_capture text_lib (mkCollabConfig 0 "a" (fun _ => []))
                  (mkCollabState 0 []) typed_y eq_refl)
           (or_intror eq_refl)).
Defined.

(** C10 when [a] receives nothing but its own update. *)
Lemma no_changes_no_effects_witness :
  let own_only := [asUpdate ours_y] in
  let loop := receive_loop (unconfirmed (field_collab state_y)) own_only in
  rl_changes loop = None /\
  (rl_effects loop = [] /\ rl_own loop = List.length own_only /\
   rc_changes (received state_y own_only) = None /\
   rc_effects (received state_y own_only) = []).
Proof.
  cbv zeta. split; [reflexivity|].
  exact (@no_changes_no_effects text_lib state_y [asUpdate ours_y] eq_refl).
Defined.


End Checks.

(** * Further properties of collab.ts *)

(** ** Mapping effects *)

Section QueueFacts.
Context {L : StateLib}.

Lemma mapEffects_loop mapping effs : forall acc,
  fold_left (fun result e =>
               match StateEffect_map e mapping with
               | Some mapped => result ++ [mapped]
               | None => result
               end) effs acc =
  acc ++ flat_map (mapped_effect mapping) effs.
Proof.
  induction effs as [|e r IH]; intros acc; cbn [fold_left flat_map].
  - rewrite app_nil_r. reflexivity.
  - rewrite IH. unfold mapped_effect at 2.
    destruct (StateEffect_map e mapping); cbn [app].
    + rewrite <- app_assoc. reflexivity.
    + reflexivity.
Qed.

Lemma mapEffects_flat effs mapping :
  mapEffects effs mapping = flat_map (mapped_effect mapping) effs.
Proof.
  unfold mapEffects. destruct effs as [|e r]; [reflexivity|].
  cbn [nonempty]. rewrite mapEffects_loop. reflexivity.
Qed.

Lemma mapEffects_app effs more mapping :
  mapEffects (effs ++ more) mapping =
  mapEffects effs mapping ++ mapEffects more mapping.
Proof. rewrite !mapEffects_flat. apply flat_map_app. Qed.

Lemma mapEffects_length effs mapping :
  List.length (mapEffects effs mapping) <= List.length effs.
Proof.
  rewrite mapEffects_flat. induction effs as [|e r IH]; [apply Nat.le_refl|].
  cbn [flat_map]. rewrite length_app. unfold mapped_effect at 1.
  destruct (StateEffect_map e mapping); cbn [List.length]; lia.
Qed.

(** X1. [mapEffects] works effect by effect: the result holds, in the
    order of the input, the mapped value of every effect whose [map]
    returns one, and nothing for the others.  So it distributes over
    concatenation and never returns more effects than it was given. *)
Theorem mapEffects_elementwise effs more mapping :
  mapEffects effs mapping = flat_map (mapped_effect mapping) effs /\
  mapEffects (effs ++ more) mapping =
    mapEffects effs mapping ++ mapEffects more mapping /\
  List.length (mapEffects effs mapping) <= List.length effs.
Proof.
  split; [apply mapEffects_flat|].
  split; [apply mapEffects_app | apply mapEffects_length].
Qed.

(** ** How many updates the two functions drop *)

Lemma count_id_cons id x ids :
  count_id id (x :: ids) =
  if string_dec x id then S (count_id id ids) else count_id id ids.
Proof. unfold count_id. cbn [count_occ]. destruct (string_dec x id); reflexivity. Qed.

(** Each iteration moves a cursor by at most one, and only while it is
    inside the array it indexes. *)
Lemma receive_loop_bound unconf tail : forall s,
  rl_own s <= List.length unconf ->
  rl_own (fold_left (receive_step unconf) tail s) <= List.length unconf /\
  rl_own (fold_left (receive_step unconf) tail s) <= rl_own s + List.length tail.
Proof.
  induction tail as [|u r IH]; intros s Hle; [cbn; lia|].
  cbn [fold_left List.length].
  destruct (is_own unconf (rl_own s) u) as [ours|] eqn:E.
  - rewrite (receive_step_own _ _ _ _ E).
    apply is_own_iff in E. destruct E as (Hlt & _).
    destruct (IH (mkReceiveLoop
                    (option_map
                       (fun c => ChangeSet_map c (desc (l_changes ours)) true)
                       (rl_changes s))
                    (mapEffects (rl_effects s) (desc (changes u)))
                    (S (rl_own s)))) as [H1 H2]; [cbn; lia|].
    cbn [rl_own] in H2. split; [exact H1 | lia].
  - rewrite (receive_step_foreign _ _ _ E).
    match goal with |- context [fold_left _ r ?s'] =>
      destruct (IH s') as [H1 H2]; [cbn; lia|] end.
    cbn [rl_own] in H2. split; [exact H1 | lia].
Qed.

Lemma rebase_loop_bound updates over : forall s,
  rb_skip s <= List.length updates ->
  rb_skip (fold_left (rebase_step updates) over s) <= List.length updates /\
  rb_skip (fold_left (rebase_step updates) over s) <= rb_skip s + List.length over.
Proof.
  induction over as [|u r IH]; intros s Hle; [cbn; lia|].
  cbn [fold_left List.length]. unfold rebase_step at 2 4.
  destruct (is_resubmitted updates (rb_skip s) u) as [other|] eqn:E.
  - apply is_resubmitted_iff in E. destruct E as (Hlt & _).
    match goal with |- context [fold_left _ r ?s'] =>
      destruct (IH s') as [H1 H2]; [cbn; lia|] end.
    cbn [rb_skip] in H2. split; [exact H1 | lia].
  - match goal with |- context [fold_left _ r ?s'] =>
      destruct (IH s') as [H1 H2]; [cbn; lia|] end.
    cbn [rb_skip] in H2. split; [exact H1 | lia].
Qed.

(** X2. The cursors stay in range: the number of updates that
    [receiveUpdates] takes as the client's own is at most the length of
    the unconfirmed queue and at most the size of the batch, and the
    number of updates that [rebaseUpdates] skips is at most the number
    of submitted updates and at most the length of [over]. *)
Theorem cursors_stay_in_range unconf batch updates over :
  rl_own (receive_loop unconf batch) <=
    Nat.min (List.length unconf) (List.length batch) /\
  rb_skip (rebase_loop updates over) <=
    Nat.min (List.length updates) (List.length over).
Proof.
  unfold receive_loop, rebase_loop.
  destruct (receive_loop_bound unconf batch (mkReceiveLoop None [] 0))
    as [H1 H2]; [cbn; lia|].
  destruct (rebase_loop_bound updates over (mkRebaseLoop None 0))
    as [H3 H4]; [cbn; lia|].
  cbn [rl_own rb_skip] in *. lia.
Qed.

(** The cursor of [receiveUpdates] counts the updates that carry the
    client's id, up to the length of the queue. *)
Lemma receive_loop_owns cid unconf tail : forall s,
  Forall (fun u => l_clientID u = cid) unconf ->
  rl_own s <= List.length unconf ->
  rl_own (fold_left (receive_step unconf) tail s) =
  Nat.min (List.length unconf)
          (rl_own s + count_id cid (List.map clientID tail)).
Proof.
  induction tail as [|u r IH]; intros s Hids Hle.
  - cbn. rewrite Nat.add_0_r. lia.
  - cbn [fold_left List.map]. rewrite count_id_cons.
    destruct (is_own unconf (rl_own s) u) as [ours|] eqn:E.
    + rewrite (receive_step_own _ _ _ _ E).
      apply is_own_iff in E. destruct E as (Hlt & Hn & Hid).
      assert (Hc : l_clientID ours = cid).
      { apply nth_error_In in Hn.
        exact (proj1 (Forall_forall _ _) Hids _ Hn). }
      rewrite IH; [|exact Hids | cbn [rl_own]; lia].
      cbn [rl_own].
      destruct (string_dec (clientID u) cid); [lia | congruence].
    + rewrite (receive_step_foreign _ _ _ E).
      rewrite IH; [|exact Hids | cbn [rl_own]; lia].
      cbn [rl_own].
      destruct (string_dec (clientID u) cid) as [Hc|Hc]; [|reflexivity].
      assert (Hge : rl_own s = List.length unconf).
      { destruct (Nat.lt_ge_cases (rl_own s) (List.length unconf)) as [Hlt|Hge];
          [|lia].
        destruct (nth_error unconf (rl_own s)) as [o|] eqn:Hn.
        - assert (Ho : l_clientID o = cid).
          { apply nth_error_In in Hn.
            exact (proj1 (Forall_forall _ _) Hids _ Hn). }
          assert (E' : is_own unconf (rl_own s) u = Some o).
          { apply is_own_iff. repeat split; [exact Hlt | exact Hn | congruence]. }
          congruence.
        - apply nth_error_None in Hn. lia. }
      lia.
Qed.

(** The same for the cursor of [rebaseUpdates]. *)
Lemma rebase_loop_skips cid updates over : forall s,
  Forall (fun u => clientID u = cid) updates ->
  rb_skip s <= List.length updates ->
  rb_skip (fold_left (rebase_step updates) over s) =
  Nat.min (List.length updates)
          (rb_skip s + count_id cid (List.map a_clientID over)).
Proof.
  induction over as [|u r IH]; intros s Hids Hle.
  - cbn. rewrite Nat.add_0_r. lia.
  - cbn [fold_left List.map]. rewrite count_id_cons.
    unfold rebase_step at 2.
    destruct (is_resubmitted updates (rb_skip s) u) as [other|] eqn:E.
    + apply is_resubmitted_iff in E. destruct E as (Hlt & Hn & Hid).
      assert (Hc : clientID other = cid).
      { apply nth_error_In in Hn.
        exact (proj1 (Forall_forall _ _) Hids _ Hn). }
      rewrite IH; [|exact Hids | cbn [rb_skip]; lia].
      cbn [rb_skip].
      destruct (string_dec (a_clientID u) cid); [lia | congruence].
    + rewrite IH; [|exact Hids | cbn [rb_skip]; lia].
      cbn [rb_skip].
      destruct (string_dec (a_clientID u) cid) as [Hc|Hc]; [|reflexivity].
      assert (Hge : rb_skip s = List.length updates).
      { destruct (Nat.lt_ge_cases (rb_skip s) (List.length updates)) as [Hlt|Hge];
          [|lia].
        destruct (nth_error updates (rb_skip s)) as [o|] eqn:Hn.
        - assert (Ho : clientID o = cid).
          { apply nth_error_In in Hn.
            exact (proj1 (Forall_forall _ _) Hids _ Hn). }
          assert (E' : is_resubmitted updates (rb_skip s) u = Some o).
          { apply is_resubmitted_iff.
            repeat split; [exact Hlt | exact Hn | congruence]. }
          congruence.
        - apply nth_error_None in Hn. lia. }
      lia.
Qed.

Lemma rebase_locals_length cid chs queue :
  List.length (snd (rebase_locals cid chs queue)) = List.length queue.
Proof. exact (Forall2_length (rebase_locals_stand_for cid chs queue)). Qed.

Lemma rebase_updates_length chs queue :
  List.length (snd (rebase_updates chs queue)) = List.length queue.
Proof. exact (Forall2_length (rebase_updates_stand_for chs queue)). Qed.

(** The queue that [receiveUpdates] leaves is as long as what the
    cursor did not pass. *)
Lemma received_queue_length state tail :
  List.length (rc_unconfirmed (received state tail)) =
  List.length (unconfirmed (field_collab state)) -
  rl_own (receive_loop (unconfirmed (field_collab state)) tail).
Proof.
  rewrite received_eq. cbv zeta.
  rewrite <- length_skipn.
  destruct (skipn _ (unconfirmed (field_collab state))) as [|u r] eqn:E;
    [reflexivity|].
  destruct (rl_changes _) as [c|]; cbn [rc_unconfirmed].
  - apply rebase_locals_length.
  - reflexivity.
Qed.

Lemma rebaseUpdates_length updates over :
  List.length (rebaseUpdates updates over) =
  List.length updates - rb_skip (rebase_loop updates over).
Proof.
  unfold rebaseUpdates.
  destruct (nonempty over) eqn:Ho; cbn [negb orb].
  - destruct (nonempty updates) eqn:Hu; cbn [negb].
    + rewrite slice_own, <- length_skipn.
      destruct (rb_changes _) as [c|];
        [apply rebase_updates_length | reflexivity].
    + destruct updates; [reflexivity | discriminate].
  - destruct over; [|discriminate]. cbn. lia.
Qed.

Lemma sendable_after_receive state tail :
  sendableUpdates (after_receive state tail) = rc_unconfirmed (received state tail).
Proof.
  unfold sendableUpdates, after_receive. rewrite received_field. reflexivity.
Qed.

(** X3. When every unconfirmed update carries the client's id, the
    queue that [receiveUpdates] leaves is shorter than the queue it
    found by the number of updates of the batch that carry this id
    (and empty when the batch has more of them). *)
Theorem receive_confirms_own cid state batch :
  Forall (fun u => l_clientID u = cid) (sendableUpdates state) ->
  List.length (sendableUpdates (after_receive state batch)) =
  List.length (sendableUpdates state) - count_id cid (List.map clientID batch).
Proof.
  intros Hids. rewrite sendable_after_receive, received_queue_length.
  unfold receive_loop, sendableUpdates in *.
  rewrite (receive_loop_owns cid _ _ _ Hids) by (cbn; lia).
  cbn [rl_own]. lia.
Qed.

(** X4. When every submitted update carries the same client id,
    [rebaseUpdates] returns as many updates as were submitted, less
    the number of entries of [over] that carry this id (and none when
    [over] has more of them). *)
Theorem rebase_drops_accepted cid updates over :
  Forall (fun u => clientID u = cid) updates ->
  List.length (rebaseUpdates updates over) =
  List.length updates - count_id cid (List.map a_clientID over).
Proof.
  intros Hids. rewrite rebaseUpdates_length. unfold rebase_loop.
  rewrite (rebase_loop_skips cid _ _ _ Hids) by (cbn; lia).
  cbn [rb_skip]. lia.
Qed.

(** What [rebaseUpdates] returns carries, one by one, the client ids
    of the submitted updates that the cursor did not pass. *)
Lemma rebase_updates_client_ids chs queue :
  List.map clientID (snd (rebase_updates chs queue)) = List.map clientID queue.
Proof.
  revert chs. induction queue as [|u r IH]; intros chs; [reflexivity|].
  cbn [rebase_updates]. unfold rebase_update. cbv beta iota zeta.
  specialize (IH (mapDesc chs (desc (changes u)) true)).
  destruct (rebase_updates (mapDesc chs (desc (changes u)) true) r) as [c2 r'].
  cbn [snd List.map clientID] in *. rewrite IH. reflexivity.
Qed.

Lemma rebaseUpdates_client_ids updates over :
  List.map clientID (rebaseUpdates updates over) =
  List.map clientID (skipn (rb_skip (rebase_loop updates over)) updates).
Proof.
  unfold rebaseUpdates.
  destruct (nonempty over) eqn:Ho; cbn [negb orb].
  - destruct (nonempty updates) eqn:Hu; cbn [negb].
    + rewrite slice_own.
      destruct (rb_changes _) as [c|];
        [apply rebase_updates_client_ids | reflexivity].
    + destruct updates; [|discriminate]. rewrite skipn_nil. reflexivity.
  - destruct over; [|discriminate]. reflexivity.
Qed.

(** Entries that match the submitted updates from the cursor on, one
    by one, move the cursor past them, whatever was collected. *)
Lemma resubmitted_cursor updates over : forall s,
  List.map clientID (firstn (List.length over) (skipn (rb_skip s) updates)) =
    List.map a_clientID over ->
  rb_skip (fold_left (rebase_step updates) over s) = rb_skip s + List.length over.
Proof.
  induction over as [|u r IH]; intros s H.
  - cbn. lia.
  - cbn [List.length firstn] in H.
    destruct (skipn (rb_skip s) updates) as [|o q] eqn:E; [discriminate|].
    cbn [List.map] in H. injection H as Hid Hrest.
    assert (Hn : nth_error updates (rb_skip s) = Some o).
    { rewrite <- (firstn_skipn (rb_skip s) updates) at 1.
      assert (Hlen : List.length (firstn (rb_skip s) updates) = rb_skip s).
      { apply firstn_length_le.
        destruct (Nat.le_gt_cases (rb_skip s) (List.length updates)) as [Hle|Hgt];
          [exact Hle|].
        rewrite skipn_all2 in E by lia. discriminate. }
      rewrite nth_error_app2 by lia. rewrite Hlen, Nat.sub_diag, E. reflexivity. }
    assert (Hq : skipn (S (rb_skip s)) updates = q).
    { change (S (rb_skip s)) with (1 + rb_skip s).
      rewrite <- skipn_skipn, E. reflexivity. }
    assert (Hre : is_resubmitted updates (rb_skip s) u = Some o).
    { apply is_resubmitted_iff. split; [|split; assumption].
      apply nth_error_Some. congruence. }
    cbn [fold_left]. unfold rebase_step at 2. rewrite Hre.
    rewrite IH by (cbn [rb_skip]; rewrite Hq; exact Hrest).
    cbn [rb_skip List.length]. lia.
Qed.

(** The cursor of [rebaseUpdates] never moves back. *)
Lemma rebase_loop_grows updates over : forall s,
  rb_skip s <= rb_skip (fold_left (rebase_step updates) over s).
Proof.
  induction over as [|u r IH]; intros s; [cbn; lia|].
  cbn [fold_left]. etransitivity; [|apply IH].
  unfold rebase_step. destruct (is_resubmitted _ _ _); cbn [rb_skip]; lia.
Qed.

(** X5. Submitting a batch again is harmless: when the log since the
    client's version holds what [rebaseUpdates] returned for the batch
    the first time, whatever came before and after it, [rebaseUpdates]
    returns nothing for the same batch. *)
Theorem resubmission_is_dropped updates over later :
  rebaseUpdates updates
    (over ++ List.map asAccepted (rebaseUpdates updates over) ++ later) = [].
Proof.
  apply length_zero_iff_nil.
  rewrite rebaseUpdates_length. unfold rebase_loop at 1.
  rewrite !fold_left_app. fold (rebase_loop updates over).
  pose proof (rebase_loop_bound updates over (mkRebaseLoop None 0)
                (Nat.le_0_l _)) as [Hle _].
  fold (rebase_loop updates over) in Hle.
  pose proof (rebase_loop_grows updates later
                (fold_left (rebase_step updates)
                   (List.map asAccepted (rebaseUpdates updates over))
                   (rebase_loop updates over))) as Hgrow.
  rewrite resubmitted_cursor in Hgrow.
  - rewrite length_map, rebaseUpdates_length in Hgrow. lia.
  - rewrite length_map, rebaseUpdates_length, map_map.
    change (fun x => a_clientID (asAccepted x)) with clientID.
    rewrite rebaseUpdates_client_ids.
    rewrite firstn_all2; [reflexivity|]. rewrite length_skipn. lia.
Qed.

(** ** Batches of one kind *)

Lemma skipn_cons_nth {A : Type} (l : list A) k x q :
  skipn k l = x :: q -> nth_error l k = Some x /\ skipn (S k) l = q.
Proof.
  revert l. induction k as [|k IH]; intros [|y l] H; try discriminate.
  - injection H as -> ->. split; reflexivity.
  - cbn [skipn] in H. destruct (IH l H) as [H1 H2]. split; assumption.
Qed.

(** A batch of echoes only moves the cursor. *)
Lemma own_loop unconf tail : forall k,
  List.map l_clientID (firstn (List.length tail) (skipn k unconf)) =
    List.map clientID tail ->
  fold_left (receive_step unconf) tail (mkReceiveLoop None [] k) =
  mkReceiveLoop None [] (k + List.length tail).
Proof.
  induction tail as [|u r IH]; intros k H.
  - cbn. rewrite Nat.add_0_r. reflexivity.
  - cbn [List.length firstn] in H.
    destruct (skipn k unconf) as [|o q] eqn:E; [discriminate|].
    cbn [List.map] in H. injection H as Hid Hrest.
    destruct (skipn_cons_nth _ _ _ _ E) as [Hn Hq].
    assert (Hown : is_own unconf k u = Some o).
    { apply is_own_iff. split; [|split; assumption].
      apply nth_error_Some. congruence. }
    cbn [fold_left].
    rewrite (receive_step_own unconf (mkReceiveLoop None [] k) u o Hown).
    cbn [rl_changes rl_effects rl_own option_map mapEffects nonempty].
    rewrite IH by (rewrite Hq; exact Hrest).
    cbn [List.length]. f_equal. lia.
Qed.

(** X6. A batch that only echoes the first unconfirmed updates of the
    client (entry by entry the same client ids) confirms them and does
    nothing else: the transaction has no changes and no effects, the
    version advances by the size of the batch, and the updates left in
    the queue are the very same ones, not rebased.  The change sets the
    echoes carry are not looked at. *)
Theorem own_batch_only_confirms state batch :
  List.map l_clientID
    (firstn (List.length batch) (sendableUpdates state)) =
    List.map clientID batch ->
  receiveUpdates state batch =
  mkSpec None []
    [collabReceive
       (mkCollabState (getSyncedVersion state + List.length batch)
          (skipn (List.length batch) (sendableUpdates state)))]
    None.
Proof.
  unfold sendableUpdates, getSyncedVersion. intros H.
  unfold receiveUpdates. rewrite received_eq. cbv zeta.
  unfold receive_loop. rewrite (own_loop _ _ 0) by exact H.
  cbn [rl_own rl_changes rl_effects Nat.add nonempty].
  destruct (skipn _ _); reflexivity.
Qed.

(** The same for [rebaseUpdates]: entries that match the submitted
    updates one by one only move the cursor. *)
Lemma resubmitted_loop updates over : forall k,
  List.map clientID (firstn (List.length over) (skipn k updates)) =
    List.map a_clientID over ->
  fold_left (rebase_step updates) over (mkRebaseLoop None k) =
  mkRebaseLoop None (k + List.length over).
Proof.
  induction over as [|u r IH]; intros k H.
  - cbn. rewrite Nat.add_0_r. reflexivity.
  - cbn [List.length firstn] in H.
    destruct (skipn k updates) as [|o q] eqn:E; [discriminate|].
    cbn [List.map] in H. injection H as Hid Hrest.
    destruct (skipn_cons_nth _ _ _ _ E) as [Hn Hq].
    assert (Hre : is_resubmitted updates k u = Some o).
    { apply is_resubmitted_iff. split; [|split; assumption].
      apply nth_error_Some. congruence. }
    cbn [fold_left]. unfold rebase_step at 2. cbn [rb_skip rb_changes].
    rewrite Hre. rewrite IH by (rewrite Hq; exact Hrest).
    cbn [List.length]. f_equal. lia.
Qed.

(** X7. When the entries of [over] match the first submitted updates
    one by one (the same client ids), [rebaseUpdates] returns the
    updates after them as they were submitted, not rebased. *)
Theorem accepted_prefix_is_skipped updates over :
  List.map clientID (firstn (List.length over) updates) =
    List.map a_clientID over ->
  rebaseUpdates updates over = skipn (List.length over) updates.
Proof.
  intros H. unfold rebaseUpdates.
  destruct over as [|u r]; [reflexivity|].
  destruct updates as [|o q]; [discriminate|].
  cbn [nonempty negb orb]. rewrite slice_own. unfold rebase_loop.
  rewrite (resubmitted_loop (o :: q) (u :: r) 0) by exact H.
  reflexivity.
Qed.

(** Mapping through later updates works part by part. *)
Lemma mapped_through_app effs more later :
  mapped_through (effs ++ more) later =
  mapped_through effs later ++ mapped_through more later.
Proof.
  revert effs more. induction later as [|u r IH]; intros effs more;
    [reflexivity|].
  unfold mapped_through in *. cbn [fold_left].
  rewrite mapEffects_app. apply IH.
Qed.

(** The loop over updates that are not taken as own ones. *)
Lemma foreign_loop_at unconf k later : forall c effs,
  Forall (fun u => is_own unconf k u = None) later ->
  fold_left (receive_step unconf) later (mkReceiveLoop (Some c) effs k) =
  mkReceiveLoop
    (Some (fold_left (fun c u => compose c (changes u)) later c))
    (mapped_through effs later ++ effects_through later) k.
Proof.
  induction later as [|u r IH]; intros c effs Hf.
  - cbn. rewrite app_nil_r. reflexivity.
  - cbn [fold_left].
    rewrite (receive_step_foreign unconf (mkReceiveLoop (Some c) effs k) u
               (Forall_inv Hf)).
    cbn [rl_changes rl_effects rl_own].
    replace (match effects u with
             | Some e => mapEffects effs (desc (changes u)) ++ e
             | None => mapEffects effs (desc (changes u))
             end)
      with (mapEffects effs (desc (changes u)) ++ effects_of u)
      by (unfold effects_of; destruct (effects u);
          [reflexivity | apply app_nil_r]).
    rewrite (IH _ _ (Forall_inv_tail Hf)), mapped_through_app.
    cbn [effects_through]. rewrite <- app_assoc. reflexivity.
Qed.

(** What the loop collects when the client has no unconfirmed update:
    every update is a foreign one. *)
Lemma receive_loop_empty_queue u later :
  receive_loop [] (u :: later) =
  mkReceiveLoop (Some (composed u later)) (effects_through (u :: later)) 0.
Proof.
  unfold receive_loop. cbn [fold_left].
  rewrite (receive_step_foreign [] _ u eq_refl).
  cbn [rl_changes rl_effects rl_own mapEffects nonempty].
  replace (match effects u with Some e => [] ++ e | None => [] end)
    with (effects_of u) by (unfold effects_of; destruct (effects u); reflexivity).
  rewrite (foreign_loop_at [] 0 later)
    by (apply Forall_forall; intros v _; reflexivity).
  reflexivity.
Qed.

(** X8. For a client without unconfirmed updates, the transaction of
    [receiveUpdates] for a non-empty batch carries the change sets of
    the batch composed in order, and the effects of the batch in order,
    the effects of each update mapped over the changes of every update
    that follows it in the batch; the queue stays empty. *)
Theorem foreign_batch_is_composed state u later :
  sendableUpdates state = [] ->
  receiveUpdates state (u :: later) =
  mkSpec (Some (composed u later)) (effects_through (u :: later))
    [addToHistory false; remote true;
     collabReceive
       (mkCollabState (getSyncedVersion state + S (List.length later)) [])]
    (Some false).
Proof.
  unfold sendableUpdates, getSyncedVersion. intros H.
  unfold receiveUpdates. rewrite received_eq. cbv zeta. rewrite H.
  rewrite receive_loop_empty_queue.
  cbn [rl_own rl_changes rl_effects skipn List.length rc_changes rc_effects
       rc_version rc_unconfirmed].
  reflexivity.
Qed.

(** X9. When the transaction of [receiveUpdates] has changes, every
    update left in the queue was rebuilt with the client id of the
    state's configuration, whatever id it carried before. *)
Theorem rebased_queue_carries_client_id state batch :
  spec_changes (receiveUpdates state batch) <> None ->
  Forall (fun u => l_clientID u = getClientID state)
    (sendableUpdates (after_receive state batch)).
Proof.
  intros H. rewrite sendable_after_receive.
  assert (Hc : rc_changes (received state batch) <> None).
  { unfold receiveUpdates in H.
    destruct (rc_changes (received state batch)); [discriminate | exact H]. }
  clear H. revert Hc. rewrite received_eq. cbv zeta.
  destruct (skipn _ _) as [|v q]; [constructor|].
  destruct (rl_changes _) as [c|]; cbn [rc_changes rc_unconfirmed].
  - intros _. apply rebase_locals_ids.
  - intros Hc. contradiction.
Qed.

End QueueFacts.

(** ** The authority's rebase and the client's rebase *)

Section RoundFacts.
Context {L : StateLib} {laws : StateLaws}.

Lemma changes_asUpdate queue :
  List.map changes (List.map asUpdate queue) = List.map l_changes queue.
Proof. rewrite map_map. reflexivity. Qed.

Lemma effects_asUpdate queue :
  List.map effects (List.map asUpdate queue) =
  List.map (fun u => Some (l_effects u)) queue.
Proof. rewrite map_map. reflexivity. Qed.

(** The effects of what [rebaseUpdates] returns for a queue are those
    of the queue rebased as [receiveUpdates] rebases it. *)
Lemma rebase_updates_effects cid rest : forall c,
  List.map effects (snd (rebase_updates (desc c) (List.map asUpdate rest))) =
  List.map (fun u => Some (l_effects u)) (snd (rebase_locals cid c rest)).
Proof.
  induction rest as [|u r IH]; intros c; [reflexivity|].
  cbn [List.map rebase_updates rebase_locals].
  unfold rebase_update, rebase_local. cbv beta iota zeta.
  cbn [asUpdate changes effects].
  rewrite <- desc_map.
  specialize (IH (ChangeSet_map c (desc (l_changes u)) true)).
  destruct (rebase_updates _ (List.map asUpdate r)) as [d2 r2].
  destruct (rebase_locals cid _ r) as [c2 r'].
  cbn [snd List.map effects l_effects] in *.
  rewrite IH. reflexivity.
Qed.

(** X10. The authority and the client rebase alike: for the log entries
    [tail] that a client has not received, [rebaseUpdates] applied to
    the client's sendable updates returns updates with the change sets
    and the effects of the queue that [receiveUpdates] leaves in the
    client for the same entries, in the same order. *)
Theorem server_rebase_matches_client state tail :
  let sent := rebaseUpdates (List.map asUpdate (sendableUpdates state))
                (List.map asAccepted tail) in
  let queue := sendableUpdates (after_receive state tail) in
  List.map changes sent = List.map l_changes queue /\
  List.map effects sent = List.map (fun u => Some (l_effects u)) queue.
Proof.
  cbv zeta. rewrite sendable_after_receive, rebaseUpdates_sent.
  unfold sendableUpdates. rewrite received_eq. cbv zeta.
  set (unconf := unconfirmed (field_collab state)).
  set (loop := receive_loop unconf tail).
  destruct (skipn (rl_own loop) unconf) as [|u r] eqn:E.
  - cbn [rc_unconfirmed]. unfold sent_for.
    destruct (rl_changes loop); split; reflexivity.
  - unfold sent_for.
    destruct (rl_changes loop) as [c|]; cbn [rc_unconfirmed].
    + split.
      * apply (rebase_updates_locals _ (u :: r) c).
      * apply rebase_updates_effects.
    + split; [apply changes_asUpdate | apply effects_asUpdate].
Qed.

(** The loop of [receiveUpdates] over updates of other clients. *)
Lemma foreign_loop_describes id unconf base tail :
  Forall (fun u => l_clientID u = id) unconf ->
  Forall (fun u => clientID u <> id) tail ->
  all_fit (List.map l_changes unconf) base ->
  all_fit (List.map changes tail) base ->
  rl_own (receive_loop unconf tail) = 0 /\
  match rl_changes (receive_loop unconf tail) with
  | None => apply_all (List.map changes tail) base = base
  | Some c => fits c base /\ apply_all (List.map changes tail) base = apply c base
  end.
Proof.
  intros Hids Hforeign Hfit Htail.
  assert (Hown : rl_own (receive_loop unconf tail) = 0).
  { unfold receive_loop.
    rewrite (foreign_keep_own id unconf tail _ Hids Hforeign). reflexivity. }
  split; [exact Hown|].
  assert (H0 : loop_describes unconf base (mkReceiveLoop None [] 0) base).
  { split; [cbn; lia | reflexivity]. }
  pose proof (receive_loop_describes id unconf base tail _ base Hids Hfit H0 Htail
                (tail_agrees_foreign id unconf tail _ Hforeign)) as [_ H].
  fold (receive_loop unconf tail) in H. rewrite Hown in H.
  unfold before_local in H. cbn [firstn List.map apply_all fold_left] in H.
  exact H.
Qed.

(** X11. One round of the protocol meets: a client whose document is
    [base] with its unconfirmed updates applied receives the updates
    [tail] of other clients, made from [base]; the authority, which
    holds [base] with [tail] applied, accepts the client's updates
    through [rebaseUpdates].  The rebased updates fit the authority's
    document one after the other, and applying them gives the document
    the client has after the transaction of [receiveUpdates]. *)
Theorem rebased_updates_meet_client id base state tail :
  Forall (fun u => l_clientID u = id) (sendableUpdates state) ->
  Forall (fun u => clientID u <> id) tail ->
  all_fit (List.map l_changes (sendableUpdates state)) base ->
  doc state = apply_all (List.map l_changes (sendableUpdates state)) base ->
  all_fit (List.map changes tail) base ->
  let sent := rebaseUpdates (List.map asUpdate (sendableUpdates state))
                (List.map asAccepted tail) in
  let server := apply_all (List.map changes tail) base in
  all_fit (List.map changes sent) server /\
  apply_all (List.map changes sent) server = doc (after_receive state tail).
Proof.
  unfold sendableUpdates. intros Hids Hforeign Hfit Hdoc Htail. cbv zeta.
  destruct (foreign_loop_describes id _ base tail Hids Hforeign Hfit Htail)
    as [Hown Hsem].
  rewrite rebaseUpdates_sent, after_receive_doc, received_eq. cbv zeta.
  rewrite Hown. cbn [skipn]. unfold sent_for.
  set (unconf := unconfirmed (field_collab state)) in *.
  destruct (rl_changes (receive_loop unconf tail)) as [c|].
  - destruct Hsem as [Hc ->].
    rewrite (proj1 (rebase_updates_locals
                      (cfg_clientID (facet_collabConfig state)) unconf c)).
    destruct (rebase_locals_applies (cfg_clientID (facet_collabConfig state))
                unconf c base Hc Hfit) as (R1 & _ & R3).
    split; [exact R1|]. rewrite R3, Hdoc.
    destruct unconf; reflexivity.
  - rewrite Hsem, changes_asUpdate. split; [exact Hfit|].
    rewrite Hdoc. destruct unconf; reflexivity.
Qed.

(** ** A client without unconfirmed updates *)

Lemma composed_applies later : forall c d,
  fits c d -> all_fit (List.map changes later) (apply c d) ->
  fits (fold_left (fun c u => compose c (changes u)) later c) d /\
  apply (fold_left (fun c u => compose c (changes u)) later c) d =
    apply_all (List.map changes later) (apply c d).
Proof.
  induction later as [|u r IH]; intros c d Hc Hl.
  - split; [exact Hc | reflexivity].
  - cbn [List.map all_fit] in Hl. destruct Hl as [Hu Hr].
    destruct (compose_apply c (changes u) d Hc Hu) as [Hf Ha].
    cbn [fold_left List.map]. rewrite <- Ha in Hr.
    destruct (IH _ d Hf Hr) as [I1 I2]. split; [exact I1|].
    rewrite I2, Ha. reflexivity.
Qed.

Lemma empty_queue_receive state batch :
  unconfirmed (field_collab state) = [] ->
  all_fit (List.map changes batch) (doc state) ->
  doc (after_receive state batch) =
    apply_all (List.map changes batch) (doc state) /\
  field_collab (after_receive state batch) =
    mkCollabState (version (field_collab state) + List.length batch) [].
Proof.
  intros Hq Hfit. unfold after_receive at 2.
  rewrite after_receive_doc, received_field, received_eq. cbv zeta.
  rewrite Hq, skipn_nil. cbn [rc_changes rc_version rc_unconfirmed].
  split; [|reflexivity].
  destruct batch as [|u later]; [reflexivity|].
  rewrite receive_loop_empty_queue. cbn [rl_changes].
  cbn [List.map all_fit] in Hfit. destruct Hfit as [Hu Hl].
  exact (proj2 (composed_applies later (changes u) (doc state) Hu Hl)).
Qed.

(** X12. For a client without unconfirmed updates, a slice of the log
    can be received whole or in two parts: the transaction of
    [receiveUpdates] for the whole slice gives the document with the
    change sets of the slice applied in order, and receiving the first
    part and then the second gives the same document, version and
    (empty) queue. *)
Theorem split_batches_agree state first second :
  sendableUpdates state = [] ->
  all_fit (List.map changes (first ++ second)) (doc state) ->
  let whole := after_receive state (first ++ second) in
  let parts := after_receive (after_receive state first) second in
  doc whole = apply_all (List.map changes (first ++ second)) (doc state) /\
  doc parts = doc whole /\
  field_collab parts = field_collab whole.
Proof.
  unfold sendableUpdates. intros Hq Hfit. cbv zeta.
  destruct (empty_queue_receive state (first ++ second) Hq Hfit) as [Hd Hf].
  rewrite map_app in Hfit. apply all_fit_app in Hfit. destruct Hfit as [H1 H2].
  destruct (empty_queue_receive state first Hq H1) as [Hd1 Hf1].
  assert (Hq1 : unconfirmed (field_collab (after_receive state first)) = [])
    by (rewrite Hf1; reflexivity).
  rewrite <- Hd1 in H2.
  destruct (empty_queue_receive (after_receive state first) second Hq1 H2)
    as [Hd2 Hf2].
  split; [exact Hd|]. split.
  - rewrite Hd2, Hd1, Hd, map_app, apply_all_app. reflexivity.
  - rewrite Hf2, Hf, Hf1. cbn [version]. rewrite length_app, Nat.add_assoc.
    reflexivity.
Qed.

End RoundFacts.

(** * Further properties of the authority of the rebasing test *)

Section LogFacts.
Context {L : StateLib}.

Lemma Authority_eta (a : Authority) :
  mkAuthority (updates a) (serverDoc a) (peers a) = a.
Proof. destruct a; reflexivity. Qed.

Lemma send_appends a id :
  exists out, appends a (send a id) out /\ peers (send a id) = peers a.
Proof.
  unfold send. destruct (peer (peers a) id) as [state|].
  - rewrite push_updates. eexists. split; [split|]; reflexivity.
  - exists []. split; [split|]; cbn; [rewrite app_nil_r|..]; reflexivity.
Qed.

Lemma receive_frame a id :
  updates (receive a id) = updates a /\
  serverDoc (receive a id) = serverDoc a /\
  forall id', id' <> id -> peer (peers (receive a id)) id' = peer (peers a) id'.
Proof.
  unfold receive. destruct (peer (peers a) id) as [state|];
    [|repeat split; reflexivity].
  destruct (getSyncedVersion state <? List.length (updates a));
    [|repeat split; reflexivity].
  cbn [updates serverDoc peers]. split; [reflexivity|]. split; [reflexivity|].
  intros id' Hne. apply peer_set_other. exact Hne.
Qed.

Lemma run_event_frame startDoc a e :
  (exists out, appends a (run_event startDoc a e) out /\
     match e with ev_send _ => True | _ => out = [] end) /\
  (forall id', id' <> event_id e ->
     peer (peers (run_event startDoc a e)) id' = peer (peers a) id').
Proof.
  unfold run_event.
  set (a1 := match peer (peers a) (event_id e) with
             | Some _ => a
             | None => mkAuthority (updates a) (serverDoc a)
                         (set_peer (peers a) (event_id e)
                            (create_peer startDoc (event_id e)))
             end).
  assert (H1 : updates a1 = updates a /\ serverDoc a1 = serverDoc a /\
               forall id', id' <> event_id e ->
                 peer (peers a1) id' = peer (peers a) id').
  { unfold a1. destruct (peer (peers a) (event_id e));
      [repeat split; reflexivity|].
    cbn [updates serverDoc peers]. split; [reflexivity|]. split; [reflexivity|].
    intros id' Hne. apply peer_set_other. exact Hne. }
  destruct H1 as (Hu & Hs & Hp).
  destruct e as [id|id|id f]; cbn [event_id] in *.
  - destruct (send_appends a1 id) as (out & [Ho1 Ho2] & Hpe). split.
    + exists out. split; [|exact I]. split; [rewrite Ho1, Hu | rewrite Ho2, Hs];
        reflexivity.
    + intros id' Hne. rewrite Hpe. apply Hp. exact Hne.
  - destruct (receive_frame a1 id) as (Ru & Rs & Rp). split.
    + exists []. split; [|reflexivity].
      split; [rewrite Ru, Hu, app_nil_r | rewrite Rs, Hs]; reflexivity.
    + intros id' Hne. rewrite (Rp id' Hne). apply Hp. exact Hne.
  - destruct (peer (peers a1) id) as [state|]; cbn [updates serverDoc peers].
    + split.
      * exists []. split; [|reflexivity].
        split; [rewrite Hu, app_nil_r | rewrite Hs]; reflexivity.
      * intros id' Hne. rewrite (peer_set_other _ _ _ _ Hne). apply Hp. exact Hne.
    + split.
      * exists []. split; [|reflexivity].
        split; [rewrite Hu, app_nil_r | rewrite Hs]; reflexivity.
      * intros id' Hne. apply Hp. exact Hne.
Qed.

(** A send event leaves the state of its peer as it was (as it was
    created, for a new peer). *)
Lemma send_event_state startDoc a id :
  peer (peers (run_event startDoc a (ev_send id))) id =
  Some (match peer (peers a) id with
        | Some state => state
        | None => create_peer startDoc id
        end).
Proof.
  unfold run_event. cbn [event_id].
  destruct (peer (peers a) id) as [state|] eqn:Hp.
  - destruct (send_appends a id) as (out & _ & Hpe). rewrite Hpe. exact Hp.
  - match goal with |- peer (peers (send ?a1 id)) id = _ =>
      destruct (send_appends a1 id) as (out & _ & Hpe) end.
    rewrite Hpe. cbn [peers]. apply peer_set_same.
Qed.

(** X13. An event of the test touches nothing but what it is about:
    the log only grows at its end, and only for a send event; the
    server document is the old one with exactly the appended change
    sets applied; the state of every peer other than the event's own
    is left as it was; and a send event leaves the state of its own
    peer as it was, too (nothing is confirmed by sending). *)
Theorem event_frame startDoc a e :
  (exists out,
     updates (run_event startDoc a e) = updates a ++ out /\
     serverDoc (run_event startDoc a e) =
       apply_all (List.map changes out) (serverDoc a) /\
     match e with ev_send _ => True | _ => out = [] end) /\
  (forall id', id' <> event_id e ->
     peer (peers (run_event startDoc a e)) id' = peer (peers a) id') /\
  match e with
  | ev_send id =>
      peer (peers (run_event startDoc a e)) id =
      Some (match peer (peers a) id with
            | Some state => state
            | None => create_peer startDoc id
            end)
  | _ => True
  end.
Proof.
  destruct (run_event_frame startDoc a e) as [(out & [H1 H2] & H3) H4].
  split; [exists out; auto|]. split; [exact H4|].
  destruct e as [id|id|id f]; [apply send_event_state | exact I | exact I].
Qed.

Lemma appends_follows startDoc a a' out :
  appends a a' out -> follows_log startDoc a -> follows_log startDoc a'.
Proof.
  unfold follows_log. intros [Hu Hs] H.
  rewrite Hs, Hu, H, map_app, apply_all_app. reflexivity.
Qed.

Lemma run_events_follow startDoc events : forall a,
  follows_log startDoc a ->
  follows_log startDoc (fold_left (run_event startDoc) events a).
Proof.
  induction events as [|e r IH]; intros a H; [exact H|].
  cbn [fold_left]. apply IH.
  destruct (run_event_frame startDoc a e) as [(out & Ha & _) _].
  exact (appends_follows _ _ _ _ Ha H).
Qed.

Lemma sends_follow startDoc keys : forall a,
  follows_log startDoc a -> follows_log startDoc (fold_left send keys a).
Proof.
  induction keys as [|k r IH]; intros a H; [exact H|].
  cbn [fold_left]. apply IH.
  destruct (send_appends a k) as (out & Ha & _).
  exact (appends_follows _ _ _ _ Ha H).
Qed.

Lemma receives_follow startDoc keys : forall a,
  follows_log startDoc a -> follows_log startDoc (fold_left receive keys a).
Proof.
  induction keys as [|k r IH]; intros a H; [exact H|].
  cbn [fold_left]. apply IH.
  destruct (receive_frame a k) as (Hu & Hs & _).
  unfold follows_log. rewrite Hu, Hs. exact H.
Qed.

(** X14. Whatever the events are, the server document of the test is
    the start document with the change sets of the log applied in
    order, after every event and at the end of the test. *)
Theorem server_doc_follows_log startDoc events :
  (let a := fold_left (run_event startDoc) events (mkAuthority [] startDoc []) in
   serverDoc a = apply_all (List.map changes (updates a)) startDoc) /\
  (let a := run_test startDoc events in
   serverDoc a = apply_all (List.map changes (updates a)) startDoc).
Proof.
  assert (H : follows_log startDoc
                (fold_left (run_event startDoc) events
                   (mkAuthority [] startDoc [])))
    by (apply run_events_follow; reflexivity).
  split; [exact H|].
  unfold run_test. cbv zeta. apply receives_follow, sends_follow. exact H.
Qed.

(** X15. Receiving twice in a row is receiving once: the first
    [receive] leaves the peer at the end of the log, whatever state the
    peer was in, so the second one finds nothing to receive. *)
Theorem second_receive_changes_nothing a id :
  receive (receive a id) id = receive a id.
Proof.
  destruct (peer (peers a) id) as [state|] eqn:Hp.
  - destruct (Nat.ltb_spec (getSyncedVersion state) (List.length (updates a)))
      as [Hlt|Hge].
    + assert (E : receive a id =
                  mkAuthority (updates a) (serverDoc a)
                    (set_peer (peers a) id
                       (after_receive state
                          (skipn (getSyncedVersion state) (updates a))))).
      { unfold receive. rewrite Hp. cbv zeta.
        rewrite (proj2 (Nat.ltb_lt _ _) Hlt). reflexivity. }
      rewrite E. unfold receive at 1. cbn [peers updates serverDoc].
      rewrite peer_set_same. cbv zeta.
      assert (Hv : getSyncedVersion
                     (after_receive state
                        (skipn (getSyncedVersion state) (updates a))) =
                   List.length (updates a)).
      { unfold getSyncedVersion in *. unfold after_receive.
        rewrite received_field. cbn [version].
        rewrite received_version, length_skipn. lia. }
      rewrite Hv, Nat.ltb_irrefl. reflexivity.
    + assert (E : receive a id = a).
      { unfold receive. rewrite Hp. cbv zeta.
        rewrite (proj2 (Nat.ltb_ge _ _) Hge). reflexivity. }
      rewrite E. exact E.
  - assert (E : receive a id = a) by (unfold receive; rewrite Hp; reflexivity).
    rewrite E. exact E.
Qed.

End LogFacts.

Section RunFacts.
Context {L : StateLib} {laws : StateLaws}.

Lemma run_inv startDoc events :
  local_edits startDoc (mkAuthority [] startDoc []) events ->
  authority_inv startDoc
    (fold_left (run_event startDoc) events (mkAuthority [] startDoc [])).
Proof.
  intros H. apply run_events_keep_inv; [apply start_inv | exact H].
Qed.

Lemma all_sent_nothing log state :
  all_sent log state -> sent_by log state = [].
Proof.
  unfold all_sent, sent_by. intros ->. rewrite skipn_all. unfold sent_for.
  destruct (rl_changes _); reflexivity.
Qed.

(** X16. A peer that sends twice in a row adds nothing the second
    time: after any run of local edits, sends and receives, sending
    for a peer and sending for it again leaves the log, the server
    document and the peers as the first send left them. *)
Theorem second_send_adds_nothing startDoc events id :
  local_edits startDoc (mkAuthority [] startDoc []) events ->
  let a := fold_left (run_event startDoc) events (mkAuthority [] startDoc []) in
  send (send a id) id = send a id.
Proof.
  intros Hloc a. pose proof (run_inv startDoc events Hloc) as Hinv. fold a in Hinv.
  destruct (peer (peers a) id) as [state|] eqn:Hp.
  - destruct (send_keeps_inv startDoc a id Hinv) as (Hinv1 & Hpeers & Hsent).
    assert (Hp1 : peer (peers (send a id)) id = Some state)
      by (rewrite Hpeers; exact Hp).
    rewrite (send_eq (send a id) id state Hp1
               (inv_version _ _ _ _ (inv_peers _ _ Hinv1 _ _ Hp1))).
    rewrite (all_sent_nothing _ _ (Hsent id state Hp (or_introl eq_refl))).
    cbn [List.map apply_all fold_left]. rewrite app_nil_r.
    apply Authority_eta.
  - assert (E : send a id = a) by (unfold send; rewrite Hp; reflexivity).
    rewrite !E. reflexivity.
Qed.

(** X17. After any run of local edits, sends and receives, the synced
    version of every peer is at most the length of the log, and the
    peer's document is the start document with the change sets of the
    log up to that version applied, followed by the change sets of the
    peer's own sendable updates. *)
Theorem peer_doc_is_log_plus_own startDoc events :
  local_edits startDoc (mkAuthority [] startDoc []) events ->
  let a := fold_left (run_event startDoc) events (mkAuthority [] startDoc []) in
  forall id state, peer (peers a) id = Some state ->
    getSyncedVersion state <= List.length (updates a) /\
    doc state =
      apply_all (List.map l_changes (sendableUpdates state))
        (apply_all
           (List.map changes (firstn (getSyncedVersion state) (updates a)))
           startDoc).
Proof.
  intros Hloc a id state Hp.
  pose proof (inv_peers _ _ (run_inv startDoc events Hloc) id state Hp) as Hinv.
  split; [exact (inv_version _ _ _ _ Hinv) | exact (inv_doc _ _ _ _ Hinv)].
Qed.

(** X18. The authority never meets a change set that does not fit:
    after any run of local edits, sends and receives, and at the end
    of the test, every change set of the log was made for the length
    of the document that the change sets before it give. *)
Theorem log_always_fits startDoc events :
  local_edits startDoc (mkAuthority [] startDoc []) events ->
  all_fit
    (List.map changes
       (updates (fold_left (run_event startDoc) events
                   (mkAuthority [] startDoc []))))
    startDoc /\
  all_fit (List.map changes (updates (run_test startDoc events))) startDoc.
Proof.
  intros Hloc. pose proof (run_inv startDoc events Hloc) as Hinv.
  split; [exact (inv_log _ _ Hinv)|].
  unfold run_test. cbv zeta.
  set (a := fold_left (run_event startDoc) events (mkAuthority [] startDoc [])) in *.
  destruct (send_all_keeps_inv startDoc (for_in (peers a)) a Hinv)
    as (Hinv1 & Hpe & Hsent).
  assert (Hall : forall id state,
             peer (peers (fold_left send (for_in (peers a)) a)) id = Some state ->
             all_sent (updates (fold_left send (for_in (peers a)) a)) state).
  { intros id state Hp. rewrite Hpe in Hp. apply (Hsent id state Hp).
    left. apply for_in_key, peer_key. congruence. }
  destruct (receive_all_syncs startDoc
              (for_in (peers (fold_left send (for_in (peers a)) a)))
              _ Hinv1 Hall) as (Hinv2 & _).
  exact (inv_log _ _ Hinv2).
Qed.

Lemma same_updates (l1 l2 : list Update) :
  List.map changes l1 = List.map changes l2 ->
  List.map effects l1 = List.map effects l2 ->
  List.map clientID l1 = List.map clientID l2 ->
  l1 = l2.
Proof.
  revert l2. induction l1 as [|u r IH]; intros [|v q] Hc He Hi;
    try discriminate; [reflexivity|].
  cbn [List.map] in *. injection Hc as Hc1 Hc2. injection He as He1 He2.
  injection Hi as Hi1 Hi2. rewrite (IH q Hc2 He2 Hi2).
  destruct u, v. cbn in *. congruence.
Qed.

(** What a peer sends without receiving first is what it would send
    after receiving. *)
Lemma sent_by_is_received_queue startDoc log id state :
  peer_inv startDoc log id state ->
  sent_by log state =
  List.map asUpdate
    (rc_unconfirmed (received state (skipn (version (field_collab state)) log))).
Proof.
  intros Hinv. unfold sent_by. rewrite received_eq. cbv zeta.
  set (unconf := unconfirmed (field_collab state)).
  set (loop := receive_loop unconf _).
  assert (Hcid : cfg_clientID (facet_collabConfig state) = id)
    by (rewrite (inv_config _ _ _ _ Hinv); reflexivity).
  pose proof (Forall_skipn _ (rl_own loop) _ (inv_ids _ _ _ _ Hinv)) as Hids.
  fold unconf in Hids.
  destruct (skipn (rl_own loop) unconf) as [|u r] eqn:E.
  - cbn [rc_unconfirmed List.map]. unfold sent_for.
    destruct (rl_changes loop); reflexivity.
  - unfold sent_for. destruct (rl_changes loop) as [c|]; cbn [rc_unconfirmed];
      [|reflexivity].
    rewrite Hcid.
    destruct (rebase_updates_locals id (u :: r) c) as [H1 H2].
    apply same_updates.
    + rewrite H1, changes_asUpdate. reflexivity.
    + rewrite (rebase_updates_effects id), effects_asUpdate. reflexivity.
    + rewrite H2, map_map. cbn [asUpdate clientID].
      pose proof (rebase_locals_ids id c (u :: r)) as Hnew.
      clear - Hids Hnew.
      pose proof (rebase_locals_length id c (u :: r)) as Hlen.
      revert Hids Hnew Hlen.
      generalize (snd (rebase_locals id c (u :: r))) as out.
      generalize (u :: r) as inp.
      induction inp as [|x inp IH]; intros [|y out] Hi Ho Hl;
        try discriminate; [reflexivity|].
      cbn [List.map]. rewrite (Forall_inv Hi), (Forall_inv Ho).
      f_equal. apply IH;
        [exact (Forall_inv_tail Hi) | exact (Forall_inv_tail Ho) |
         cbn in Hl; lia].
Qed.

(** X19. Rebasing at the authority and rebasing at the client come to
    the same: after any run of local edits, sends and receives, letting
    a peer send right away (the authority rebases its updates with
    [rebaseUpdates]) or letting it receive first and then send (the
    peer has rebased them in [receiveUpdates]) gives the same log and
    the same server document. *)
Theorem send_after_receive_sends_the_same startDoc events id :
  local_edits startDoc (mkAuthority [] startDoc []) events ->
  let a := fold_left (run_event startDoc) events (mkAuthority [] startDoc []) in
  updates (send (receive a id) id) = updates (send a id) /\
  serverDoc (send (receive a id) id) = serverDoc (send a id).
Proof.
  intros Hloc a. pose proof (run_inv startDoc events Hloc) as Hinv. fold a in Hinv.
  destruct (peer (peers a) id) as [state|] eqn:Hp.
  - pose proof (inv_peers _ _ Hinv id state Hp) as Hpi.
    rewrite (send_eq a id state Hp (inv_version _ _ _ _ Hpi)).
    unfold receive. rewrite Hp. cbv zeta. unfold getSyncedVersion.
    destruct (Nat.ltb_spec (version (field_collab state))
                (List.length (updates a))) as [Hlt|Hge].
    + fold (after_receive state (skipn (version (field_collab state)) (updates a))).
      set (state' := after_receive state _).
      set (a1 := mkAuthority _ _ _).
      destruct (receive_state startDoc (updates a) id state (inv_log _ _ Hinv) Hpi)
        as (Hpi' & Hv' & _).
      fold state' in Hpi', Hv'.
      assert (Hp1 : peer (peers a1) id = Some state')
        by (unfold a1; cbn [peers]; apply peer_set_same).
      rewrite (send_eq a1 id state' Hp1) by (unfold a1; cbn [updates]; lia).
      unfold a1. cbn [updates serverDoc].
      assert (Hs : sent_by (updates a) state' = sent_by (updates a) state).
      { rewrite (sent_by_is_received_queue startDoc (updates a) id state Hpi).
        unfold sent_by. rewrite Hv', skipn_all.
        change (receive_loop (unconfirmed (field_collab state')) [])
          with (mkReceiveLoop None [] 0).
        cbn [rl_changes rl_own skipn sent_for].
        unfold state'. rewrite <- sendable_after_receive. reflexivity. }
      rewrite Hs. split; reflexivity.
    + rewrite (send_eq a id state Hp (inv_version _ _ _ _ Hpi)).
      split; reflexivity.
  - assert (E : receive a id = a) by (unfold receive; rewrite Hp; reflexivity).
    rewrite E. split; reflexivity.
Qed.

End RunFacts.

(** * The authority of the convergence test *)

Section DummyFacts.
Context {L : StateLib} {laws : StateLaws}.

(** *** Writing one client's state *)

Lemma set_state_length l i x :
  List.length (Dummy.set_state l i x) = List.length l.
Proof.
  revert i. induction l as [|s r IH]; intros [|i]; cbn; try reflexivity.
  rewrite IH. reflexivity.
Qed.

Lemma set_state_same l i x :
  i < List.length l -> nth_error (Dummy.set_state l i x) i = Some x.
Proof.
  revert i. induction l as [|s r IH]; intros [|i] H; cbn in *; try lia.
  - reflexivity.
  - apply IH. lia.
Qed.

Lemma set_state_other l i j x :
  j <> i -> nth_error (Dummy.set_state l i x) j = nth_error l j.
Proof.
  revert i j. induction l as [|s r IH]; intros [|i] [|j] H; cbn;
    try reflexivity; try contradiction.
  apply IH. lia.
Qed.

(** *** One client *)

Lemma all_sent_synced log state :
  version (field_collab state) = List.length log ->
  all_sent log state -> unconfirmed (field_collab state) = [].
Proof.
  unfold all_sent. intros ->. rewrite skipn_all. cbn.
  intros H. symmetry in H. apply length_zero_iff_nil in H. exact H.
Qed.

Lemma synced_empty_sent log state :
  version (field_collab state) = List.length log ->
  unconfirmed (field_collab state) = [] -> all_sent log state.
Proof. unfold all_sent. intros -> ->. rewrite skipn_all. reflexivity. Qed.

Lemma synced_state_inv startDoc log id state :
  all_fit (List.map changes log) startDoc ->
  peer_inv startDoc log id state ->
  peer_inv startDoc log id (Dummy.synced_state log state) /\
  version (field_collab (Dummy.synced_state log state)) = List.length log /\
  (all_sent log state -> all_sent log (Dummy.synced_state log state)).
Proof.
  intros Hlog Hinv. unfold Dummy.synced_state, getSyncedVersion.
  destruct (Nat.eqb_spec (version (field_collab state)) (List.length log))
    as [He|Hne]; cbn [negb].
  - split; [exact Hinv|]. split; [exact He | auto].
  - destruct (receive_state startDoc log id state Hlog Hinv) as (H1 & H2 & H3).
    split; [exact H1|]. split; [exact H2|].
    intros Hs. apply synced_empty_sent; [exact H2 | exact (H3 Hs)].
Qed.

Lemma caught_up_doc startDoc log id state :
  peer_inv startDoc log id state -> Dummy.caught_up log state ->
  doc state = apply_all (List.map changes log) startDoc.
Proof.
  intros Hinv Hc. rewrite (inv_doc _ _ _ _ Hinv).
  rewrite <- (firstn_skipn (version (field_collab state)) log) at 2.
  rewrite Hc, map_app, apply_all_app, changes_asUpdate. reflexivity.
Qed.

Lemma synced_caught_up log state :
  version (field_collab state) = List.length log ->
  all_sent log state -> Dummy.caught_up log state.
Proof.
  intros Hv Hs. unfold Dummy.caught_up.
  rewrite (all_sent_synced log state Hv Hs), Hv, skipn_all. reflexivity.
Qed.

(** *** The methods of the server *)

Lemma set_state_id l i x :
  nth_error l i = Some x -> Dummy.set_state l i x = l.
Proof.
  revert i. induction l as [|s r IH]; intros [|i] H; cbn in *; try discriminate.
  - injection H as ->. reflexivity.
  - rewrite (IH i H). reflexivity.
Qed.

Lemma sync_eq s j state :
  nth_error (Dummy.states s) j = Some state ->
  exists s',
    Dummy.sync s j = Some s' /\
    Dummy.states s' =
      Dummy.set_state (Dummy.states s) j
        (Dummy.synced_state (Dummy.updates s) state) /\
    Dummy.updates s' = Dummy.updates s /\
    Dummy.delayed s' = Dummy.delayed s.
Proof.
  intros Hn. unfold Dummy.sync, Dummy.synced_state. rewrite Hn. cbv zeta.
  destruct (negb (getSyncedVersion state =? List.length (Dummy.updates s))).
  - eexists. split; [reflexivity|]. cbn. repeat split; reflexivity.
  - exists s. split; [reflexivity|].
    rewrite (set_state_id _ _ _ Hn). repeat split; reflexivity.
Qed.

Lemma clients_inv_set startDoc ids s s' j id state state' :
  Dummy.clients_inv startDoc ids s ->
  Dummy.updates s' = Dummy.updates s ->
  Dummy.states s' = Dummy.set_state (Dummy.states s) j state' ->
  nth_error ids j = Some id ->
  nth_error (Dummy.states s) j = Some state ->
  peer_inv startDoc (Dummy.updates s) id state' ->
  Dummy.clients_inv startDoc ids s'.
Proof.
  intros (Hlog & Hlen & Hall) Hu Hs Hid Hst Hinv.
  unfold Dummy.clients_inv. rewrite Hu, Hs, set_state_length.
  split; [exact Hlog|]. split; [exact Hlen|].
  intros k idk statek Hk Hsk.
  destruct (Nat.eq_dec k j) as [->|Hne].
  - rewrite set_state_same in Hsk by (apply nth_error_Some; congruence).
    injection Hsk as <-. rewrite Hid in Hk. injection Hk as <-. exact Hinv.
  - rewrite (set_state_other _ _ _ _ Hne) in Hsk. exact (Hall k idk statek Hk Hsk).
Qed.

Lemma sent_except_set held s s' j state state' :
  Dummy.sent_except held s ->
  Dummy.updates s' = Dummy.updates s ->
  Dummy.states s' = Dummy.set_state (Dummy.states s) j state' ->
  nth_error (Dummy.states s) j = Some state ->
  (~ held j -> all_sent (Dummy.updates s) state ->
   all_sent (Dummy.updates s) state') ->
  Dummy.sent_except held s'.
Proof.
  intros Hsent Hu Hs Hst Hkeep k statek Hsk Hk. rewrite Hu. rewrite Hs in Hsk.
  destruct (Nat.eq_dec k j) as [->|Hne].
  - rewrite set_state_same in Hsk by (apply nth_error_Some; congruence).
    injection Hsk as <-. apply (Hkeep Hk). exact (Hsent j state Hst Hk).
  - rewrite (set_state_other _ _ _ _ Hne) in Hsk. exact (Hsent k statek Hsk Hk).
Qed.

(** [sync] keeps what holds of the server, keeps what the clients have
    sent, and leaves the client at the end of the log. *)
Lemma sync_keeps startDoc ids held s j :
  Dummy.clients_inv startDoc ids s -> Dummy.sent_except held s ->
  j < List.length ids ->
  exists s',
    Dummy.sync s j = Some s' /\
    Dummy.clients_inv startDoc ids s' /\ Dummy.sent_except held s' /\
    Dummy.updates s' = Dummy.updates s /\
    Dummy.delayed s' = Dummy.delayed s /\
    (forall k, k <> j ->
       nth_error (Dummy.states s') k = nth_error (Dummy.states s) k) /\
    (exists state', nth_error (Dummy.states s') j = Some state' /\
       version (field_collab state') = List.length (Dummy.updates s)).
Proof.
  intros Hinv Hsent Hj. pose proof Hinv as (Hlog & Hlen & Hall).
  destruct (nth_error (Dummy.states s) j) as [state|] eqn:Hst;
    [|apply nth_error_None in Hst; lia].
  destruct (nth_error ids j) as [id|] eqn:Hid;
    [|apply nth_error_None in Hid; lia].
  destruct (sync_eq s j state Hst) as (s' & Hsync & Hs & Hu & Hd).
  destruct (synced_state_inv startDoc (Dummy.updates s) id state Hlog
              (Hall j id state Hid Hst)) as (I1 & I2 & I3).
  exists s'. split; [exact Hsync|].
  split; [exact (clients_inv_set _ _ _ _ _ _ _ _ Hinv Hu Hs Hid Hst I1)|].
  split; [exact (sent_except_set _ _ _ _ _ _ Hsent Hu Hs Hst (fun _ => I3))|].
  split; [exact Hu|]. split; [exact Hd|]. split.
  - intros k Hne. rewrite Hs. apply set_state_other. exact Hne.
  - eexists. split; [|exact I2]. rewrite Hs. apply set_state_same.
    apply nth_error_Some. congruence.
Qed.

Lemma skipn_app_le {A : Type} (l out : list A) n :
  n <= List.length l -> skipn n (l ++ out) = skipn n l ++ out.
Proof.
  intros H. rewrite skipn_app.
  replace (n - List.length l) with 0 by lia. reflexivity.
Qed.

(** Updates of one client are foreign to every other client. *)
Lemma other_client_foreign ids i k idi idk queue :
  NoDup ids -> nth_error ids i = Some idi -> nth_error ids k = Some idk ->
  k <> i ->
  Forall (fun u => l_clientID u = idi) queue ->
  Forall (fun u => clientID u <> idk) (List.map asUpdate queue).
Proof.
  intros Hnd Hi Hk Hne Hq. apply Forall_map.
  eapply Forall_impl; [|exact Hq]. cbn. intros u -> He. subst idk.
  apply Hne. apply (proj1 (NoDup_nth_error ids) Hnd).
  - apply nth_error_Some. congruence.
  - congruence.
Qed.

(** [send] by a client that is at the end of the log. *)
Lemma send_keeps startDoc ids held s i state :
  NoDup ids ->
  Dummy.clients_inv startDoc ids s ->
  Dummy.sent_except (fun j => j = i \/ held j) s ->
  nth_error (Dummy.states s) i = Some state ->
  version (field_collab state) = List.length (Dummy.updates s) ->
  exists s',
    Dummy.send s i = Some s' /\
    Dummy.states s' = Dummy.states s /\
    Dummy.delayed s' = Dummy.delayed s /\
    Dummy.updates s' =
      Dummy.updates s ++ List.map asUpdate (unconfirmed (field_collab state)) /\
    Dummy.clients_inv startDoc ids s' /\
    Dummy.sent_except held s' /\
    Dummy.caught_up (Dummy.updates s') state.
Proof.
  intros Hnd Hinv Hsent Hst Hv. pose proof Hinv as (Hlog & Hlen & Hall).
  set (log := Dummy.updates s) in *.
  set (queue := unconfirmed (field_collab state)).
  set (out := List.map asUpdate queue).
  assert (Hsend : exists s', Dummy.send s i = Some s' /\
            Dummy.states s' = Dummy.states s /\
            Dummy.delayed s' = Dummy.delayed s /\
            Dummy.updates s' = log ++ out).
  { unfold Dummy.send. rewrite Hst. cbv zeta. unfold sendableUpdates.
    fold queue. destruct queue as [|u q] eqn:Hq; cbn [nonempty].
    - exists s. repeat split. unfold out. cbn. rewrite app_nil_r. reflexivity.
    - eexists. split; [reflexivity|]. repeat split. }
  destruct Hsend as (s' & Hsend & Hs & Hd & Hu).
  destruct (nth_error ids i) as [id|] eqn:Hid;
    [|apply nth_error_None in Hid;
      assert (i < List.length (Dummy.states s))
        by (apply nth_error_Some; congruence); lia].
  pose proof (Hall i id state Hid Hst) as Hi.
  assert (Hloop : receive_loop queue (skipn (version (field_collab state)) log)
                  = mkReceiveLoop None [] 0).
  { rewrite Hv. unfold log. rewrite skipn_all. reflexivity. }
  destruct (sent_for_agrees id queue queue (mkReceiveLoop None [] 0)
              (inv_ids _ _ _ _ Hi) eq_refl) as [Hagree Hown].
  change (sent_for (rl_changes (mkReceiveLoop None [] 0)) queue) with out
    in Hagree, Hown.
  exists s'. split; [exact Hsend|]. split; [exact Hs|]. split; [exact Hd|].
  split; [exact Hu|]. split; [|split].
  - unfold Dummy.clients_inv. rewrite Hu, Hs. split; [|split; [exact Hlen|]].
    + rewrite map_app. apply all_fit_app. split; [exact Hlog|].
      unfold out. rewrite changes_asUpdate.
      pose proof (inv_fit _ _ _ _ Hi) as Hf. fold queue in Hf.
      rewrite Hv in Hf. unfold log in Hf. rewrite firstn_all in Hf. exact Hf.
    + intros k idk statek Hk Hsk. pose proof (Hall k idk statek Hk Hsk) as Hinvk.
      apply peer_inv_extend; [exact Hinvk|].
      destruct (Nat.eq_dec k i) as [->|Hne].
      * rewrite Hst in Hsk. injection Hsk as <-.
        rewrite Hid in Hk. injection Hk as <-.
        fold queue. rewrite Hloop. exact Hagree.
      * apply tail_agrees_foreign.
        exact (other_client_foreign ids i k id idk queue Hnd Hid Hk Hne
                 (inv_ids _ _ _ _ Hi)).
  - intros k statek Hsk Hk. rewrite Hs in Hsk. rewrite Hu. unfold all_sent.
    destruct (Nat.eq_dec k i) as [->|Hne].
    + rewrite Hst in Hsk. injection Hsk as <-.
      fold queue. rewrite Hv. unfold log.
      rewrite skipn_app_le by lia. rewrite skipn_all. cbn [app].
      unfold receive_loop. rewrite Hown. reflexivity.
    + destruct (nth_error ids k) as [idk|] eqn:Hidk;
        [|apply nth_error_None in Hidk;
          assert (k < List.length (Dummy.states s))
            by (apply nth_error_Some; congruence); lia].
      pose proof (Hall k idk statek Hidk Hsk) as Hinvk.
      rewrite skipn_app_le by exact (inv_version _ _ _ _ Hinvk).
      rewrite receive_loop_app.
      rewrite (foreign_keep_own idk _ out _ (inv_ids _ _ _ _ Hinvk)
                 (other_client_foreign ids i k id idk queue Hnd Hid Hidk Hne
                    (inv_ids _ _ _ _ Hi))).
      apply (Hsent k statek Hsk). intros [He|Hh]; [exact (Hne He) | exact (Hk Hh)].
  - unfold Dummy.caught_up. rewrite Hu, Hv. unfold log.
    rewrite skipn_app_le by lia. rewrite skipn_all. reflexivity.
Qed.

Lemma sync_each_cons i j r s :
  Dummy.sync_each i (j :: r) s =
  match (if negb (j =? i) then Dummy.sync s j else Some s) with
  | Some s1 => Dummy.sync_each i r s1
  | None => None
  end.
Proof.
  unfold Dummy.sync_each. cbn [fold_left].
  destruct (if negb (j =? i) then Dummy.sync s j else Some s); [reflexivity|].
  induction r as [|k r IH]; [reflexivity | exact IH].
Qed.

Lemma sync_each_keeps startDoc ids held i js : forall s,
  Dummy.clients_inv startDoc ids s -> Dummy.sent_except held s ->
  Forall (fun j => j < List.length ids) js ->
  exists s',
    Dummy.sync_each i js s = Some s' /\
    Dummy.clients_inv startDoc ids s' /\ Dummy.sent_except held s' /\
    Dummy.updates s' = Dummy.updates s /\
    Dummy.delayed s' = Dummy.delayed s /\
    (forall k, k = i \/ ~ In k js ->
       nth_error (Dummy.states s') k = nth_error (Dummy.states s) k) /\
    (forall k state, nth_error (Dummy.states s') k = Some state -> k <> i ->
       In k js ->
       version (field_collab state) = List.length (Dummy.updates s)).
Proof.
  induction js as [|j r IH]; intros s Hinv Hsent Hjs.
  - exists s. split; [reflexivity|]. split; [exact Hinv|]. split; [exact Hsent|].
    split; [reflexivity|]. split; [reflexivity|]. split; [reflexivity|].
    intros k state _ _ [].
  - rewrite sync_each_cons.
    destruct (Nat.eqb_spec j i) as [He|Hne]; cbn [negb].
    + subst j.
      destruct (IH s Hinv Hsent (Forall_inv_tail Hjs))
        as (s' & E' & J1 & J2 & J3 & J4 & J5 & J6).
      exists s'. split; [exact E'|]. split; [exact J1|]. split; [exact J2|].
      split; [exact J3|]. split; [exact J4|]. split.
      * intros k [Hk|Hk]; apply J5; [left; exact Hk | right].
        intros Hin. apply Hk. right. exact Hin.
      * intros k state Hk Hki [Hin|Hin]; [congruence|].
        exact (J6 k state Hk Hki Hin).
    + destruct (sync_keeps startDoc ids held s j Hinv Hsent (Forall_inv Hjs))
        as (s1 & E & I1 & I2 & I3 & I4 & I5 & state' & I6 & I7).
      rewrite E.
      destruct (IH s1 I1 I2 (Forall_inv_tail Hjs))
        as (s' & E' & J1 & J2 & J3 & J4 & J5 & J6).
      exists s'. split; [exact E'|]. split; [exact J1|]. split; [exact J2|].
      split; [congruence|]. split; [congruence|]. split.
      * intros k Hk. rewrite J5, I5; [reflexivity | |].
        -- destruct Hk as [Hk|Hk]; [congruence|].
           intros ->. apply Hk. left. reflexivity.
        -- destruct Hk as [Hk|Hk]; [left; exact Hk | right].
           intros Hin. apply Hk. right. exact Hin.
      * intros k state Hk Hki Hin. rewrite <- I3.
        destruct (in_dec Nat.eq_dec k r) as [Hr|Hr];
          [exact (J6 k state Hk Hki Hr)|].
        destruct Hin as [->|Hin]; [|contradiction].
        rewrite (J5 k (or_intror Hr)), I6 in Hk. injection Hk as <-.
        rewrite I3. exact I7.
Qed.

Lemma client_id startDoc ids s k state :
  Dummy.clients_inv startDoc ids s ->
  nth_error (Dummy.states s) k = Some state ->
  exists id, nth_error ids k = Some id /\
             peer_inv startDoc (Dummy.updates s) id state.
Proof.
  intros (_ & Hlen & Hall) Hk.
  destruct (nth_error ids k) as [id|] eqn:Hid.
  - exists id. split; [reflexivity | exact (Hall k id state Hid Hk)].
  - apply nth_error_None in Hid.
    assert (k < List.length (Dummy.states s))
      by (apply nth_error_Some; congruence).
    lia.
Qed.

(** [broadcast] for a client whose own updates may not be in the log
    yet. *)
Lemma broadcast_keeps startDoc ids s i :
  NoDup ids ->
  Dummy.clients_inv startDoc ids s ->
  Dummy.sent_except (fun j => j = i \/ In j (Dummy.delayed s)) s ->
  i < List.length ids ->
  Dummy.went_well startDoc ids s (Dummy.broadcast s i).
Proof.
  intros Hnd Hinv Hsent Hi. unfold Dummy.broadcast, Dummy.went_well.
  destruct (existsb (Nat.eqb i) (Dummy.delayed s)) eqn:Hd.
  - apply existsb_exists in Hd. destruct Hd as (x & Hin & Hx).
    apply Nat.eqb_eq in Hx. subst x.
    exists s. split; [reflexivity|]. split; [exact Hinv|]. split; [reflexivity|].
    split.
    + intros k state Hk Hnk. apply (Hsent k state Hk).
      intros [->|Hh]; contradiction.
    + intros Hnil. rewrite Hnil in Hin. destruct Hin.
  - assert (Hni : ~ In i (Dummy.delayed s)).
    { intros Hin.
      assert (existsb (Nat.eqb i) (Dummy.delayed s) = true)
        by (apply existsb_exists; exists i; split;
            [exact Hin | apply Nat.eqb_refl]).
      congruence. }
    destruct (sync_keeps startDoc ids _ s i Hinv Hsent Hi)
      as (s1 & E1 & I1 & I2 & I3 & I4 & _ & state1 & I6 & I7).
    rewrite E1. rewrite <- I3 in I7. rewrite <- I4 in I2.
    destruct (send_keeps startDoc ids (fun j => In j (Dummy.delayed s1)) s1 i
                state1 Hnd I1 I2 I6 I7)
      as (s2 & E2 & J1 & J2 & J3 & J4 & J5 & J6).
    rewrite E2.
    assert (Hlen2 : List.length (Dummy.states s2) = List.length ids)
      by (destruct J4 as (_ & H & _); exact H).
    assert (Hseq : Forall (fun j => j < List.length ids)
                     (seq 0 (List.length (Dummy.states s2)))).
    { apply Forall_forall. intros j Hj. apply in_seq in Hj. lia. }
    destruct (sync_each_keeps startDoc ids _ i _ s2 J4 J5 Hseq)
      as (s3 & E3 & K1 & K2 & K3 & K4 & K5 & K6).
    exists s3. split; [exact E3|]. split; [exact K1|].
    split; [congruence|]. split.
    + rewrite K4, J2. exact K2.
    + intros Hnil. unfold Dummy.converged. apply Forall_forall.
      intros state Hin. apply In_nth_error in Hin. destruct Hin as [k Hk].
      destruct (client_id startDoc ids s3 k state K1 Hk) as (id & Hid & Hpk).
      apply (caught_up_doc startDoc _ id state Hpk).
      destruct (Nat.eq_dec k i) as [->|Hne].
      * rewrite (K5 i (or_introl eq_refl)), J1, I6 in Hk. injection Hk as <-.
        rewrite K3. exact J6.
      * apply synced_caught_up.
        -- rewrite K3. apply (K6 k state Hk Hne). apply in_seq.
           assert (k < List.length ids) by (apply nth_error_Some; congruence).
           lia.
        -- apply (K2 k state Hk). rewrite I4, Hnil. intros [].
Qed.

Lemma update_keeps startDoc ids s i f :
  NoDup ids ->
  Dummy.clients_inv startDoc ids s ->
  Dummy.sent_except (fun j => In j (Dummy.delayed s)) s ->
  Dummy.edits_fit (Dummy.call_update i f) s ->
  Dummy.went_well startDoc ids s (Dummy.update s i f).
Proof.
  intros Hnd Hinv Hsent Hfit. cbn [Dummy.edits_fit] in Hfit.
  unfold Dummy.update.
  destruct (nth_error (Dummy.states s) i) as [state|] eqn:Hst; [|contradiction].
  destruct (client_id startDoc ids s i state Hinv Hst) as (id & Hid & Hp).
  set (mid := Dummy.mkDummyServer _ _ _).
  assert (Hmid : Dummy.clients_inv startDoc ids mid).
  { apply (clients_inv_set startDoc ids s mid i id state
             (Transaction_state state (f state)) Hinv eq_refl eq_refl Hid Hst).
    apply local_edit_keeps_inv; assumption. }
  assert (Hsent' : Dummy.sent_except
                     (fun j => j = i \/ In j (Dummy.delayed mid)) mid).
  { apply (sent_except_set _ s mid i state (Transaction_state state (f state)));
      try reflexivity; try assumption.
    - intros k statek Hk Hnk. apply (Hsent k statek Hk).
      intros Hin. apply Hnk. right. exact Hin.
    - intros Hn. exfalso. apply Hn. left. reflexivity. }
  apply (broadcast_keeps startDoc ids mid i Hnd Hmid Hsent').
  apply nth_error_Some. congruence.
Qed.

Lemma delay_keeps startDoc ids s i f :
  NoDup ids ->
  Dummy.clients_inv startDoc ids s ->
  Dummy.sent_except (fun j => In j (Dummy.delayed s)) s ->
  i < List.length ids ->
  (let held := Dummy.mkDummyServer (Dummy.states s) (Dummy.updates s)
                 (Dummy.delayed s ++ [i]) in
   Dummy.all_went_well startDoc ids held (f held)) ->
  Dummy.went_well startDoc ids s (Dummy.delay s i f).
Proof.
  intros Hnd Hinv Hsent Hi (s1 & E & I1 & I2 & I3 & _). unfold Dummy.delay.
  rewrite E. cbn [Dummy.delayed] in I2.
  set (back := Dummy.mkDummyServer _ _ _).
  assert (Hd : Dummy.delayed back = Dummy.delayed s).
  { unfold back. cbn [Dummy.delayed]. rewrite I2. apply removelast_last. }
  assert (Hback : Dummy.clients_inv startDoc ids back) by exact I1.
  assert (Hs : Dummy.sent_except
                 (fun j => j = i \/ In j (Dummy.delayed back)) back).
  { intros k state Hk Hnk. apply (I3 k state Hk). rewrite I2, Hd in *.
    intros Hin. apply in_app_iff in Hin. apply Hnk.
    destruct Hin as [Hin|[<-|[]]]; [right; exact Hin | left; reflexivity]. }
  destruct (broadcast_keeps startDoc ids back i Hnd Hback Hs Hi)
    as (s' & E' & J1 & J2 & J3 & J4).
  exists s'. split; [exact E'|]. split; [exact J1|]. split; [congruence|].
  split; [exact J3|]. intros Hnil. apply J4. congruence.
Qed.

Lemma run_all_cons c rest s :
  Dummy.run_all (c :: rest) s =
  match Dummy.run c s with
  | Some s1 => Dummy.run_all rest s1
  | None => None
  end.
Proof.
  unfold Dummy.run_all. cbn [fold_left].
  destruct (Dummy.run c s); [reflexivity|].
  induction rest as [|k r IH]; [reflexivity | exact IH].
Qed.

(** Induction on calls, with the callbacks of [delay]. *)
Lemma Call_nested_ind (P : Dummy.Call -> Prop) :
  (forall client f, P (Dummy.call_update client f)) ->
  (forall client body, Forall P body -> P (Dummy.call_delay client body)) ->
  forall c, P c.
Proof.
  intros Hu Hd. fix IH 1. intros [client f|client body].
  - apply Hu.
  - apply Hd. induction body as [|c r IHr]; constructor.
    + apply IH.
    + exact IHr.
Qed.

Lemma run_all_keeps startDoc ids calls :
  Forall (fun c => forall s,
            Dummy.clients_inv startDoc ids s ->
            Dummy.sent_except (fun j => In j (Dummy.delayed s)) s ->
            Dummy.edits_fit c s ->
            Dummy.went_well startDoc ids s (Dummy.run c s)) calls ->
  forall s,
    Dummy.clients_inv startDoc ids s ->
    Dummy.sent_except (fun j => In j (Dummy.delayed s)) s ->
    Dummy.all_edits_fit calls s ->
    Dummy.all_went_well startDoc ids s (Dummy.run_all calls s).
Proof.
  induction 1 as [|c rest Hc _ IH]; intros s Hinv Hsent Hfit.
  - exists s. split; [reflexivity|]. split; [exact Hinv|].
    split; [reflexivity|]. split; [exact Hsent|]. intros _ H. exact H.
  - cbn [Dummy.all_edits_fit] in Hfit. destruct Hfit as [Hfc Hfr].
    rewrite run_all_cons.
    destruct (Hc s Hinv Hsent Hfc) as (s1 & E & I1 & I2 & I3 & I4).
    rewrite E in *.
    destruct (IH s1 I1 I3 Hfr) as (s' & E' & J1 & J2 & J3 & J4).
    exists s'. split; [exact E'|]. split; [exact J1|]. split; [congruence|].
    split; [exact J3|]. intros Hnil _. apply J4; [congruence | exact (I4 Hnil)].
Qed.

Lemma run_keeps startDoc ids :
  NoDup ids ->
  forall c s,
    Dummy.clients_inv startDoc ids s ->
    Dummy.sent_except (fun j => In j (Dummy.delayed s)) s ->
    Dummy.edits_fit c s ->
    Dummy.went_well startDoc ids s (Dummy.run c s).
Proof.
  intros Hnd c. induction c as [i f|i body IH] using Call_nested_ind;
    intros s Hinv Hsent Hfit.
  - apply update_keeps; assumption.
  - change (Dummy.run (Dummy.call_delay i body) s)
      with (Dummy.delay s i (Dummy.run_all body)).
    change (Dummy.edits_fit (Dummy.call_delay i body) s)
      with (i < List.length (Dummy.states s) /\
            Dummy.all_edits_fit body
              (Dummy.mkDummyServer (Dummy.states s) (Dummy.updates s)
                 (Dummy.delayed s ++ [i]))) in Hfit.
    destruct Hfit as [Hi Hbody].
    apply delay_keeps; try assumption.
    + destruct Hinv as (_ & Hlen & _). lia.
    + cbv zeta. apply (run_all_keeps startDoc ids body IH); try assumption.
      intros k state Hk Hnk. apply (Hsent k state Hk).
      intros Hin. apply Hnk. cbn [Dummy.delayed]. apply in_app_iff.
      left. exact Hin.
Qed.

Lemma create_inv startDoc ids :
  let s0 := Dummy.create startDoc (List.map Dummy.client_config ids) in
  Dummy.clients_inv startDoc ids s0 /\
  Dummy.sent_except (fun j => In j (Dummy.delayed s0)) s0 /\
  Dummy.converged startDoc s0.
Proof.
  cbv zeta. unfold Dummy.create. split; [|split].
  - split; [exact I|]. split.
    + cbn [Dummy.states]. rewrite !length_map. reflexivity.
    + cbn [Dummy.states Dummy.updates]. intros i id state Hid Hst.
      rewrite map_map, nth_error_map, Hid in Hst. cbn in Hst.
      injection Hst as <-.
      constructor; cbn; try reflexivity; try exact I; try lia; constructor.
  - intros i state Hst _. cbn [Dummy.states Dummy.updates] in *.
    rewrite map_map, nth_error_map in Hst.
    destruct (nth_error ids i); [|discriminate]. cbn in Hst.
    injection Hst as <-. reflexivity.
  - unfold Dummy.converged. cbn [Dummy.states Dummy.updates].
    rewrite map_map. apply Forall_map. apply Forall_forall.
    intros id _. reflexivity.
Qed.

(** X20. The server of the convergence test converges: with clients
    of pairwise different ids, log version 0 and no shared effects,
    all starting on [startDoc], any sequence of [update] and [delay]
    calls (the callbacks making such calls in turn) that name clients
    of the server and whose transactions are local edits that fit
    leaves no client held back, a log whose change sets fit one after
    the other, and every client with the start document with the
    change sets of the log applied, which is what [conv] checks. *)
Theorem dummy_server_converges startDoc ids calls :
  NoDup ids ->
  let s0 := Dummy.create startDoc (List.map Dummy.client_config ids) in
  Dummy.all_edits_fit calls s0 ->
  exists s,
    Dummy.run_all calls s0 = Some s /\
    Dummy.delayed s = [] /\
    all_fit (List.map changes (Dummy.updates s)) startDoc /\
    Forall (fun state =>
              doc state =
              apply_all (List.map changes (Dummy.updates s)) startDoc)
      (Dummy.states s).
Proof.
  intros Hnd s0 Hfit.
  destruct (create_inv startDoc ids) as (Hinv & Hsent & Hconv).
  change (Dummy.create startDoc (List.map Dummy.client_config ids)) with s0
    in Hinv, Hsent, Hconv.
  assert (Hall : Forall (fun c => forall s,
            Dummy.clients_inv startDoc ids s ->
            Dummy.sent_except (fun j => In j (Dummy.delayed s)) s ->
            Dummy.edits_fit c s ->
            Dummy.went_well startDoc ids s (Dummy.run c s)) calls).
  { apply Forall_forall. intros c _. apply run_keeps. exact Hnd. }
  destruct (run_all_keeps startDoc ids calls Hall s0 Hinv Hsent Hfit)
    as (s & E & (Hlog & _) & Hd & _ & Hc).
  exists s. split; [exact E|]. split; [rewrite Hd; reflexivity|].
  split; [exact Hlog|].
  apply Hc; [reflexivity | exact Hconv].
Qed.

End DummyFacts.

(** * The first version of [receiveUpdates] *)

Section LegacyFacts.
Context {L : StateLib}.

(** The loop of the first version collects the same. *)
Lemma legacy_loop later : forall c effs,
  fold_left Legacy.receive_step (List.map without_id later) (c, effs) =
  (fold_left (fun c u => compose c (changes u)) later c,
   mapped_through effs later ++ effects_through later).
Proof.
  induction later as [|u r IH]; intros c effs.
  - cbn. rewrite app_nil_r. reflexivity.
  - cbn [fold_left List.map]. unfold Legacy.receive_step at 2.
    cbn [fst snd without_id Legacy.changes Legacy.effects].
    replace (match effects u with
             | Some e => mapEffects effs (desc (changes u)) ++ e
             | None => mapEffects effs (desc (changes u))
             end)
      with (mapEffects effs (desc (changes u)) ++ effects_of u)
      by (unfold effects_of; destruct (effects u);
          [reflexivity | apply app_nil_r]).
    rewrite IH, mapped_through_app. cbn [effects_through].
    rewrite <- app_assoc. reflexivity.
Qed.

Lemma same_queue_skipn k : forall old new,
  Forall2 same_local old new -> Forall2 same_local (skipn k old) (skipn k new).
Proof.
  induction k as [|k IH]; intros old new H; [exact H|].
  destruct H as [|o n old' new' _ H']; [constructor|].
  cbn [skipn]. apply IH. exact H'.
Qed.

(** Both versions rebase the queue that is left alike. *)
Lemma legacy_rebase cid old new :
  Forall2 same_local old new ->
  forall c,
    fst (Legacy.rebase_locals c old) = fst (rebase_locals cid c new) /\
    Forall2 same_local (snd (Legacy.rebase_locals c old))
      (snd (rebase_locals cid c new)).
Proof.
  induction 1 as [|o n old' new' [Hc He] _ IH]; intros c.
  - split; [reflexivity | constructor].
  - cbn [Legacy.rebase_locals rebase_locals].
    unfold Legacy.rebase_local, rebase_local. cbv beta iota zeta.
    rewrite Hc, He.
    specialize (IH (ChangeSet_map c (desc (l_changes n)) true)).
    destruct (Legacy.rebase_locals _ old') as [c1 r1].
    destruct (rebase_locals cid _ new') as [c2 r2].
    cbn [fst snd] in *. destruct IH as [-> IH]. split; [reflexivity|].
    constructor; [split; reflexivity | exact IH].
Qed.

Lemma same_queue_composed old new : Forall2 same_local old new ->
  forall c,
    fold_left (fun ch u => compose ch (Legacy.l_changes u)) old c =
    fold_left (fun ch u => compose ch (l_changes u)) new c.
Proof.
  induction 1 as [|o n old' new' [Hc _] _ IH]; intros c; [reflexivity|].
  cbn [fold_left]. rewrite Hc. apply IH.
Qed.

Lemma ids_of_own cid (own : list Update) (unconf : list LocalUpdate) :
  Forall (fun u => l_clientID u = cid) unconf ->
  Forall (fun u => clientID u = cid) own ->
  List.length own <= List.length unconf ->
  List.map l_clientID (firstn (List.length own) unconf) = List.map clientID own.
Proof.
  intros Hu Ho. revert unconf Hu.
  induction Ho as [|u own Hid _ IH]; intros unconf Hu Hle; [reflexivity|].
  destruct Hu as [|o unconf Ho' Hu']; [cbn in Hle; lia|].
  cbn [List.length firstn List.map]. rewrite Ho', Hid. f_equal.
  apply IH; [exact Hu' | cbn in Hle; lia].
Qed.

(** What the loop of the current version collects for a batch of the
    client's own updates followed by updates of others. *)
Lemma own_then_foreign cid unconf own foreign :
  Forall (fun u => l_clientID u = cid) unconf ->
  Forall (fun u => clientID u = cid) own ->
  List.length own <= List.length unconf ->
  Forall (fun u => clientID u <> cid) foreign ->
  receive_loop unconf (own ++ foreign) =
  match foreign with
  | [] => mkReceiveLoop None [] (List.length own)
  | u :: later =>
      mkReceiveLoop (Some (composed u later)) (effects_through (u :: later))
        (List.length own)
  end.
Proof.
  intros Hu Ho Hle Hf. rewrite receive_loop_app.
  unfold receive_loop. rewrite (own_loop unconf own 0)
    by (cbn [skipn]; apply (ids_of_own cid); assumption).
  cbn [Nat.add]. destruct foreign as [|u later]; [reflexivity|].
  assert (Hnone : Forall (fun u => is_own unconf (List.length own) u = None)
                    (u :: later)).
  { eapply Forall_impl; [|exact Hf]. cbn. intros v Hv.
    exact (is_own_foreign cid unconf _ v Hu Hv). }
  cbn [fold_left].
  rewrite (receive_step_foreign unconf (mkReceiveLoop None [] (List.length own)) u
             (Forall_inv Hnone)).
  cbn [rl_changes rl_effects rl_own mapEffects nonempty].
  replace (match effects u with Some e => [] ++ e | None => [] end)
    with (effects_of u) by (unfold effects_of; destruct (effects u); reflexivity).
  rewrite (foreign_loop_at unconf _ later _ _ (Forall_inv_tail Hnone)).
  reflexivity.
Qed.

(** X21. The two versions of [receiveUpdates] agree.  For collab
    states that hold the same, and a batch made of updates of the
    client followed by updates of others, the current version (which
    finds the client's updates by their id) and the first version
    (which is told their number) give a transaction with the same
    changes and effects, carrying collab states that hold the same. *)
Theorem legacy_receive_agrees cid old state own foreign :
  same_collab (Legacy.field_collab old) (field_collab state) ->
  Forall (fun u => l_clientID u = cid) (sendableUpdates state) ->
  Forall (fun u => clientID u = cid) own ->
  List.length own <= List.length (sendableUpdates state) ->
  Forall (fun u => clientID u <> cid) foreign ->
  let spec_old := Legacy.receiveUpdates old
                    (List.map without_id (own ++ foreign)) (List.length own) in
  let spec_new := receiveUpdates state (own ++ foreign) in
  Legacy.spec_changes spec_old = spec_changes spec_new /\
  Legacy.spec_effects spec_old = spec_effects spec_new /\
  exists c_old c_new,
    Legacy.annotation_collabReceive (Legacy.spec_annotations spec_old)
      = Some c_old /\
    annotation_collabReceive (spec_annotations spec_new) = Some c_new /\
    same_collab c_old c_new.
Proof.
  unfold sendableUpdates. intros [Hv Hq] Hu Ho Hle Hf. cbv zeta.
  set (unconf := unconfirmed (field_collab state)) in *.
  pose proof (same_queue_skipn (List.length own) _ _ Hq) as Hrest.
  assert (Hupd : (if List.length own =? 0
                  then List.map without_id (own ++ foreign)
                  else skipn (List.length own)
                         (List.map without_id (own ++ foreign))) =
                 List.map without_id foreign).
  { rewrite slice_own, skipn_map, skipn_app, skipn_all, Nat.sub_diag.
    reflexivity. }
  unfold Legacy.receiveUpdates, receiveUpdates. cbv zeta.
  rewrite Hupd, received_eq. cbv zeta. fold unconf.
  rewrite (own_then_foreign cid unconf own foreign Hu Ho Hle Hf).
  rewrite length_map, Hv.
  destruct foreign as [|u later].
  - cbn [List.map rl_own rl_changes rl_effects nonempty].
    destruct (skipn (List.length own) unconf) as [|v q] eqn:E;
      cbn [rc_changes rc_effects rc_version rc_unconfirmed
           Legacy.spec_changes Legacy.spec_effects Legacy.spec_annotations
           spec_changes spec_effects spec_annotations
           Legacy.annotation_collabReceive annotation_collabReceive].
    + split; [reflexivity|]. split; [reflexivity|].
      eexists. eexists. split; [reflexivity|]. split; [reflexivity|].
      split; [reflexivity | exact Hrest].
    + split; [reflexivity|]. split; [reflexivity|].
      eexists. eexists. split; [reflexivity|]. split; [reflexivity|].
      split; [reflexivity | exact Hrest].
  - cbn [List.map rl_own rl_changes rl_effects].
    cbn [without_id Legacy.changes Legacy.effects].
    change (match effects u with Some e => e | None => [] end)
      with (effects_of u).
    rewrite legacy_loop. cbn [fst snd].
    change (fold_left (fun c u0 => compose c (changes u0)) later (changes u))
      with (composed u later).
    change (mapped_through (effects_of u) later ++ effects_through later)
      with (effects_through (u :: later)).
    destruct Hrest as [|o n old' new' Hon Hrest'].
    + cbn [rc_changes rc_effects rc_version rc_unconfirmed
           Legacy.spec_changes Legacy.spec_effects Legacy.spec_annotations
           spec_changes spec_effects spec_annotations
           Legacy.annotation_collabReceive annotation_collabReceive].
      split; [reflexivity|]. split; [reflexivity|].
      eexists. eexists. split; [reflexivity|]. split; [reflexivity|].
      split; [reflexivity | constructor].
    + destruct (legacy_rebase (cfg_clientID (facet_collabConfig state))
                  (o :: old') (n :: new') (Forall2_cons _ _ Hon Hrest')
                  (composed u later)) as [Hc Hr].
      destruct (Legacy.rebase_locals (composed u later) (o :: old'))
        as [c1 r1] eqn:E1.
      destruct (rebase_locals (cfg_clientID (facet_collabConfig state))
                  (composed u later) (n :: new')) as [c2 r2] eqn:E2.
      cbn [fst snd] in Hc, Hr. subst c2.
      assert (Heffs :
        (if nonempty (effects_through (u :: later)) then
           match r1 with
           | u0 :: _ =>
               mapEffects (effects_through (u :: later))
                 (desc (fold_left (fun ch u1 => compose ch (Legacy.l_changes u1))
                          r1
                          (ChangeSet_empty
                             (ChangeDesc_length (desc (Legacy.l_changes u0))))))
           | [] => effects_through (u :: later)
           end
         else effects_through (u :: later)) =
        (if nonempty (effects_through (u :: later)) then
           match r2 with
           | first :: _ =>
               mapEffects (effects_through (u :: later))
                 (desc (composed_unconfirmed first r2))
           | [] => effects_through (u :: later)
           end
         else effects_through (u :: later))).
      { destruct (nonempty (effects_through (u :: later))); [|reflexivity].
        destruct Hr as [|o1 n1 r1' r2' [Hc1 He1] Hr']; [reflexivity|].
        unfold composed_unconfirmed.
        rewrite (same_queue_composed _ _
                   (Forall2_cons _ _ (conj Hc1 He1) Hr')), Hc1.
        reflexivity. }
      cbn [rc_changes rc_effects rc_version rc_unconfirmed
           Legacy.spec_changes Legacy.spec_effects Legacy.spec_annotations
           spec_changes spec_effects spec_annotations
           Legacy.annotation_collabReceive annotation_collabReceive fst snd].
      split; [reflexivity|]. split; [exact Heffs|].
      eexists. eexists. split; [reflexivity|]. split; [reflexivity|].
      split; [reflexivity | exact Hr].
Qed.

End LegacyFacts.

(** ** The further properties at concrete inputs *)

Module MoreChecks.
Import TextModel Examples MoreExamples.

(** The scenarios of the convergence test that only type end with the
    documents the test expects. *)
Example simple_changes_converge :
  client_docs (Dummy.run_all simple_changes two_clients) =
  Some ["...hiok!"; "...hiok!"].
Proof. vm_compute. reflexivity. Qed.

Example multiple_local_changes_converge :
  client_docs (Dummy.run_all multiple_local_changes two_clients) =
  Some ["hiXYAB"; "hiXYAB"].
Proof. vm_compute. reflexivity. Qed.

Example three_peers_converge :
  client_docs (Dummy.run_all three_peers three_clients) =
  Some ["XYUVAB"; "XYUVAB"; "XYUVAB"].
Proof. vm_compute. reflexivity. Qed.

Example three_peers_steps_converge :
  client_docs (Dummy.run_all three_peers_steps three_clients) =
  Some ["XYUVAB"; "XYUVAB"; "XYUVAB"].
Proof. vm_compute. reflexivity. Qed.

(** X3 for the client that receives [foreign_x] and its own echo. *)
Lemma receive_confirms_own_witness :
  Forall (fun u => l_clientID u = "a") (sendableUpdates state_y) /\
  List.length (sendableUpdates (after_receive state_y [foreign_x; echo_y])) =
  List.length (sendableUpdates state_y) -
  count_id "a" (List.map clientID [foreign_x; echo_y]).
Proof.
  assert (H : Forall (fun u => l_clientID u = "a") (sendableUpdates state_y))
    by (repeat constructor).
  split; [exact H|].
  exact (receive_confirms_own "a" state_y [foreign_x; echo_y] H).
Defined.

(** X4 for the same update submitted after both were accepted. *)
Lemma rebase_drops_accepted_witness :
  Forall (fun u => clientID u = "a") [asUpdate ours_y] /\
  List.length (rebaseUpdates [asUpdate ours_y]
                 [asAccepted foreign_x; asAccepted echo_y]) =
  List.length [asUpdate ours_y] -
  count_id "a" (List.map a_clientID [asAccepted foreign_x; asAccepted echo_y]).
Proof.
  assert (H : Forall (fun u => clientID u = "a") [asUpdate ours_y])
    by (repeat constructor).
  split; [exact H|].
  exact (rebase_drops_accepted "a" [asUpdate ours_y]
           [asAccepted foreign_x; asAccepted echo_y] H).
Defined.

(** A batch with updates of two clients, submitted twice after
    [foreign_x]: the second time nothing is returned. *)
Example mixed_batch_submitted_twice :
  let batch := [asUpdate ours_y;
                mkUpdate [Keep; Keep; Keep; Ins "w"%char] (Some []) "c"] in
  rebaseUpdates batch [asAccepted foreign_x] =
    [echo_y; mkUpdate [Keep; Keep; Keep; Keep; Ins "w"%char] (Some []) "c"] /\
  rebaseUpdates batch
    ([asAccepted foreign_x] ++
     List.map asAccepted (rebaseUpdates batch [asAccepted foreign_x]) ++ []) = [].
Proof. cbv zeta. split; reflexivity. Qed.

(** X6 for the client that gets its first update back. *)
Lemma own_batch_only_confirms_witness :
  List.map l_clientID (firstn (List.length [accepted_y]) (sendableUpdates state_yz)) =
    List.map clientID [accepted_y] /\
  receiveUpdates state_yz [accepted_y] =
  mkSpec None []
    [collabReceive
       (mkCollabState (getSyncedVersion state_yz + List.length [accepted_y])
          (skipn (List.length [accepted_y]) (sendableUpdates state_yz)))]
    None.
Proof.
  assert (H : List.map l_clientID
                (firstn (List.length [accepted_y]) (sendableUpdates state_yz)) =
              List.map clientID [accepted_y]) by reflexivity.
  split; [exact H|].
  exact (own_batch_only_confirms state_yz [accepted_y] H).
Defined.

(** X7 for the two updates of [a] when the first was accepted. *)
Lemma accepted_prefix_is_skipped_witness :
  List.map clientID
    (firstn (List.length [asAccepted accepted_y])
       (List.map asUpdate [ours_y; ours_z])) =
    List.map a_clientID [asAccepted accepted_y] /\
  rebaseUpdates (List.map asUpdate [ours_y; ours_z]) [asAccepted accepted_y] =
  skipn (List.length [asAccepted accepted_y]) (List.map asUpdate [ours_y; ours_z]).
Proof.
  assert (H : List.map clientID
                (firstn (List.length [asAccepted accepted_y])
                   (List.map asUpdate [ours_y; ours_z])) =
              List.map a_clientID [asAccepted accepted_y]) by reflexivity.
  split; [exact H|].
  exact (accepted_prefix_is_skipped (List.map asUpdate [ours_y; ours_z])
           [asAccepted accepted_y] H).
Defined.

(** X8 for the idle client that receives two updates of [b]. *)
Lemma foreign_batch_is_composed_witness :
  sendableUpdates state_idle = [] /\
  receiveUpdates state_idle [foreign_x; foreign_end] =
  mkSpec (Some (composed foreign_x [foreign_end]))
    (effects_through [foreign_x; foreign_end])
    [addToHistory false; remote true;
     collabReceive (mkCollabState (getSyncedVersion state_idle + 2) [])]
    (Some false).
Proof.
  split; [reflexivity|].
  exact (foreign_batch_is_composed state_idle foreign_x [foreign_end] eq_refl).
Defined.

(** X9 for the client that receives [foreign_x]. *)
Lemma rebased_queue_carries_client_id_witness :
  spec_changes (receiveUpdates state_y [foreign_x]) <> None /\
  Forall (fun u => l_clientID u = getClientID state_y)
    (sendableUpdates (after_receive state_y [foreign_x])).
Proof.
  assert (H : spec_changes (receiveUpdates state_y [foreign_x]) <> None)
    by (vm_compute; discriminate).
  split; [exact H|].
  exact (rebased_queue_carries_client_id state_y [foreign_x] H).
Defined.

(** X10 for the client that has not received [foreign_x]. *)
Lemma server_rebase_matches_client_witness :
  List.map changes
    (rebaseUpdates (List.map asUpdate (sendableUpdates state_y))
       (List.map asAccepted [foreign_x])) =
    List.map l_changes (sendableUpdates (after_receive state_y [foreign_x])) /\
  List.map effects
    (rebaseUpdates (List.map asUpdate (sendableUpdates state_y))
       (List.map asAccepted [foreign_x])) =
    List.map (fun u => Some (l_effects u))
      (sendableUpdates (after_receive state_y [foreign_x])).
Proof.
  exact (@server_rebase_matches_client text_lib TextLaws.text_laws state_y
           [foreign_x]).
Defined.

(** X11 for the same client and the authority on ["axb"]. *)
Lemma rebased_updates_meet_client_witness :
  (Forall (fun u => l_clientID u = "a") (sendableUpdates state_y) /\
   Forall (fun u => clientID u <> "a") [foreign_x] /\
   all_fit (List.map l_changes (sendableUpdates state_y)) "ab" /\
   doc state_y = apply_all (List.map l_changes (sendableUpdates state_y)) "ab" /\
   all_fit (List.map changes [foreign_x]) "ab") /\
  all_fit
    (List.map changes
       (rebaseUpdates (List.map asUpdate (sendableUpdates state_y))
          (List.map asAccepted [foreign_x])))
    (apply_all (List.map changes [foreign_x]) "ab") /\
  apply_all
    (List.map changes
       (rebaseUpdates (List.map asUpdate (sendableUpdates state_y))
          (List.map asAccepted [foreign_x])))
    (apply_all (List.map changes [foreign_x]) "ab") =
  doc (after_receive state_y [foreign_x]).
Proof.
  assert (H1 : Forall (fun u => l_clientID u = "a") (sendableUpdates state_y))
    by (repeat constructor).
  assert (H2 : Forall (fun u => clientID u <> "a") [foreign_x])
    by (repeat constructor; discriminate).
  assert (H3 : all_fit (List.map l_changes (sendableUpdates state_y)) "ab")
    by (repeat split).
  assert (H4 : doc state_y =
               apply_all (List.map l_changes (sendableUpdates state_y)) "ab")
    by reflexivity.
  assert (H5 : all_fit (List.map changes [foreign_x]) "ab") by (repeat split).
  split; [auto|].
  exact (@rebased_updates_meet_client text_lib TextLaws.text_laws "a" "ab"
           state_y [foreign_x] H1 H2 H3 H4 H5).
Defined.

(** X12 for the idle client and two updates of [b]. *)
Lemma split_batches_agree_witness :
  (sendableUpdates state_idle = [] /\
   all_fit (List.map changes ([foreign_x] ++ [foreign_end])) (doc state_idle)) /\
  doc (after_receive state_idle ([foreign_x] ++ [foreign_end])) =
    apply_all (List.map changes ([foreign_x] ++ [foreign_end])) (doc state_idle) /\
  doc (after_receive (after_receive state_idle [foreign_x]) [foreign_end]) =
    doc (after_receive state_idle ([foreign_x] ++ [foreign_end])) /\
  field_collab (after_receive (after_receive state_idle [foreign_x]) [foreign_end]) =
    field_collab (after_receive state_idle ([foreign_x] ++ [foreign_end])).
Proof.
  assert (H : all_fit (List.map changes ([foreign_x] ++ [foreign_end]))
                (doc state_idle)) by (repeat split).
  split; [split; [reflexivity | exact H]|].
  exact (@split_batches_agree text_lib TextLaws.text_laws state_idle
           [foreign_x] [foreign_end] eq_refl H).
Defined.

(** The events of ["works with local unconfirmed changes"] are local
    edits. *)
Lemma local_unconfirmed_edits :
  local_edits "x" (mkAuthority [] "x" []) local_unconfirmed.
Proof. vm_compute. repeat split; reflexivity. Defined.

(** X16 for peer [a] after these events. *)
Lemma second_send_adds_nothing_witness :
  local_edits "x" (mkAuthority [] "x" []) local_unconfirmed /\
  (let a := fold_left (run_event "x") local_unconfirmed (mkAuthority [] "x" []) in
   send (send a "a") "a" = send a "a").
Proof.
  split; [exact local_unconfirmed_edits|].
  exact (@second_send_adds_nothing text_lib TextLaws.text_laws "x"
           local_unconfirmed "a" local_unconfirmed_edits).
Defined.

(** X17 after the same events. *)
Lemma peer_doc_is_log_plus_own_witness :
  local_edits "x" (mkAuthority [] "x" []) local_unconfirmed /\
  (let a := fold_left (run_event "x") local_unconfirmed (mkAuthority [] "x" []) in
   forall id state, peer (peers a) id = Some state ->
     getSyncedVersion state <= List.length (updates a) /\
     doc state =
       apply_all (List.map l_changes (sendableUpdates state))
         (apply_all
            (List.map changes (firstn (getSyncedVersion state) (updates a)))
            "x")).
Proof.
  split; [exact local_unconfirmed_edits|].
  exact (@peer_doc_is_log_plus_own text_lib TextLaws.text_laws "x"
           local_unconfirmed local_unconfirmed_edits).
Defined.

(** X18 after the same events. *)
Lemma log_always_fits_witness :
  local_edits "x" (mkAuthority [] "x" []) local_unconfirmed /\
  all_fit
    (List.map changes
       (updates (fold_left (run_event "x") local_unconfirmed
                   (mkAuthority [] "x" []))))
    "x" /\
  all_fit (List.map changes (updates (run_test "x" local_unconfirmed))) "x".
Proof.
  split; [exact local_unconfirmed_edits|].
  exact (@log_always_fits text_lib TextLaws.text_laws "x" local_unconfirmed
           local_unconfirmed_edits).
Defined.

(** X19 for peer [a] after ["works for multiple rebased changes"]
    without its last event. *)
Lemma send_after_receive_sends_the_same_witness :
  let events := firstn 4 multiple_rebased in
  local_edits "abc" (mkAuthority [] "abc" []) events /\
  (let a := fold_left (run_event "abc") events (mkAuthority [] "abc" []) in
   updates (send (receive a "a") "a") = updates (send a "a") /\
   serverDoc (send (receive a "a") "a") = serverDoc (send a "a")).
Proof.
  cbv zeta.
  assert (H : local_edits "abc" (mkAuthority [] "abc" [])
                (firstn 4 multiple_rebased))
    by (vm_compute; repeat split; reflexivity).
  split; [exact H|].
  exact (@send_after_receive_sends_the_same text_lib TextLaws.text_laws "abc"
           (firstn 4 multiple_rebased) "a" H).
Defined.

(** X20 for ["converges for multiple local changes"]. *)
Lemma dummy_server_converges_witness :
  (NoDup ["a"; "b"] /\ Dummy.all_edits_fit multiple_local_changes two_clients) /\
  exists s,
    Dummy.run_all multiple_local_changes two_clients = Some s /\
    Dummy.delayed s = [] /\
    all_fit (List.map changes (Dummy.updates s)) "" /\
    Forall (fun state =>
              doc state = apply_all (List.map changes (Dummy.updates s)) "")
      (Dummy.states s).
Proof.
  assert (H1 : NoDup ["a"; "b"]).
  { repeat constructor; cbn; intuition discriminate. }
  assert (H2 : Dummy.all_edits_fit multiple_local_changes two_clients).
  { vm_compute. repeat split; first [reflexivity | lia]. }
  split; [split; [exact H1 | exact H2]|].
  exact (@dummy_server_converges text_lib TextLaws.text_laws ""
           ["a"; "b"] multiple_local_changes H1 H2).
Defined.

(** X21 for the client that gets its first update back together with
    an update of [b]. *)
Lemma legacy_receive_agrees_witness :
  (same_collab (Legacy.field_collab old_yz) (field_collab state_yz) /\
   Forall (fun u => l_clientID u = "a") (sendableUpdates state_yz) /\
   Forall (fun u => clientID u = "a") [accepted_y] /\
   List.length [accepted_y] <= List.length (sendableUpdates state_yz) /\
   Forall (fun u => clientID u <> "a") [foreign_on_y]) /\
  (let spec_old := Legacy.receiveUpdates old_yz
                     (List.map without_id ([accepted_y] ++ [foreign_on_y]))
                     (List.length [accepted_y]) in
   let spec_new := receiveUpdates state_yz ([accepted_y] ++ [foreign_on_y]) in
   Legacy.spec_changes spec_old = spec_changes spec_new /\
   Legacy.spec_effects spec_old = spec_effects spec_new /\
   exists c_old c_new,
     Legacy.annotation_collabReceive (Legacy.spec_annotations spec_old)
       = Some c_old /\
     annotation_collabReceive (spec_annotations spec_new) = Some c_new /\
     same_collab c_old c_new).
Proof.
  assert (H1 : same_collab (Legacy.field_collab old_yz) (field_collab state_yz))
    by (split; [reflexivity | repeat constructor]).
  assert (H2 : Forall (fun u => l_clientID u = "a") (sendableUpdates state_yz))
    by (repeat constructor).
  assert (H3 : Forall (fun u => clientID u = "a") [accepted_y])
    by (repeat constructor).
  assert (H4 : List.length [accepted_y] <= List.length (sendableUpdates state_yz))
    by (cbn; lia).
  assert (H5 : Forall (fun u => clientID u <> "a") [foreign_on_y])
    by (repeat constructor; discriminate).
  split; [auto|].
  exact (legacy_receive_agrees "a" old_yz state_yz [accepted_y] [foreign_on_y]
           H1 H2 H3 H4 H5).
Defined.

End MoreChecks.
